(** * Datapack deployment engine of vlocode: a shallow embedding

    The development follows [packages/vlocity-deploy/src/datapackDeployer.ts]
    (the [DatapackDeployer] class: creation of a deployment, the four
    life-cycle event handlers, post-deploy field verification and the
    deployment-spec dispatcher) and
    [packages/salesforce/src/salesforceLookupService.ts] (the lookup query
    builder).  JavaScript objects that are shared and mutated (deployment
    records) live in an explicit store keyed by their source key; code that
    can throw returns a [result]; the remote org is a collection of oracles.

    Further sections cover the lookup of records by id, the chunks of an
    OmniScript definition
    ([packages/vlocity-deploy/src/omniScript/omniScriptActivator.ts]), the
    string helpers of the util package and its call hooks
    ([packages/util/src/hookManager.ts]). *)

From Stdlib Require Import String Ascii List Bool Arith ZArith Lia Sorted.
From stdpp Require Import base option list gmap strings pretty.

Set Warnings "-register-all,-abstract-large-number".

Local Open Scope string_scope.
Local Open Scope list_scope.

(** ** JavaScript values and errors *)

Inductive JsValue :=
| JUndefined
| JNull
| JBool (b : bool)
| JNumber (n : Z)
| JString (s : string).

#[global] Instance JsValue_eq_dec : EqDecision JsValue.
Proof. solve_decision. Defined.

(** [a !== b] on primitive values. *)
Definition strictNotEqual (a b : JsValue) : bool := negb (bool_decide (a = b)).

(** A thrown JavaScript error: a plain [Error], the [TypeError] raised by a
    property access on [undefined], and the [CustomError] of @vlocode/util
    that wraps an inner error. *)
Inductive Error :=
| ErrorMsg (message : string)
| TypeError (message : string)
| CustomError (message : string) (inner : Error).

Definition getErrorMessage (err : Error) : string :=
  match err with
  | ErrorMsg m => m
  | TypeError m => m
  | CustomError m _ => m
  end.

Inductive result (A : Type) :=
| Ok (a : A)
| Throw (err : Error).
Arguments Ok {A} a.
Arguments Throw {A} err.

(** ** Strings *)

Definition lowerAscii (c : ascii) : ascii :=
  let n := nat_of_ascii c in
  if (65 <=? n)%nat && (n <=? 90)%nat then ascii_of_nat (n + 32) else c.

(** [String.prototype.toLowerCase] on ASCII text. *)
Fixpoint toLowerCase (s : string) : string :=
  match s with
  | EmptyString => EmptyString
  | String c rest => String (lowerAscii c) (toLowerCase rest)
  end.

(** [s.startsWith(p)] and [s.substring(n)]. *)
Definition startsWith (s p : string) : bool := String.prefix p s.
Definition substringFrom (n : nat) (s : string) : string :=
  String.substring n (String.length s - n) s.

Fixpoint joinWith (sep : string) (parts : list string) : string :=
  match parts with
  | [] => ""
  | [p] => p
  | p :: rest => p +:+ sep +:+ joinWith sep rest
  end.

(** ** Deployment records

    [DatapackDeploymentRecord] objects are shared between the deployment, the
    event payloads and the hooks.  The identity of a record and its read-only
    attributes form the reference that payloads carry; the mutable part lives
    in the [Store], keyed by the source key. *)

(** Modelled from the spec: the enum [DeploymentStatus] of
    datapackDeploymentRecord.ts is not part of the sources; section 3 lists
    the statuses. *)
Inductive DeploymentStatus :=
| Pending | Ready | InProgress | Deployed | Failed | Skipped.

#[global] Instance DeploymentStatus_eq_dec : EqDecision DeploymentStatus.
Proof. solve_decision. Defined.

(** The read-only attributes of a record that the deployer reads
    ([sobjectType], [normalizedSObjectType], [datapackType]) and its source
    key, which the spec gives as unique within the deployment. *)
Record DatapackDeploymentRecord := {
  sourceKey : string;
  sobjectType : string;
  normalizedSObjectType : string;
  datapackType : string
}.

(** Modelled from the spec: the mutable attributes of a record, section 3
    (datapackDeploymentRecord.ts is not part of the sources). *)
Record RecordState := {
  status : DeploymentStatus;
  recordId : option string;
  values : list (string * JsValue);
  errors : list string;
  warnings : list string
}.

Definition initialState : RecordState :=
  {| status := Pending; recordId := None; values := []; errors := []; warnings := [] |}.

Abbreviation Store := (gmap string RecordState).

Definition stateOf (st : Store) (r : DatapackDeploymentRecord) : RecordState :=
  default initialState (st !! sourceKey r).

Definition updateRecord (f : RecordState -> RecordState)
    (r : DatapackDeploymentRecord) (st : Store) : Store :=
  <[sourceKey r := f (stateOf st r)]> st.

(** Modelled from the spec: [DatapackDeploymentRecord.setFailed] belongs to
    datapackDeploymentRecord.ts, which is not part of the sources; the spec
    gives a record a [status] and an ordered list of [errors]. *)
Definition setFailed (message : string) (rs : RecordState) : RecordState :=
  {| status := Failed; recordId := recordId rs; values := values rs;
     errors := errors rs ++ [message]; warnings := warnings rs |}.

(** Modelled from the spec: [DatapackDeploymentRecord.addWarning] is not
    part of the sources; the spec gives a record an ordered list of
    [warnings]. *)
Definition addWarning (message : string) (rs : RecordState) : RecordState :=
  {| status := status rs; recordId := recordId rs; values := values rs;
     errors := errors rs; warnings := warnings rs ++ [message] |}.

(** Modelled from the spec: the getter [isDeployed] is not part of the
    sources; section 3 has the status Deployed for a record that was
    deployed. *)
Definition isDeployed (rs : RecordState) : bool :=
  bool_decide (status rs = Deployed).

(** [values[name]]; a missing field reads as [undefined]. *)
Fixpoint fieldValue (name : string) (vs : list (string * JsValue)) : JsValue :=
  match vs with
  | [] => JUndefined
  | (k, v) :: rest => if String.eqb k name then v else fieldValue name rest
  end.

(** ** Record dependencies (datapackDeployer.ts, lines 21-34)

    The TypeScript type is a union of two object shapes discriminated on
    [VlocityDataPackType]; a property typed [undefined] reads as [None]. *)

Inductive VlocityDataPackDependencyType :=
| VlocityMatchingKeyObject
| VlocityLookupMatchingKeyObject.

Inductive DatapackRecordDependency :=
| MatchingKeyDependency (recordSObjectType : string) (matchingRecordSourceKey : string)
| LookupKeyDependency (recordSObjectType : string) (lookupRecordSourceKey : string).

Definition VlocityRecordSObjectType (d : DatapackRecordDependency) : string :=
  match d with
  | MatchingKeyDependency t _ => t
  | LookupKeyDependency t _ => t
  end.

Definition VlocityDataPackType (d : DatapackRecordDependency) : VlocityDataPackDependencyType :=
  match d with
  | MatchingKeyDependency _ _ => VlocityMatchingKeyObject
  | LookupKeyDependency _ _ => VlocityLookupMatchingKeyObject
  end.

Definition VlocityMatchingRecordSourceKey (d : DatapackRecordDependency) : option string :=
  match d with
  | MatchingKeyDependency _ k => Some k
  | LookupKeyDependency _ _ => None
  end.

Definition VlocityLookupRecordSourceKey (d : DatapackRecordDependency) : option string :=
  match d with
  | MatchingKeyDependency _ _ => None
  | LookupKeyDependency _ k => Some k
  end.

(** ** Datapacks, record groups and events *)

Record VlocityDatapack := {
  headerFile : string;
  dpDatapackType : string;
  dpSObjectType : string
}.

Record DatapackDeploymentRecordGroup := {
  key : string;
  records : list DatapackDeploymentRecord
}.

Record DatapackDeploymentOptions := {
  disableTriggers : bool;
  continueOnError : bool
}.

(** What the deployer reads from and adds to a [DatapackDeployment]
    (datapackDeployment.ts is not part of the sources): its options, the
    cancellation flag and the records added so far. *)
Record DatapackDeployment := {
  options : DatapackDeploymentOptions;
  isCancelled : bool;
  deploymentRecords : list DatapackDeploymentRecord
}.

Record DatapackDeploymentEvent := {
  deployment : DatapackDeployment;
  recordGroups : list DatapackDeploymentRecordGroup
}.

(** Modelled from the spec: the getter [DatapackDeploymentEvent.records] is
    not part of the sources (datapackDeploymentEvent.ts); section 4.5 speaks
    of every record reachable from the event payload, which for an event are
    the records of its groups. *)
Definition eventRecords (e : DatapackDeploymentEvent) : list DatapackDeploymentRecord :=
  flat_map records (recordGroups e).

(** Collaborators of the deployer whose code is not part of the sources:
    the [datapackType] getter of a record group, which depends on what the
    constructor receives (the key and the records), and
    [removeNamespacePrefix] of @vlocode/util. *)
Class Collaborators := {
  groupDatapackType : string -> list DatapackDeploymentRecord -> string;
  removeNamespacePrefix : string -> string
}.

(** ** Spec filters (datapackDeployer.ts, lines 128-130 and 407-433) *)

Inductive FilterPattern :=
| FString (s : string)
| FRegExp (test : string -> bool).

Record DatapackFilter := {
  recordFilter : option FilterPattern;
  datapackFilter : option FilterPattern
}.

(** [!!f]: an absent filter and the empty string are falsy. *)
Definition truthy (f : option FilterPattern) : bool :=
  match f with
  | None => false
  | Some (FString s) => negb (String.eqb s "")
  | Some (FRegExp _) => true
  end.

Definition isMatch (a : FilterPattern) (b : string) : bool :=
  match a with
  | FString s => String.eqb (toLowerCase s) (toLowerCase b)
  | FRegExp test => test b
  end.

(** [!!f && isMatch(f, b)] *)
Definition matches (f : option FilterPattern) (b : string) : bool :=
  match f with
  | Some a => truthy f && isMatch a b
  | None => false
  end.

Section Filters.
Context `{Collaborators}.

(** [evalFilter] (lines 416-433) branches on the type of its argument; each
    branch is a function here.  Line 419-421: a string. *)
Definition evalFilterString (flt : DatapackFilter) (arg : string) : bool :=
  matches (datapackFilter flt) arg || matches (recordFilter flt) arg.

(** Lines 422-424: a [DatapackDeploymentRecord]. *)
Definition evalFilterRecord (flt : DatapackFilter) (arg : DatapackDeploymentRecord) : bool :=
  matches (datapackFilter flt) (datapackType arg)
  || matches (recordFilter flt) (normalizedSObjectType arg).

(** Lines 425-427: a [VlocityDatapack]. *)
Definition evalFilterDatapack (flt : DatapackFilter) (arg : VlocityDatapack) : bool :=
  matches (datapackFilter flt) (dpDatapackType arg)
  || matches (recordFilter flt) (removeNamespacePrefix (dpSObjectType arg)).

(** Lines 428-430: a [DatapackDeploymentRecordGroup]; the record filter is
    not consulted. *)
Definition evalFilterGroup (flt : DatapackFilter) (arg : DatapackDeploymentRecordGroup) : bool :=
  matches (datapackFilter flt) (groupDatapackType (key arg) (records arg)).

(** [filterApplicableRecords] (lines 407-414) on an array of records. *)
Definition filterApplicableRecords (flt : DatapackFilter)
    (arg : list DatapackDeploymentRecord) : list DatapackDeploymentRecord :=
  List.filter (evalFilterRecord flt) arg.

(** [filterApplicableRecords] on a record group: a new group with the same
    key and the applicable records. *)
Definition filterApplicableGroup (flt : DatapackFilter)
    (arg : DatapackDeploymentRecordGroup) : DatapackDeploymentRecordGroup :=
  {| key := key arg; records := filterApplicableRecords flt (records arg) |}.
End Filters.

(** ** Deployment specs and the dispatcher (datapackDeployer.ts, lines 336-405) *)

Inductive EventType :=
| fn_preprocess
| fn_afterRecordConversion
| fn_beforeDeploy
| fn_afterDeploy
| fn_beforeDeployRecord
| fn_afterDeployRecord.

Definition eventName (t : EventType) : string :=
  match t with
  | fn_preprocess => "preprocess"
  | fn_afterRecordConversion => "afterRecordConversion"
  | fn_beforeDeploy => "beforeDeploy"
  | fn_afterDeploy => "afterDeploy"
  | fn_beforeDeployRecord => "beforeDeployRecord"
  | fn_afterDeployRecord => "afterDeployRecord"
  end.

(** An argument of a spec function. *)
Inductive Param :=
| PRecords (rs : list DatapackDeploymentRecord)
| PDatapack (d : VlocityDatapack)
| PEvent (e : DatapackDeploymentEvent)
| PRecord (r : DatapackDeploymentRecord).

(** A spec function receives its arguments and may mutate any deployment
    record it can reach; it returns normally ([None]) or throws. *)
Definition SpecFunction := list Param -> Store -> Store * option Error.

Record DatapackDeploymentSpec := {
  specFunction : EventType -> option SpecFunction
}.

Inductive ErrorSeverity := warn | error.

Record DeploymentSpecExecuteOptions := {
  args : list Param;
  ignoreErrors : bool;
  errorSeverity : option ErrorSeverity
}.

Inductive LogLevel := LogInfo | LogError.

(** One call of a spec function: the position of the spec in the registry,
    the function and the arguments it was applied to. *)
Record Invocation := {
  invokedSpec : nat;
  invokedFunction : EventType;
  invokedWith : list Param
}.

(** The state the deployer acts on: the deployment records, the
    [AllTriggers] row of the trigger setup object of the org ([None] when the
    row does not exist, otherwise the value of [IsTriggerOn__c]), the log
    (without the verbose lines) and the trace of spec function calls. *)
Record World := {
  store : Store;
  triggerSetup : option bool;
  logs : list (LogLevel * string);
  invocations : list Invocation
}.

Definition withStore (st : Store) (w : World) : World :=
  {| store := st; triggerSetup := triggerSetup w; logs := logs w;
     invocations := invocations w |}.

Definition withTriggerSetup (t : option bool) (w : World) : World :=
  {| store := store w; triggerSetup := t; logs := logs w;
     invocations := invocations w |}.

Definition logMessage (level : LogLevel) (message : string) (w : World) : World :=
  {| store := store w; triggerSetup := triggerSetup w;
     logs := logs w ++ [(level, message)]; invocations := invocations w |}.

Definition recordInvocation (i : Invocation) (w : World) : World :=
  {| store := store w; triggerSetup := triggerSetup w; logs := logs w;
     invocations := invocations w ++ [i] |}.

(** [affectedRecords.add(record)] on a JavaScript [Set], kept in insertion
    order; two references denote the same object when their source keys agree. *)
Definition setAdd (acc : list DatapackDeploymentRecord) (r : DatapackDeploymentRecord)
    : list DatapackDeploymentRecord :=
  if existsb (fun x => String.eqb (sourceKey x) (sourceKey r)) acc then acc else acc ++ [r].

(** Lines 396-402: the records one parameter contributes; an array
    contributes the affected records of its elements. *)
Definition getAffectedRecordsOf (param : Param) : list DatapackDeploymentRecord :=
  match param with
  | PEvent e => eventRecords e
  | PRecord r => [r]
  | PRecords rs => fold_left setAdd rs []
  | PDatapack _ => []
  end.

(** Lines 393-405. *)
Definition getAffectedRecords (parameters : list Param) : list DatapackDeploymentRecord :=
  fold_left (fun acc param => fold_left setAdd (getAffectedRecordsOf param) acc) parameters [].

(** Lines 382-391. *)
Definition handleSpecFunctionError (eventType : EventType) (err : Error)
    (opts : DeploymentSpecExecuteOptions) (w : World) : World :=
  let w1 := logMessage LogError ("Spec function failed to execute: " +:+ getErrorMessage err) w in
  let attach (st : Store) (record : DatapackDeploymentRecord) : Store :=
    match errorSeverity opts with
    | Some warn =>
        updateRecord
          (addWarning (eventName eventType +:+ " spec error: " +:+ getErrorMessage err))
          record st
    | Some error =>
        updateRecord
          (setFailed (eventName eventType +:+ " spec error: " +:+ getErrorMessage err))
          record st
    | None => st
    end in
  withStore (fold_left attach (getAffectedRecords (args opts)) (store w1)) w1.

(** What the dispatcher decides for one spec before calling it. *)
Inductive Narrowed :=
| Invoke (specParams : list Param)
| SkipSpec
| Raise (err : Error).

Section Dispatcher.
Context `{Collaborators}.

(** [!l.length] *)
Definition isEmpty {A} (l : list A) : bool :=
  match l with [] => true | _ => false end.

(** Lines 362-364. *)
Definition narrowGroups (flt : DatapackFilter)
    (groups : list DatapackDeploymentRecordGroup) : list DatapackDeploymentRecordGroup :=
  List.filter (fun group => negb (isEmpty (records group)))
    (List.map (fun group => if evalFilterGroup flt group then group
                            else filterApplicableGroup flt group) groups).

(** Lines 345-369: the arguments the spec function is applied to. *)
Definition narrow (flt : DatapackFilter) (specParams : list Param) : Narrowed :=
  match specParams with
  | PRecords rs :: rest =>
      let records := filterApplicableRecords flt rs in
      if isEmpty records then SkipSpec else Invoke (PRecords records :: rest)
  | PDatapack d :: rest =>
      if evalFilterDatapack flt d then Invoke (PDatapack d :: rest) else SkipSpec
  | PEvent e :: rest =>
      let recordGroups := narrowGroups flt (recordGroups e) in
      if isEmpty recordGroups then SkipSpec
      else Invoke (PEvent {| deployment := deployment e; recordGroups := recordGroups |} :: rest)
  | PRecord _ :: _ =>
      Raise (TypeError "Cannot read properties of undefined (reading 'map')")
  | [] => Raise (TypeError "Cannot read properties of undefined (reading 'recordGroups')")
  end.

(** Lines 343-379: the loop of [runSpecFunction] from the spec at position
    [i] of the registry on; every call of a spec function is recorded. *)
Fixpoint runSpecsFrom (i : nat) (specs : list (DatapackDeploymentSpec * DatapackFilter))
    (eventType : EventType) (opts : DeploymentSpecExecuteOptions) (w : World)
    : World * result unit :=
  match specs with
  | [] => (w, Ok tt)
  | (spec, flt) :: rest =>
      match specFunction spec eventType with
      | None => runSpecsFrom (S i) rest eventType opts w
      | Some fn =>
          match narrow flt (args opts) with
          | SkipSpec => runSpecsFrom (S i) rest eventType opts w
          | Raise err => (w, Throw err)
          | Invoke specParams =>
              let w1 := recordInvocation {| invokedSpec := i; invokedFunction := eventType;
                                            invokedWith := specParams |} w in
              let '(st, thrown) := fn specParams (store w1) in
              let w2 := withStore st w1 in
              match thrown with
              | None => runSpecsFrom (S i) rest eventType opts w2
              | Some err =>
                  if ignoreErrors opts
                  then runSpecsFrom (S i) rest eventType opts
                         (handleSpecFunctionError eventType err opts w2)
                  else (w2, Throw err)
              end
          end
      end
  end.

(** Lines 342-380; [specs] is [this.specRegistry.getSpecs()]. *)
Definition runSpecFunction (specs : list (DatapackDeploymentSpec * DatapackFilter))
    (eventType : EventType) (opts : DeploymentSpecExecuteOptions) (w : World)
    : World * result unit :=
  runSpecsFrom 0 specs eventType opts w.
End Dispatcher.

(** ** The remote org as seen by the deployer *)

Record Field := {
  fieldName : string;
  fieldType : string;
  relationshipName : option string;
  referenceTo : option (list string)
}.

Record OrgRecord := {
  Id : string;
  orgValues : list (string * JsValue)
}.

(** The object handed to [recordBatch.add]: the record id and the fields to
    overwrite. *)
Record RecordUpdate := {
  updateId : string;
  updateFields : list (string * JsValue)
}.

Record BatchResult := {
  resultRecordId : string;
  resultError : option string
}.

(** The places from which [setVlocityTriggerState] is called: the handlers
    of [beforeDeployRecord] (line 279) and of [afterDeployRecord] (line
    293), and the verification before (line 264) and after (line 272) its
    corrective batch. *)
Inductive TriggerCall :=
| inBeforeDeployRecord
| inAfterDeployRecord
| beforeCorrection
| afterCorrection.

(** Answers of the org during one event; every remote call can be
    rejected.  [triggerSetupRead] is the error, if any, of the calls by which
    [setVlocityTriggerState] gets at the trigger setup row (lines 203-208),
    [triggerSetupWrite] that of its insert or update (lines 212 and 215); a
    rejected write is taken to have written nothing.
    [describeSObjectField(type, name, false)] gives [None] for an unknown
    field, [lookupById] gives the records found, and the corrective batch
    yields some results and then either completes or throws, which includes a
    connection that cannot be had (line 266). *)
Record Org := {
  triggerSetupRead : TriggerCall -> option Error;
  triggerSetupWrite : TriggerCall -> option Error;
  describeSObjectField : string -> string -> result (option Field);
  lookupById : list (option string) -> list string -> result (list OrgRecord);
  execute : list (string * RecordUpdate) -> list BatchResult * option Error
}.

(** [groupBy] of @vlocode/util: an object keyed by group, in order of first
    occurrence. *)
Fixpoint groupInsert {A} (k : string) (a : A) (groups : list (string * list A))
    : list (string * list A) :=
  match groups with
  | [] => [(k, [a])]
  | (k', members) :: rest =>
      if String.eqb k' k then (k', members ++ [a]) :: rest
      else (k', members) :: groupInsert k a rest
  end.

Definition groupBy {A} (keyOf : A -> string) (l : list A) : list (string * list A) :=
  fold_left (fun groups a => groupInsert (keyOf a) a groups) l [].

(** ** The deployer (datapackDeployer.ts, lines 146-334) *)

Module Deployer.
Section Deployer.
Context `{Collaborators}.
Variable specs : list (DatapackDeploymentSpec * DatapackFilter).

(** Lines 201-219.  The row is inserted when it does not exist and updated
    when its value differs; nothing is written when the row has the value
    already. *)
Definition setVlocityTriggerState (org : Org) (call : TriggerCall) (newTriggerState : bool)
    (w : World) : World * result unit :=
  match triggerSetupRead org call with
  | Some err => (w, Throw err)
  | None =>
      let written :=
        match triggerSetupWrite org call with
        | Some err => (w, Throw err)
        | None => (withTriggerSetup (Some newTriggerState) w, Ok tt)
        end in
      match triggerSetup w with
      | None => written
      | Some current => if Bool.eqb current newTriggerState then (w, Ok tt) else written
      end
  end.

(** [new Map(records.map(r => [r.recordId, r])).get(id)]: the last record
    with that id. *)
Definition deployedDataGet (st : Store) (records : list DatapackDeploymentRecord)
    (id : string) : option DatapackDeploymentRecord :=
  List.find (fun r => bool_decide (recordId (stateOf st r) = Some id)) (rev records).

(** The keys of that map, [deployedData.keys()]: each id once, in order of
    first insertion. *)
Fixpoint mapKeys (ids : list (option string)) (seen : list (option string))
    : list (option string) :=
  match ids with
  | [] => seen
  | id :: rest =>
      if bool_decide (id ∈ seen) then mapKeys rest seen else mapKeys rest (seen ++ [id])
  end.

(** Lines 232-234: the fields are described one by one; a field the type
    does not have is left out, and the first call that is rejected rejects
    the verification. *)
Fixpoint describeFields (org : Org) (sobjectType : string) (fieldNames : list string)
    : result (list Field) :=
  match fieldNames with
  | [] => Ok []
  | name :: rest =>
      match describeSObjectField org sobjectType name with
      | Throw err => Throw err
      | Ok described =>
          match describeFields org sobjectType rest with
          | Throw err => Throw err
          | Ok fields =>
              Ok match described with
                 | Some field => field :: fields
                 | None => fields
                 end
          end
      end
  end.

(** Lines 245-249: the fields of one org record that differ from the
    deployed values, with the expected value. *)
Definition mismatchedFieldData (st : Store) (records : list DatapackDeploymentRecord)
    (fields : list Field) (result : OrgRecord) : list (string * JsValue) :=
  List.filter
    (fun comp => strictNotEqual (fieldValue (fst comp) (orgValues result)) (snd comp))
    (List.map
       (fun field =>
          (fieldName field,
           match deployedDataGet st records (Id result) with
           | Some r => fieldValue (fieldName field) (values (stateOf st r))
           | None => JUndefined
           end))
       fields).

(** Lines 245-256: the update added to the batch for one org record, if
    any. *)
Definition updateFor (st : Store) (records : list DatapackDeploymentRecord)
    (fields : list Field) (sobjectType : string) (result : OrgRecord)
    : list (string * RecordUpdate) :=
  let mismatched := mismatchedFieldData st records fields result in
  if isEmpty mismatched then []
  else [(sobjectType, {| updateId := Id result; updateFields := mismatched |})].

(** Lines 231-258 for one sobject type: the updates added to the batch. *)
Definition updatesForType (org : Org) (st : Store) (fieldNames : list string)
    (sobjectType : string) (records : list DatapackDeploymentRecord)
    : result (list (string * RecordUpdate)) :=
  match describeFields org sobjectType fieldNames with
  | Throw err => Throw err
  | Ok fields =>
      if isEmpty fields then Ok []
      else
        match lookupById org
                (mapKeys (List.map (fun r => recordId (stateOf st r)) records) [])
                (List.map fieldName fields) with
        | Throw err => Throw err
        | Ok orgData => Ok (flat_map (updateFor st records fields sobjectType) orgData)
        end
  end.

(** The loop of lines 231-258 over the types, which stops at the first
    rejected call. *)
Fixpoint updatesForTypes (org : Org) (st : Store) (fieldNames : list string)
    (groups : list (string * list DatapackDeploymentRecord))
    : result (list (string * RecordUpdate)) :=
  match groups with
  | [] => Ok []
  | (sobjectType, members) :: rest =>
      match updatesForType org st fieldNames sobjectType members with
      | Throw err => Throw err
      | Ok updates =>
          match updatesForTypes org st fieldNames rest with
          | Throw err => Throw err
          | Ok more => Ok (updates ++ more)
          end
      end
  end.

(** Lines 228-258: the corrective batch. *)
Definition verificationBatch (org : Org) (st : Store)
    (records : list DatapackDeploymentRecord) (fieldNames : list string)
    : result (list (string * RecordUpdate)) :=
  updatesForTypes org st fieldNames
    (groupBy sobjectType (List.filter (fun r => isDeployed (stateOf st r)) records)).

Definition logFieldUpdateErrors (results : list BatchResult) (w : World) : World :=
  fold_left
    (fun w result =>
       match resultError result with
       | Some err =>
           logMessage LogError
             ("Field update failed for " +:+ resultRecordId result +:+ " -- " +:+ err) w
       | None => w
       end)
    results w.

(** Lines 227-275.  The triggers are disabled before the [try] block; an
    error thrown in the [finally] block takes the place of the one thrown in
    the [try] block. *)
Definition verifyDeployedFieldData (org : Org) (records : list DatapackDeploymentRecord)
    (fieldNames : list string) (w : World) : World * result unit :=
  match verificationBatch org (store w) records fieldNames with
  | Throw err => (w, Throw err)
  | Ok recordBatch =>
      if isEmpty recordBatch then (w, Ok tt)
      else
        let w1 := logMessage LogInfo
                    ("Updating " +:+ pretty (length recordBatch)
                     +:+ " records with mismatching values on: "
                     +:+ joinWith ", " fieldNames) w in
        match setVlocityTriggerState org beforeCorrection false w1 with
        | (w2, Throw err) => (w2, Throw err)
        | (w2, Ok _) =>
            let '(results, thrown) := execute org recordBatch in
            let w3 := logFieldUpdateErrors results w2 in
            (* finally *)
            match setVlocityTriggerState org afterCorrection true w3 with
            | (w4, Throw err) => (w4, Throw err)
            | (w4, Ok _) =>
                match thrown with
                | None => (w4, Ok tt)
                | Some err => (w4, Throw err)
                end
            end
        end
  end.

(** Lines 277-289. *)
Definition beforeDeployRecord (org : Org) (deployment : DatapackDeployment)
    (datapackRecords : list DatapackDeploymentRecord) (w : World) : World * result unit :=
  match
    if disableTriggers (options deployment)
    then setVlocityTriggerState org inBeforeDeployRecord false w
    else (w, Ok tt)
  with
  | (w1, Throw err) => (w1, Throw err)
  | (w1, Ok _) =>
      if isCancelled deployment then (w1, Ok tt)
      else runSpecFunction specs fn_beforeDeployRecord
             {| args := [PRecords datapackRecords]; ignoreErrors := true;
                errorSeverity := Some error |} w1
  end.

Definition criticalFields : list string :=
  ["GlobalKey__c"; "GlobalKey2__c"; "GlobalGroupKey__c"].

(** Lines 291-304. *)
Definition afterDeployRecord (org : Org) (deployment : DatapackDeployment)
    (datapackRecords : list DatapackDeploymentRecord) (w : World) : World * result unit :=
  match
    if disableTriggers (options deployment)
    then setVlocityTriggerState org inAfterDeployRecord true w
    else (w, Ok tt)
  with
  | (w1, Throw err) => (w1, Throw err)
  | (w1, Ok _) =>
      if isCancelled deployment then (w1, Ok tt)
      else
        match verifyDeployedFieldData org datapackRecords criticalFields w1 with
        | (w2, Throw err) => (w2, Throw err)
        | (w2, Ok _) =>
            runSpecFunction specs fn_afterDeployRecord
              {| args := [PRecords datapackRecords]; ignoreErrors := true;
                 errorSeverity := Some warn |} w2
        end
  end.

(** Lines 310-319. *)
Definition beforeDeployRecordGroup (deployment : DatapackDeployment)
    (datapackGroups : list DatapackDeploymentRecordGroup) (w : World) : World * result unit :=
  if isCancelled deployment then (w, Ok tt)
  else runSpecFunction specs fn_beforeDeploy
         {| args := [PEvent {| deployment := deployment; recordGroups := datapackGroups |}];
            ignoreErrors := true; errorSeverity := Some error |} w.

(** Lines 325-334. *)
Definition afterDeployRecordGroup (deployment : DatapackDeployment)
    (datapackGroups : list DatapackDeploymentRecordGroup) (w : World) : World * result unit :=
  if isCancelled deployment then (w, Ok tt)
  else runSpecFunction specs fn_afterDeploy
         {| args := [PEvent {| deployment := deployment; recordGroups := datapackGroups |}];
            ignoreErrors := true; errorSeverity := Some warn |} w.

(** *** Creating a deployment (lines 151-183)

    [recordFactory.createRecords] allocates the records of a datapack or
    throws; the cancellation token is read once per datapack.  The
    callbacks of [forEachAsyncParallel] are taken one after the other, in
    the order of the datapacks, and the first one that throws rejects the
    whole call; how up to eight callbacks interleave at their awaits is
    not modelled.  The log line of line 180, which follows the loop and
    reports the elapsed time, is left out. *)
Variable createRecords :
  VlocityDatapack -> Store -> Store * result (list DatapackDeploymentRecord).
Variable isCancellationRequested : VlocityDatapack -> bool.

Definition add (records : list DatapackDeploymentRecord) (d : DatapackDeployment)
    : DatapackDeployment :=
  {| options := options d; isCancelled := isCancelled d;
     deploymentRecords := deploymentRecords d ++ records |}.

Definition loadErrorMessage (datapack : VlocityDatapack) (err : Error) : string :=
  "Error while loading Datapack '" +:+ headerFile datapack +:+ "' -- " +:+ getErrorMessage err.

(** The body of the [try] block, lines 168-171. *)
Definition convertDatapack (opts : DatapackDeploymentOptions) (datapack : VlocityDatapack)
    (w : World) : World * result (list DatapackDeploymentRecord) :=
  match runSpecFunction specs fn_preprocess
          {| args := [PDatapack datapack]; ignoreErrors := false; errorSeverity := None |} w with
  | (w1, Throw err) => (w1, Throw err)
  | (w1, Ok _) =>
      match createRecords datapack (store w1) with
      | (st, Throw err) => (withStore st w1, Throw err)
      | (st, Ok records) =>
          match runSpecFunction specs fn_afterRecordConversion
                  {| args := [PRecords records]; ignoreErrors := continueOnError opts;
                     errorSeverity := Some error |} (withStore st w1) with
          | (w2, Throw err) => (w2, Throw err)
          | (w2, Ok _) => (w2, Ok records)
          end
      end
  end.

(** The callback of lines 163-179 for one datapack. *)
Definition loadDatapack (opts : DatapackDeploymentOptions) (datapack : VlocityDatapack)
    (d : DatapackDeployment) (w : World) : World * result DatapackDeployment :=
  if isCancellationRequested datapack then (w, Ok d)
  else
    match convertDatapack opts datapack w with
    | (w1, Ok records) => (w1, Ok (add records d))
    | (w1, Throw err) =>
        let errorMessage := loadErrorMessage datapack err in
        if negb (continueOnError opts) then (w1, Throw (CustomError errorMessage err))
        else (logMessage LogError errorMessage w1, Ok d)
    end.

Fixpoint loadDatapacks (opts : DatapackDeploymentOptions) (datapacks : list VlocityDatapack)
    (d : DatapackDeployment) (w : World) : World * result DatapackDeployment :=
  match datapacks with
  | [] => (w, Ok d)
  | datapack :: rest =>
      match loadDatapack opts datapack d w with
      | (w1, Ok d1) => loadDatapacks opts rest d1 w1
      | (w1, Throw err) => (w1, Throw err)
      end
  end.

Definition createDeployment (datapacks : list VlocityDatapack)
    (opts : DatapackDeploymentOptions) (w : World) : World * result DatapackDeployment :=
  loadDatapacks opts datapacks
    {| options := opts; isCancelled := false; deploymentRecords := [] |}
    (logMessage LogInfo "Converting datapacks to Salesforce records..." w).

(** *** The events of a deployment

    [createDeployment] subscribes the four handlers to the events of the
    deployment (lines 156-159).  An emission is one event as the deployer
    observes it: the changes the deployment made to its records since the
    previous event, the cancellation flag and the answers of the org at that
    time. *)
Inductive DeploymentEvent :=
| emit_beforeDeployGroup (groups : list DatapackDeploymentRecordGroup)
| emit_beforeDeployRecord (records : list DatapackDeploymentRecord)
| emit_afterDeployRecord (records : list DatapackDeploymentRecord)
| emit_afterDeployGroup (groups : list DatapackDeploymentRecordGroup).

Record Emission := {
  progress : Store -> Store;
  cancelled : bool;
  org : Org;
  event : DeploymentEvent
}.

Definition handle (d : DatapackDeployment) (e : Emission) (w : World) : World * result unit :=
  let deployment := {| options := options d; isCancelled := cancelled e;
                       deploymentRecords := deploymentRecords d |} in
  let w1 := withStore (progress e (store w)) w in
  match event e with
  | emit_beforeDeployGroup groups => beforeDeployRecordGroup deployment groups w1
  | emit_beforeDeployRecord records => beforeDeployRecord (org e) deployment records w1
  | emit_afterDeployRecord records => afterDeployRecord (org e) deployment records w1
  | emit_afterDeployGroup groups => afterDeployRecordGroup deployment groups w1
  end.

(** The handlers called for a sequence of events, up to the first one that
    throws. *)
Fixpoint emitAll (d : DatapackDeployment) (emissions : list Emission) (w : World)
    : World * result unit :=
  match emissions with
  | [] => (w, Ok tt)
  | e :: rest =>
      match handle d e w with
      | (w1, Ok _) => emitAll d rest w1
      | (w1, Throw err) => (w1, Throw err)
      end
  end.

(** *** Running a deployment *)

(** Modelled from the spec: [DatapackDeployment.start]
    (datapackDeployment.ts) is not part of the sources.  Section 4.3: for
    the groups of a wave the deployment emits [beforeDeployGroup], executes
    the batch and emits [afterDeployGroup], with the events
    [beforeDeployRecord] and [afterDeployRecord] around the batch, and the
    trigger flag is restored in a finally-equivalent block even on error.
    The flag is toggled by the handlers of the record events (lines
    277-304), so that block is the one that emits [afterDeployRecord]: the
    event is emitted whenever [beforeDeployRecord] was, also when the handler
    of that event or the batch throws.  A wave gives what the deployment
    does between the events: the groups and records it selected, what the
    batch did to the records, the fatal error the batch raised, if any, the
    answers of the org before and after the batch, and whether cancellation
    was observed while the wave was under way. *)
Record Wave := {
  waveGroups : list DatapackDeploymentRecordGroup;
  waveRecords : list DatapackDeploymentRecord;
  orgBefore : Org;
  orgAfter : Org;
  batch : Store -> Store;
  batchError : option Error;
  cancelledAfter : bool
}.

(** Modelled from the spec: section 5, an event emitted before the batch
    of a wave, which is started only while the deployment is not cancelled,
    and one emitted after it, when cancellation may have been observed. *)
Definition emittedBefore (wave : Wave) (event : DeploymentEvent) : Emission :=
  {| progress := fun st => st; cancelled := false; org := orgBefore wave; event := event |}.

(** Modelled from the spec: section 5, an event emitted after the batch of
    a wave, when cancellation may have been observed. *)
Definition emittedAfter (wave : Wave) (event : DeploymentEvent) : Emission :=
  {| progress := fun st => st; cancelled := cancelledAfter wave; org := orgAfter wave;
     event := event |}.

(** Modelled from the spec: section 4.3, steps b to f for one wave. *)
Definition deployWave (d : DatapackDeployment) (wave : Wave) (w : World)
    : World * result unit :=
  match handle d (emittedBefore wave (emit_beforeDeployGroup (waveGroups wave))) w with
  | (w1, Throw err) => (w1, Throw err)
  | (w1, Ok _) =>
      (* try *)
      let '(w2, thrown) :=
        match handle d (emittedBefore wave (emit_beforeDeployRecord (waveRecords wave))) w1 with
        | (w2, Throw err) => (w2, Some err)
        | (w2, Ok _) => (withStore (batch wave (store w2)) w2, batchError wave)
        end in
      (* finally *)
      match handle d (emittedAfter wave (emit_afterDeployRecord (waveRecords wave))) w2 with
      | (w3, Throw err) => (w3, Throw err)
      | (w3, Ok _) =>
          match thrown with
          | Some err => (w3, Throw err)
          | None =>
              handle d (emittedAfter wave (emit_afterDeployGroup (waveGroups wave))) w3
          end
      end
  end.

(** Modelled from the spec: section 4.3, step 2, and section 5: the waves
    are deployed one after the other; an error ends the run, and no wave is
    started once cancellation was observed. *)
Fixpoint start (d : DatapackDeployment) (waves : list Wave) (w : World)
    : World * result unit :=
  match waves with
  | [] => (w, Ok tt)
  | wave :: rest =>
      match deployWave d wave w with
      | (w1, Throw err) => (w1, Throw err)
      | (w1, Ok _) => if cancelledAfter wave then (w1, Ok tt) else start d rest w1
      end
  end.

(** Lines 192-195: [deploy] awaits [start] and has no handler of its own
    for a rejection. *)
Definition deploy (datapacks : list VlocityDatapack) (opts : DatapackDeploymentOptions)
    (waves : list Wave) (w : World) : World * result DatapackDeployment :=
  match createDeployment datapacks opts w with
  | (w1, Throw err) => (w1, Throw err)
  | (w1, Ok d) =>
      match start d waves w1 with
      | (w2, Throw err) => (w2, Throw err)
      | (w2, Ok _) => (w2, Ok d)
      end
  end.
End Deployer.
End Deployer.

(** ** The lookup service (salesforceLookupService.ts) *)

Module Lookup.

(** A value of a filter object. *)
Inductive LookupValue :=
| LUndefined
| LNull
| LBool (b : bool)
| LNumber (n : Z)
| LString (s : string)
| LArray (items : list LookupValue)
| LObject (entries : list (string * LookupValue)).

(** A filter is a where condition written out or a filter object. *)
Inductive LookupFilter :=
| WhereString (condition : string)
| FilterObject (values : option (list (string * LookupValue))).

Inductive LookupFields :=
| AllFields
| Fields (names : list string).

(** The services the lookup relies on; their code is not part of the
    sources.  [describeSObjectFieldPath] gives the fields along a path or
    throws, [query] runs a SOQL query. *)
Class Services := {
  describeSObjectFieldPath : string -> string -> result (list Field);
  describeSObjectName : string -> string;
  getSObjectFields : string -> list string;
  toSalesforceField : string -> string -> option string;
  isSalesforceId : string -> bool;
  formatFieldValue : LookupValue -> Field -> string;
  joinLimit : list string -> nat -> string -> list string;
  trim : string -> string;
  query : string -> list OrgRecord
}.

Section Lookup.
Context `{Services}.

(** Lines 137-164: the comparison operator and the value compared with. *)
Definition comparison (value : LookupValue) (salesforceField : Field) : string * LookupValue :=
  let '(operator, value) :=
    match value with
    | LString s =>
        if startsWith s "!=" then ("!=", LString (substringFrom 2 s))
        else if startsWith s ">" then (">", LString (substringFrom 1 s))
        else if startsWith s "<" then ("<", LString (substringFrom 1 s))
        else if startsWith s "~" then ("like", LString (substringFrom 1 s))
        else ("=", value)
    | LArray _ =>
        (if String.eqb (fieldType salesforceField) "multipicklist" then "includes" else "in",
         value)
    | _ => ("=", value)
    end in
  match value with
  | LString s =>
      if isSalesforceId s && String.eqb (fieldType salesforceField) "string"
      then (if String.eqb operator "=" then "in" else "not in",
            LArray [LString s; LString (String.substring 0 15 s)])
      else (operator, value)
  | _ => (operator, value)
  end.

Definition isReference (salesforceField : Field) : bool :=
  String.eqb (fieldType salesforceField) "reference"
  && match referenceTo salesforceField with Some _ => true | None => false end
  && match relationshipName salesforceField with
     | Some n => negb (String.eqb n "")
     | None => false
     end.

(** Lines 126-169 for one entry of the filter object; an object value
    recurses with its keys prefixed by the field name. *)
Fixpoint lookupFilterOf (type : string) (fieldPath : string) (value : LookupValue)
    {struct value} : result string :=
  match describeSObjectFieldPath type fieldPath with
  | Throw err => Throw err
  | Ok salesforceFields =>
      match rev salesforceFields with
      | [] => Throw (TypeError "Cannot read properties of undefined (reading 'name')")
      | salesforceField :: parents =>
          let fieldName :=
            joinWith "." (List.map (fun f => default "" (relationshipName f)) (rev parents)
                          ++ [fieldName salesforceField]) in
          match value with
          | LObject entries =>
              if negb (isReference salesforceField)
              then Throw (ErrorMsg ("Object type set for non-reference field " +:+ fieldPath
                                    +:+ " on type " +:+ type))
              else
                match
                  (fix each (es : list (string * LookupValue)) : result (list string) :=
                     match es with
                     | [] => Ok []
                     | (k, v) :: rest =>
                         match lookupFilterOf type (fieldName +:+ "." +:+ k) v with
                         | Throw err => Throw err
                         | Ok clause =>
                             match each rest with
                             | Throw err => Throw err
                             | Ok clauses => Ok (clause :: clauses)
                             end
                         end
                     end) entries
                with
                | Throw err => Throw err
                | Ok lookupFilters => Ok (joinWith " and " lookupFilters)
                end
          | _ =>
              let '(operator, fieldValue) := comparison value salesforceField in
              Ok (fieldName +:+ " " +:+ operator +:+ " "
                  +:+ formatFieldValue fieldValue salesforceField)
          end
      end
  end.

Fixpoint lookupFiltersOf (type : string) (values : list (string * LookupValue))
    : result (list string) :=
  match values with
  | [] => Ok []
  | (fieldPath, value) :: rest =>
      match lookupFilterOf type fieldPath value with
      | Throw err => Throw err
      | Ok clause =>
          match lookupFiltersOf type rest with
          | Throw err => Throw err
          | Ok clauses => Ok (clause :: clauses)
          end
      end
  end.

(** Lines 122-172. *)
Definition createWhereClause (type : string) (values : option (list (string * LookupValue)))
    : result string :=
  match lookupFiltersOf type (default [] values) with
  | Throw err => Throw err
  | Ok lookupFilters => Ok (joinWith " and " lookupFilters)
  end.

Fixpoint resolveFields (type : string) (selectFields : list string) : result (list string) :=
  match selectFields with
  | [] => Ok []
  | field :: rest =>
      match toSalesforceField type field with
      | None => Throw (ErrorMsg ("Unable to resolve lookup field " +:+ field
                                 +:+ " on type " +:+ type))
      | Some fieldPath =>
          match resolveFields type rest with
          | Throw err => Throw err
          | Ok paths => Ok (fieldPath :: paths)
          end
      end
  end.

(** [new Set(['Id'])] followed by [fields.add] for each field. *)
Definition fieldSet (fields : list string) : list string :=
  fold_left (fun acc f => if existsb (String.eqb f) acc then acc else acc ++ [f]) fields ["Id"].

(** Lines 95-120. *)
Definition lookupWhere (type : string) (where_ : option string) (selectFields : LookupFields)
    (limit : option nat) : result (list OrgRecord) :=
  match
    match selectFields with
    | AllFields => Ok (getSObjectFields type)
    | Fields names => resolveFields type names
    end
  with
  | Throw err => Throw err
  | Ok fields =>
      let realType := describeSObjectName type in
      let limitClause :=
        match limit with
        | Some (S n) => " limit " +:+ pretty (S n)
        | _ => ""
        end in
      let whereClause :=
        match where_ with
        | Some w => if (0 <? String.length (trim w))%nat then " where " +:+ w else ""
        | None => ""
        end in
      Ok (query ("select " +:+ joinWith "," (fieldSet fields) +:+ " from " +:+ realType
                 +:+ whereClause +:+ limitClause))
  end.

Fixpoint whereClauses (type : string) (filters : list LookupFilter) : result (list string) :=
  match filters with
  | [] => Ok []
  | f :: rest =>
      match
        match f with
        | WhereString condition => Ok condition
        | FilterObject values => createWhereClause type values
        end
      with
      | Throw err => Throw err
      | Ok clause =>
          match whereClauses type rest with
          | Throw err => Throw err
          | Ok clauses => Ok (clause :: clauses)
          end
      end
  end.

(** The do-while loop of lines 85-90: the body runs once before the queue of
    chunks is tested; [cancelled n] is the state of the cancellation token
    when the loop body is entered for the [n]-th time. *)
Fixpoint lookupChunks (type : string) (first : option string) (filterChunks : list string)
    (lookupFields : LookupFields) (limit : option nat) (cancelled : nat -> bool) (n : nat)
    : result (list OrgRecord) :=
  if cancelled n then Ok []
  else
    match lookupWhere type first lookupFields limit with
    | Throw err => Throw err
    | Ok found =>
        match filterChunks with
        | [] => Ok found
        | next :: rest =>
            match lookupChunks type (Some next) rest lookupFields limit cancelled (S n) with
            | Throw err => Throw err
            | Ok more => Ok (found ++ more)
            end
        end
    end.

(** Lines 79-93. *)
Definition lookup (type : string) (filter : list LookupFilter) (lookupFields : LookupFields)
    (limit : option nat) (cancelled : nat -> bool) : result (list OrgRecord) :=
  match whereClauses type filter with
  | Throw err => Throw err
  | Ok filters =>
      let lookupFieldLen :=
        match lookupFields with
        | Fields names => fold_left (fun a f => a + String.length f) names 0
        | AllFields => 1000
        end in
      let filterChunks :=
        joinLimit
          (List.map (fun f => "(" +:+ f +:+ ")")
             (List.filter (fun f => (0 <? String.length (trim f))%nat) filters))
          (8000 - lookupFieldLen) " or " in
      match filterChunks with
      | [] => lookupChunks type None [] lookupFields limit cancelled 0
      | chunk :: rest => lookupChunks type (Some chunk) rest lookupFields limit cancelled 0
      end
  end.

(** Lines 22-24: [(await this.lookup(...))[0]]. *)
Definition lookupSingle (type : string) (filter : list LookupFilter)
    (lookupFields : LookupFields) (cancelled : nat -> bool) : result (option OrgRecord) :=
  match lookup type filter lookupFields (Some 1) cancelled with
  | Throw err => Throw err
  | Ok results => Ok (head results)
  end.
End Lookup.
End Lookup.

(** ** The record batch executor *)

Module RecordBatch.

(** Modelled from the spec: section 4.2, the per-record result of a remote
    call. *)
Record Result := {
  recordId : option string;
  success : bool;
  error : option string
}.

(** Modelled from the spec: recordBatch.ts is not part of the sources.
    Section 4.2 and section 6: the chunk limit of the remote API, and the
    chunk limit and the number of the retries. *)
Record Options := {
  chunkSize : nat;
  retryChunkSize : nat;
  maxRetries : nat
}.

(** Modelled from the spec: the defaults of section 4.2. *)
Definition defaultOptions : Options :=
  {| chunkSize := 200; retryChunkSize := 5; maxRetries := 1 |}.

Section RecordBatch.
Context {R : Type}.

(** The remote insert, update or delete call: one result per submitted
    record, or a failure of the whole chunk.  The answer can differ from one
    round of submissions to the next: round 0 is the submission of the
    group, round n its n-th retry. *)
Variable remote : nat -> list R -> result (list Result).

(** Modelled from the spec: section 4.2, the chunks cut from the front of
    the records; [fuel] bounds the number of chunks. *)
Fixpoint chunksOf (fuel : nat) (chunkSize : nat) (records : list R) : list (list R) :=
  match fuel, records with
  | 0, _ => []
  | _, [] => []
  | S fuel', _ => take chunkSize records :: chunksOf fuel' chunkSize (drop chunkSize records)
  end.

(** Modelled from the spec: recordBatch.ts is not part of the sources.
    Section 4.2: the executor splits the records of the group into chunks
    bounded by the chunk limit, from the front, until none is left. *)
Definition split (chunkSize : nat) (records : list R) : list (list R) :=
  chunksOf (length records) chunkSize records.

(** Modelled from the spec: section 4.2, the result of a record whose
    chunk failed as a whole carries the error of the chunk. *)
Definition chunkFailure (err : Error) : Result :=
  {| recordId := None; success := false; error := Some (getErrorMessage err) |}.

(** Modelled from the spec: recordBatch.ts is not part of the sources.
    Section 4.2: one remote call per chunk; the results come back in the
    order of submission and are mapped back to the records by position; when
    the whole chunk fails every record of it fails with the chunk error. *)
Definition submit (round : nat) (chunk : list R) : list (R * Result) :=
  match remote round chunk with
  | Ok results => zip chunk results
  | Throw err => List.map (fun r => (r, chunkFailure err)) chunk
  end.

(** Modelled from the spec: section 4.2, one round of submissions: the
    remote calls issued, in order, and the results. *)
Definition submitAll (round : nat) (chunkSize : nat) (records : list R)
    : list (list R) * list (R * Result) :=
  let calls := split chunkSize records in
  (calls, flat_map (submit round) calls).

(** Modelled from the spec: recordBatch.ts is not part of the sources.
    Section 4.2: the records that failed, be it on their own or with their
    chunk, are resubmitted in chunks of [retryChunkSize], up to [maxRetries]
    times; the result of a retried record replaces its earlier one. *)
Fixpoint retry (round : nat) (retries retryChunkSize : nat) (outcome : list (R * Result))
    : list (list R) * list (R * Result) :=
  match retries with
  | 0 => ([], outcome)
  | S n =>
      let failed := List.filter (fun rr => negb (success (snd rr))) outcome in
      if isEmpty failed then ([], outcome)
      else
        let '(calls, retried) := submitAll round retryChunkSize (List.map fst failed) in
        let '(moreCalls, final) := retry (S round) n retryChunkSize retried in
        (calls ++ moreCalls,
         List.filter (fun rr => success (snd rr)) outcome ++ final)
  end.

(** Modelled from the spec: recordBatch.ts is not part of the sources.
    Section 4.2, [execute(group, options)]: the remote calls issued, in
    order, and the per-record results, those of the retries included. *)
Definition execute (options : Options) (records : list R)
    : list (list R) * list (R * Result) :=
  let '(calls, outcome) := submitAll 0 (chunkSize options) records in
  let '(retryCalls, final) := retry 1 (maxRetries options) (retryChunkSize options) outcome in
  (calls ++ retryCalls, final).
End RecordBatch.
End RecordBatch.

(** ** The deployment orchestrator *)

Module Orchestrator.

(** Modelled from the spec: datapackDeploymentRecord.ts is not part of the
    sources.  Section 3: a record has a source key, unique within the
    deployment, an sobject type and its declared dependencies; its status
    and record id are kept in [Statuses]. *)
Record DeploymentRecord := {
  sourceKey : string;
  sobjectType : string;
  dependencies : list DatapackRecordDependency
}.

(** Modelled from the spec: the dependency graph is not part of the
    sources.  Section 3: an entry of the dependency set of a record is a
    record of this deployment, or a reference to be resolved against the data
    of the org. *)
Inductive Entry :=
| InDeployment (key : string)
| External (lookupKey : string).

(** Modelled from the spec: section 6, the options of a deployment that
    the orchestrator reads: those of the batch executor (the chunk limit,
    [retryChunkSize] and [maxRetries]), and [lookupFailedDependencies],
    [allowUnresolvedDependencies] and [strictOrder], which are off by
    default.  The spec names [purgeMatchingDependencies] and says nothing of
    what it does; it is left out. *)
Record Options := {
  batchOptions : RecordBatch.Options;
  lookupFailedDependencies : bool;
  allowUnresolvedDependencies : bool;
  strictOrder : bool
}.

(** Modelled from the spec: section 6, the options when none is set. *)
Definition defaultOptions : Options :=
  {| batchOptions := RecordBatch.defaultOptions;
     lookupFailedDependencies := false;
     allowUnresolvedDependencies := false;
     strictOrder := false |}.

(** Modelled from the spec: the connection is not part of the sources.
    Section 6: a remote call returns one result per submitted record, in the
    order of submission, or fails as a whole; [dml] is the result the org
    gives a record in a round of submissions and [chunkError] the error, if
    any, with which it rejects a whole chunk; [lookupKey] is the lookup of a
    key in the data of the org. *)
Record Remote := {
  dml : nat -> DeploymentRecord -> RecordBatch.Result;
  chunkError : nat -> list DeploymentRecord -> option Error;
  lookupKey : string -> option string
}.

(** Modelled from the spec: section 4.3, step b, and section 5: what a
    hook of [beforeDeployGroup] may do to a record of the group before it is
    submitted. *)
Inductive HookVerdict :=
| markSkipped
| markFailed.

(** Modelled from the spec: section 3, the status of a record and the
    record id it is given once deployed. *)
Record RecordStatus := {
  status : DeploymentStatus;
  recordId : option string
}.

Abbreviation Statuses := (gmap string RecordStatus).

(** Modelled from the spec: section 3, a record starts Pending. *)
Definition statusOf (st : Statuses) (k : string) : DeploymentStatus :=
  match st !! k with
  | Some s => status s
  | None => Pending
  end.

(** Modelled from the spec: datapackDeployment.ts is not part of the
    sources.  One record handed to the remote API, with the state of the
    deployment at that moment. *)
Record Submission := {
  submitted : DeploymentRecord;
  snapshot : Statuses
}.

Section Orchestrator.
Variable opts : Options.
Variable remote : Remote.
Variable hooks : nat -> DeploymentRecord -> option HookVerdict.
Variable records : list DeploymentRecord.

(** Modelled from the spec: section 4.1, whether a source key is present in
    the input set. *)
Definition inDeployment (k : string) : bool :=
  existsb (fun r => String.eqb (sourceKey r) k) records.

(** Modelled from the spec: the graph builder is not part of the sources.
    Section 4.1: a matching key is resolved to a source key of the input
    set when there is one, and is otherwise left to a remote lookup at deploy
    time; a lookup dependency is resolved against the org. *)
Definition entryOf (dep : DatapackRecordDependency) : Entry :=
  match dep with
  | MatchingKeyDependency _ k => if inDeployment k then InDeployment k else External k
  | LookupKeyDependency _ k => External k
  end.

(** Modelled from the spec: section 3, the dependency set of a record in
    the dependency graph. *)
Definition dependencySet (r : DeploymentRecord) : list Entry :=
  List.map entryOf (dependencies r).

(** Modelled from the spec: section 3, the edges of the dependency graph:
    the source keys of the records of the deployment that a record requires,
    and those required by the records with a given source key. *)
Definition requires (r : DeploymentRecord) : list string :=
  flat_map (fun e => match e with
                     | InDeployment k => [k]
                     | External _ => []
                     end) (dependencySet r).

(** Modelled from the spec: section 3, the keys required by the records
    with a given source key. *)
Definition requiredBy (k : string) : list string :=
  flat_map requires (List.filter (fun r => String.eqb (sourceKey r) k) records).

(** Modelled from the spec: the source keys reached from some keys along
    at most [steps] edges of the dependency graph. *)
Fixpoint within (steps : nat) (keys : list string) : list string :=
  match steps with
  | 0 => keys
  | S n => keys ++ within n (flat_map requiredBy keys)
  end.

(** Modelled from the spec: the records a record depends on, directly or
    through other records; a path that repeats no record has at most as many
    edges as there are records. *)
Definition transitiveDependencies (r : DeploymentRecord) : list string :=
  within (length records) (requires r).

(** Modelled from the spec: section 4.1, a record is a member of a cycle
    of matching-key dependencies when it depends on itself. *)
Definition onCycle (r : DeploymentRecord) : bool :=
  bool_decide (sourceKey r ∈ transitiveDependencies r).

(** Modelled from the spec: the graph builder is not part of the sources.
    Section 4.1, [build]: the members of a cycle are marked Failed, which
    keeps them out of the traversal; every other record starts Pending. *)
Definition build : Statuses :=
  fold_left
    (fun st r =>
       if onCycle r then <[sourceKey r := {| status := Failed; recordId := None |}]> st
       else st)
    records ∅.

(** Modelled from the spec: the resolver is not part of the sources.
    Section 4.4: a matching key gives the record id only when that record is
    Deployed; with [lookupFailedDependencies] a dependency on a Failed record
    is looked up in the org instead (section 4.3, step e); a lookup key is
    resolved by a query. *)
Definition resolve (st : Statuses) (e : Entry) : option string :=
  match e with
  | InDeployment k =>
      match statusOf st k with
      | Deployed => Some (default "" (st !! k ≫= recordId))
      | Failed => if lookupFailedDependencies opts then lookupKey remote k else None
      | _ => None
      end
  | External k => lookupKey remote k
  end.

(** Modelled from the spec: a dependency that no later step can resolve
    (section 4.3, step e, and section 4.4): its target Failed or was Skipped,
    or the lookup found nothing. *)
Definition unresolvable (st : Statuses) (e : Entry) : bool :=
  match resolve st e with
  | Some _ => false
  | None =>
      match e with
      | InDeployment k =>
          match statusOf st k with
          | Failed | Skipped => true
          | _ => false
          end
      | External _ => true
      end
  end.

(** Modelled from the spec: the dependency graph is not part of the
    sources.  Section 3: a record is ready when every entry of its dependency
    set is resolved, unless the configuration lets unresolved dependencies
    through ([allowUnresolvedDependencies]). *)
Definition ready (st : Statuses) (r : DeploymentRecord) : bool :=
  forallb (fun e => match resolve st e with
                    | Some _ => true
                    | None => allowUnresolvedDependencies opts && unresolvable st e
                    end)
    (dependencySet r).

(** Modelled from the spec: section 4.3, a record that was not scheduled
    yet. *)
Definition isPending (st : Statuses) (r : DeploymentRecord) : bool :=
  bool_decide (statusOf st (sourceKey r) = Pending).

(** Modelled from the spec: section 4.1, strict order: the group of a
    record cannot be scheduled until every group it transitively depends on
    has fully completed.  A group is deployed as a whole in the wave in which
    its records are selected, so the groups a record depends on have
    completed when none of the records it depends on, directly or through
    other records, is Pending. *)
Definition schedulable (st : Statuses) (r : DeploymentRecord) : bool :=
  isPending st r && ready st r
  && (negb (strictOrder opts)
      || forallb (fun k => negb (bool_decide (statusOf st k = Pending)))
           (transitiveDependencies r)).

(** Modelled from the spec: section 4.3, step e, one round: a pending
    record with a dependency that cannot be resolved is Skipped. *)
Definition skipRound (st : Statuses) : Statuses :=
  fold_left
    (fun acc r =>
       if isPending acc r && negb (allowUnresolvedDependencies opts)
          && existsb (unresolvable acc) (dependencySet r)
       then <[sourceKey r := {| status := Skipped; recordId := None |}]> acc
       else acc)
    records st.

(** Modelled from the spec: section 4.3, step e: the skips are propagated
    along chains of dependencies, one round per record at most. *)
Fixpoint propagate (rounds : nat) (st : Statuses) : Statuses :=
  match rounds with
  | 0 => st
  | S n => propagate n (skipRound st)
  end.

(** Modelled from the spec: section 6, one remote call on a chunk. *)
Definition remoteCall (round : nat) (chunk : list DeploymentRecord)
    : result (list RecordBatch.Result) :=
  match chunkError remote round chunk with
  | Some err => Throw err
  | None => Ok (List.map (dml remote round) chunk)
  end.

(** Modelled from the spec: section 4.3, step d: a result marks its record
    Deployed, with the record id, or Failed. *)
Definition statusFrom (res : RecordBatch.Result) : RecordStatus :=
  if RecordBatch.success res
  then {| status := Deployed; recordId := RecordBatch.recordId res |}
  else {| status := Failed; recordId := None |}.

(** Modelled from the spec: section 4.3, step d: the status of a record
    is replaced by the one its result gives. *)
Definition recordResult (st : Statuses) (rr : DeploymentRecord * RecordBatch.Result)
    : Statuses :=
  <[sourceKey (fst rr) := statusFrom (snd rr)]> st.

(** Modelled from the spec: section 4.3, step b: the hooks of
    [beforeDeployGroup] mark records of the group Skipped or Failed. *)
Definition applyHooks (wave : nat) (members : list DeploymentRecord) (st : Statuses)
    : Statuses :=
  fold_left
    (fun st r =>
       if isPending st r
       then match hooks wave r with
            | Some markSkipped =>
                <[sourceKey r := {| status := Skipped; recordId := None |}]> st
            | Some markFailed =>
                <[sourceKey r := {| status := Failed; recordId := None |}]> st
            | None => st
            end
       else st)
    members st.

(** Modelled from the spec: datapackDeployment.ts is not part of the
    sources.  Section 4.3, steps b to d for one group: the hooks are called,
    the records they left Pending are handed to the batch executor, retries
    included, and the results are recorded.  The statuses are taken to be
    updated when the executor is done: the records of the group were Pending
    when they were selected, so that no record of the deployment depends on
    the moment at which they are. *)
Definition deployGroup (wave : nat) (acc : Statuses * list Submission)
    (group : string * list DeploymentRecord) : Statuses * list Submission :=
  let '(st, trace) := acc in
  let marked := applyHooks wave (snd group) st in
  let '(calls, results) :=
    RecordBatch.execute remoteCall (batchOptions opts)
      (List.filter (isPending marked) (snd group)) in
  (fold_left recordResult results marked,
   trace ++ List.map (fun r => {| submitted := r; snapshot := marked |}) (concat calls)).

(** Modelled from the spec: section 4.3, step a: the records of the next
    groups, by sobject type. *)
Definition nextGroups (st : Statuses) : list (string * list DeploymentRecord) :=
  groupBy sobjectType (List.filter (schedulable st) records).

(** Modelled from the spec: datapackDeployment.ts is not part of the
    sources.  Section 4.3, step 2: while records are ready and the
    deployment is not cancelled, deploy the next groups, propagate the
    failures and recompute readiness. *)
Fixpoint deployLoop (fuel : nat) (wave : nat) (cancelled : nat -> bool)
    (acc : Statuses * list Submission) : Statuses * list Submission :=
  match fuel with
  | 0 => acc
  | S fuel' =>
      if cancelled wave then acc
      else
        let groups := nextGroups (fst acc) in
        if isEmpty groups then acc
        else
          let '(st, trace) := fold_left (deployGroup wave) groups acc in
          deployLoop fuel' (S wave) cancelled (propagate (length records) st, trace)
  end.

(** Modelled from the spec: section 6, [deployment.start]: the graph is
    built and the loop is run.  Every wave that is not the last settles a
    record, so as many waves as there are records, and one more, reach the
    end of the loop. *)
Definition start (cancelled : nat -> bool) : Statuses * list Submission :=
  deployLoop (S (length records)) 0 cancelled (propagate (length records) build, []).
End Orchestrator.
End Orchestrator.

(** ** Notions used in the properties *)

(** A filter pattern is met by a text: a string filter that is set compares
    without regard to case, a regular expression is tested. *)
Definition patternMet (f : option FilterPattern) (text : string) : Prop :=
  match f with
  | None => False
  | Some (FString s) => s <> "" /\ toLowerCase s = toLowerCase text
  | Some (FRegExp test) => test text = true
  end.

Definition recordMatches (flt : DatapackFilter) (r : DatapackDeploymentRecord) : Prop :=
  patternMet (datapackFilter flt) (datapackType r)
  \/ patternMet (recordFilter flt) (normalizedSObjectType r).

Definition groupMatches `{Collaborators} (flt : DatapackFilter)
    (g : DatapackDeploymentRecordGroup) : Prop :=
  patternMet (datapackFilter flt) (groupDatapackType (key g) (records g)).

(** The records reachable from the arguments of an event. *)
Definition reachableFrom (param : Param) (r : DatapackDeploymentRecord) : Prop :=
  match param with
  | PRecords rs => In r rs
  | PRecord r' => r = r'
  | PEvent e => exists g, In g (recordGroups e) /\ In r (records g)
  | PDatapack _ => False
  end.

Definition reachable (parameters : list Param) (r : DatapackDeploymentRecord) : Prop :=
  exists param, In param parameters /\ reachableFrom param r.

Definition keysOf (l : list DatapackDeploymentRecord) : list string := List.map sourceKey l.

(** What a group of an event becomes for a spec: a group that matches on its
    datapack type is handed over as it is, any other group is reduced to its
    matching records. *)
Definition narrowedFrom `{Collaborators} (flt : DatapackFilter)
    (g g' : DatapackDeploymentRecordGroup) : Prop :=
  key g' = key g
  /\ ((groupMatches flt g /\ g' = g)
      \/ (~ groupMatches flt g
          /\ sublist (records g') (records g)
          /\ forall r, In r (records g') <-> In r (records g) /\ recordMatches flt r)).

(** The groups of an event that concern a spec. *)
Definition groupSelected `{Collaborators} (flt : DatapackFilter)
    (g : DatapackDeploymentRecordGroup) : Prop :=
  (groupMatches flt g /\ records g <> [])
  \/ (exists r, In r (records g) /\ recordMatches flt r).

(** The org lets a call of [setVlocityTriggerState] through. *)
Definition accepts (org : Org) (call : TriggerCall) : Prop :=
  triggerSetupRead org call = None /\ triggerSetupWrite org call = None.

(** [err] is the error with which the org rejects one of the remote calls
    of the deployer. *)
Definition orgRaises (org : Org) (err : Error) : Prop :=
  (exists call, triggerSetupRead org call = Some err \/ triggerSetupWrite org call = Some err)
  \/ (exists type name, describeSObjectField org type name = Throw err)
  \/ (exists ids names, lookupById org ids names = Throw err)
  \/ (exists updates results, execute org updates = (results, Some err)).

(** The org describes every one of the field names on a type, and [fields]
    are the fields it has, in the order of the names. *)
Definition describedFields (org : Org) (type : string) (fieldNames : list string)
    (fields : list Field) : Prop :=
  exists described,
    Forall2 (fun name d => describeSObjectField org type name = Ok d) fieldNames described
    /\ fields = omap id described.

(** The ids under which the data of some records is looked up in the org:
    the record id of every one of them, once. *)
Definition deployedIds (st : Store) (members : list DatapackDeploymentRecord)
    (ids : list (option string)) : Prop :=
  List.NoDup ids
  /\ forall id, In id ids <-> exists r, In r members /\ recordId (stateOf st r) = id.

(** The value deployed for a field of the org record [id]: that of the last
    of the records that has this record id, and undefined when none has. *)
Definition deployedValueIs (st : Store) (members : list DatapackDeploymentRecord)
    (id name : string) (v : JsValue) : Prop :=
  (exists before r after,
     members = before ++ r :: after
     /\ recordId (stateOf st r) = Some id
     /\ (forall r', In r' after -> recordId (stateOf st r') <> Some id)
     /\ v = fieldValue name (values (stateOf st r)))
  \/ ((forall r, In r members -> recordId (stateOf st r) <> Some id) /\ v = JUndefined).

(** The last field of a field path and the name used for it in a where
    clause: the relationship names of the fields before it and its own name,
    joined by dots. *)
Definition pathTarget (salesforceFields : list Field) : option (Field * string) :=
  match rev salesforceFields with
  | [] => None
  | salesforceField :: parents =>
      Some (salesforceField,
            joinWith "." (List.map (fun f => default "" (relationshipName f)) (rev parents)
                          ++ [fieldName salesforceField]))
  end.

(** [transform(value, key => `${fieldName}.${key}`)] *)
Definition prefixKeys (fieldName : string) (entries : list (string * Lookup.LookupValue))
    : list (string * Lookup.LookupValue) :=
  List.map (fun kv => (fieldName +:+ "." +:+ fst kv, snd kv)) entries.

(** The state [st'] continues the state [st]: what was not Pending in [st]
    is in [st'] as it was. *)
Definition advances (st st' : gmap string Orchestrator.RecordStatus) : Prop :=
  forall k, Orchestrator.statusOf st k <> Pending -> st' !! k = st !! k.

(** An entry of a dependency set lets a record through: the record it
    names is Deployed, or it is Failed and [lookupFailedDependencies] found
    the key in the org, or, for a lookup, the key is found in the org; or
    [allowUnresolvedDependencies] is set and the entry cannot be resolved any
    more. *)
Definition letsThrough (opts : Orchestrator.Options) (remote : Orchestrator.Remote)
    (st : gmap string Orchestrator.RecordStatus) (e : Orchestrator.Entry) : Prop :=
  match e with
  | Orchestrator.InDeployment k =>
      Orchestrator.statusOf st k = Deployed
      \/ (Orchestrator.lookupFailedDependencies opts = true
          /\ Orchestrator.statusOf st k = Failed
          /\ is_Some (Orchestrator.lookupKey remote k))
      \/ (Orchestrator.allowUnresolvedDependencies opts = true
          /\ (Orchestrator.statusOf st k = Failed \/ Orchestrator.statusOf st k = Skipped))
  | Orchestrator.External k =>
      is_Some (Orchestrator.lookupKey remote k)
      \/ Orchestrator.allowUnresolvedDependencies opts = true
  end.

(** The invariant of the deployment loop: every record handed to the
    remote API is a record of the deployment that was Pending and ready at
    that moment, the state at that moment continued the graph that was built
    and the present state continues it, and the record is now Deployed or
    Failed. *)
Definition submissionsInOrder (opts : Orchestrator.Options) (remote : Orchestrator.Remote)
    (records : list Orchestrator.DeploymentRecord)
    (st : gmap string Orchestrator.RecordStatus) (trace : list Orchestrator.Submission)
    : Prop :=
  forall sub,
    In sub trace ->
    In (Orchestrator.submitted sub) records
    /\ Orchestrator.statusOf (Orchestrator.snapshot sub)
         (Orchestrator.sourceKey (Orchestrator.submitted sub)) = Pending
    /\ Orchestrator.ready opts remote records (Orchestrator.snapshot sub)
         (Orchestrator.submitted sub) = true
    /\ advances (Orchestrator.build records) (Orchestrator.snapshot sub)
    /\ advances (Orchestrator.snapshot sub) st
    /\ (Orchestrator.statusOf st (Orchestrator.sourceKey (Orchestrator.submitted sub))
          = Deployed
        \/ Orchestrator.statusOf st (Orchestrator.sourceKey (Orchestrator.submitted sub))
           = Failed).

(** A pending record that the next round of section 4.3, step e, would
    skip. *)
Definition toBeSkipped (opts : Orchestrator.Options) (remote : Orchestrator.Remote)
    (records : list Orchestrator.DeploymentRecord)
    (st : gmap string Orchestrator.RecordStatus) (r : Orchestrator.DeploymentRecord) : bool :=
  Orchestrator.isPending st r && negb (Orchestrator.allowUnresolvedDependencies opts)
  && existsb (Orchestrator.unresolvable opts remote st) (Orchestrator.dependencySet records r).

Definition pendingCount (records : list Orchestrator.DeploymentRecord)
    (st : gmap string Orchestrator.RecordStatus) : nat :=
  length (List.filter (Orchestrator.isPending st) records).

(** What the trace accounts for: a record is Deployed only when it was
    handed to the remote API, and Failed only when it was handed to the
    remote API, is a member of a cycle or was marked Failed by a hook; no
    other status than Pending, Deployed, Failed and Skipped occurs. *)
Definition submissionsAccounted
    (hooks : nat -> Orchestrator.DeploymentRecord -> option Orchestrator.HookVerdict)
    (records : list Orchestrator.DeploymentRecord)
    (st : gmap string Orchestrator.RecordStatus) (trace : list Orchestrator.Submission)
    : Prop :=
  (forall k,
     Orchestrator.statusOf st k = Deployed ->
     exists sub, In sub trace /\ Orchestrator.sourceKey (Orchestrator.submitted sub) = k)
  /\ (forall k,
        Orchestrator.statusOf st k = Failed ->
        (exists sub, In sub trace
                     /\ Orchestrator.sourceKey (Orchestrator.submitted sub) = k)
        \/ (exists r, In r records /\ Orchestrator.sourceKey r = k
                      /\ (Orchestrator.onCycle records r = true
                          \/ exists wave, hooks wave r = Some Orchestrator.markFailed)))
  /\ (forall k, Orchestrator.statusOf st k <> Ready
                /\ Orchestrator.statusOf st k <> InProgress).

(** ** Sample data for the examples *)

(** A group takes its datapack type from its first record; namespaces are
    left as they are. *)
Definition sampleCollaborators : Collaborators :=
  {| groupDatapackType := fun _ records =>
       match records with
       | r :: _ => datapackType r
       | [] => ""
       end;
     removeNamespacePrefix := fun s => s |}.

Definition contact1 : DatapackDeploymentRecord :=
  {| sourceKey := "c1"; sobjectType := "Contact"; normalizedSObjectType := "Contact";
     datapackType := "Contact" |}.

Definition account1 : DatapackDeploymentRecord :=
  {| sourceKey := "a1"; sobjectType := "Account"; normalizedSObjectType := "Account";
     datapackType := "Account" |}.

Definition accountFilter : DatapackFilter :=
  {| recordFilter := None; datapackFilter := Some (FString "Account") |}.

Definition contactGroup : DatapackDeploymentRecordGroup :=
  {| key := "Contact/c1"; records := [contact1] |}.

Definition accountGroup : DatapackDeploymentRecordGroup :=
  {| key := "Account/a1"; records := [account1] |}.

Definition sampleDeployment : DatapackDeployment :=
  {| options := {| disableTriggers := true; continueOnError := false |};
     isCancelled := false; deploymentRecords := [contact1; account1] |}.

(** A spec whose functions do nothing, and one whose functions throw. *)
Definition quietSpec : DatapackDeploymentSpec :=
  {| specFunction := fun _ => Some (fun _ st => (st, None)) |}.

Definition failingSpec : DatapackDeploymentSpec :=
  {| specFunction := fun _ => Some (fun _ st => (st, Some (ErrorMsg "boom"))) |}.

Definition anyFilter : DatapackFilter :=
  {| recordFilter := Some (FRegExp (fun _ => true)); datapackFilter := None |}.

Definition emptyWorld : World :=
  {| store := ∅; triggerSetup := None; logs := []; invocations := [] |}.

(** A record factory that creates no record and a token that is never
    cancelled; an org in which nothing is found. *)
Definition noRecords (_ : VlocityDatapack) (st : Store)
    : Store * result (list DatapackDeploymentRecord) := (st, Ok []).

Definition neverCancelled (_ : VlocityDatapack) : bool := false.

Definition quietOrg : Org :=
  {| triggerSetupRead := fun _ => None;
     triggerSetupWrite := fun _ => None;
     describeSObjectField := fun _ _ => Ok None;
     lookupById := fun _ _ => Ok [];
     execute := fun _ => ([], None) |}.

(** An org that refuses to write the trigger setup when the handler of
    [afterDeployRecord] wants the triggers enabled again. *)
Definition lockedOrg : Org :=
  {| triggerSetupRead := fun _ => None;
     triggerSetupWrite := fun call =>
       match call with
       | inAfterDeployRecord => Some (ErrorMsg "UNABLE_TO_LOCK_ROW")
       | _ => None
       end;
     describeSObjectField := fun _ _ => Ok None;
     lookupById := fun _ _ => Ok [];
     execute := fun _ => ([], None) |}.

(** A wave that deploys the contact, given the answers of the org after the
    batch and the error of the batch, if any. *)
Definition contactWave (orgAfter : Org) (batchError : option Error) : Deployer.Wave :=
  {| Deployer.waveGroups := [contactGroup]; Deployer.waveRecords := [contact1];
     Deployer.orgBefore := quietOrg; Deployer.orgAfter := orgAfter;
     Deployer.batch := fun st => st; Deployer.batchError := batchError;
     Deployer.cancelledAfter := false |}.

Definition textField (name : string) : Field :=
  {| fieldName := name; fieldType := "string"; relationshipName := None;
     referenceTo := None |}.

(** An org that has the field GlobalKey__c on every type and holds one
    contact, whose global key is [globalKey]; a lookup gives the contact when
    its id is asked for, with the fields asked for. *)
Definition describeGlobalKey (_ name : string) : result (option Field) :=
  Ok (if String.eqb name "GlobalKey__c" then Some (textField "GlobalKey__c") else None).

Definition lookupContact (globalKey : string) (ids : list (option string))
    (names : list string) : result (list OrgRecord) :=
  Ok (if bool_decide (Some "003000000000001" ∈ ids)
      then [{| Id := "003000000000001";
               orgValues := List.filter (fun kv => bool_decide (fst kv ∈ names))
                              [("GlobalKey__c", JString globalKey)] |}]
      else []).

(** An org in which the global key of the deployed contact was changed by a
    trigger, and in which the corrective update of that record fails. *)
Definition driftedOrg : Org :=
  {| triggerSetupRead := fun _ => None;
     triggerSetupWrite := fun _ => None;
     describeSObjectField := describeGlobalKey;
     lookupById := lookupContact "generated";
     execute := fun updates =>
       (List.map (fun u => {| resultRecordId := updateId (snd u);
                              resultError := Some "UNABLE_TO_LOCK_ROW" |}) updates,
        None) |}.

(** An org in which the contact has the global key that was deployed. *)
Definition syncedOrg : Org :=
  {| triggerSetupRead := fun _ => None;
     triggerSetupWrite := fun _ => None;
     describeSObjectField := describeGlobalKey;
     lookupById := lookupContact "key-1";
     execute := fun _ => ([], None) |}.

(** The same drift in an org that cannot be reached when the corrective
    batch is to be sent. *)
Definition unreachableOrg : Org :=
  {| triggerSetupRead := fun _ => None;
     triggerSetupWrite := fun _ => None;
     describeSObjectField := describeGlobalKey;
     lookupById := lookupContact "generated";
     execute := fun _ => ([], Some (ErrorMsg "socket hang up")) |}.

Definition deployedContactWorld : World :=
  {| store := {[ "c1" := {| status := Deployed; recordId := Some "003000000000001";
                            values := [("GlobalKey__c", JString "key-1")];
                            errors := []; warnings := [] |} ]};
     triggerSetup := Some true; logs := []; invocations := [] |}.

(** A record factory that cannot convert the datapack 'broken'. *)
Definition brokenDatapack : VlocityDatapack :=
  {| headerFile := "broken_DataPack.json"; dpDatapackType := "Product2";
     dpSObjectType := "Product2" |}.

Definition accountDatapack : VlocityDatapack :=
  {| headerFile := "account_DataPack.json"; dpDatapackType := "Account";
     dpSObjectType := "Account" |}.

Definition sampleFactory (datapack : VlocityDatapack) (st : Store)
    : Store * result (list DatapackDeploymentRecord) :=
  if String.eqb (headerFile datapack) "broken_DataPack.json"
  then (st, Throw (ErrorMsg "No matching keys"))
  else (st, Ok [account1]).

(** Services for the examples: an id is a text of 15 or 18 characters, every
    path names a single text field, a value is printed between quotes. *)
Definition sampleServices : Lookup.Services :=
  {| Lookup.describeSObjectFieldPath := fun _ path => Ok [textField path];
     Lookup.describeSObjectName := fun type => type;
     Lookup.getSObjectFields := fun _ => ["Id"; "Name"];
     Lookup.toSalesforceField := fun _ f => Some f;
     Lookup.isSalesforceId := fun s =>
       (String.length s =? 15)%nat || (String.length s =? 18)%nat;
     Lookup.formatFieldValue := fun v _ =>
       match v with
       | Lookup.LString s => "'" +:+ s +:+ "'"
       | Lookup.LArray [Lookup.LString a; Lookup.LString b] =>
           "('" +:+ a +:+ "','" +:+ b +:+ "')"
       | _ => "null"
       end;
     Lookup.joinLimit := fun parts _ sep =>
       match parts with [] => [] | _ => [joinWith sep parts] end;
     Lookup.trim := fun s => s;
     Lookup.query := fun _ => [] |}.

(** A remote that accepts every record, and one that rejects every
    record. *)
Definition acceptAll (_ : nat) (chunk : list nat) : result (list RecordBatch.Result) :=
  Ok (List.map (fun n => {| RecordBatch.recordId := Some (pretty n);
                            RecordBatch.success := true;
                            RecordBatch.error := None |}) chunk).


(** The retry scenario of the spec: the remote rejects every chunk that
    holds record 3. *)
Definition rejectThree (_ : nat) (chunk : list nat) : result (list RecordBatch.Result) :=
  if bool_decide (3 ∈ chunk) then Throw (ErrorMsg "MALFORMED_ID")
  else acceptAll 0 chunk.

(** The end-to-end scenario of the spec: a contact that depends on an
    account, and an org in which every insert succeeds. *)
Definition accountRecord : Orchestrator.DeploymentRecord :=
  {| Orchestrator.sourceKey := "a1"; Orchestrator.sobjectType := "Account";
     Orchestrator.dependencies := [] |}.

Definition contactRecord : Orchestrator.DeploymentRecord :=
  {| Orchestrator.sourceKey := "c1"; Orchestrator.sobjectType := "Contact";
     Orchestrator.dependencies := [MatchingKeyDependency "Account" "a1"] |}.

Definition accepted (id : string) : RecordBatch.Result :=
  {| RecordBatch.recordId := Some id; RecordBatch.success := true;
     RecordBatch.error := None |}.

Definition rejected (message : string) : RecordBatch.Result :=
  {| RecordBatch.recordId := None; RecordBatch.success := false;
     RecordBatch.error := Some message |}.

Definition acceptingOrg : Orchestrator.Remote :=
  {| Orchestrator.dml := fun _ r => accepted ("id-" +:+ Orchestrator.sourceKey r);
     Orchestrator.chunkError := fun _ _ => None;
     Orchestrator.lookupKey := fun _ => None |}.

(** An org that rejects the account 'a1' and in which every key is found. *)
Definition rejectingOrg : Orchestrator.Remote :=
  {| Orchestrator.dml := fun _ r =>
       if String.eqb (Orchestrator.sourceKey r) "a1"
       then rejected "REQUIRED_FIELD_MISSING"
       else accepted ("id-" +:+ Orchestrator.sourceKey r);
     Orchestrator.chunkError := fun _ _ => None;
     Orchestrator.lookupKey := fun _ => Some "id-found" |}.

Definition noHooks (_ : nat) (_ : Orchestrator.DeploymentRecord)
    : option Orchestrator.HookVerdict := None.

(** Two records that require each other, and a third that requires
    neither. *)
Definition cycleA : Orchestrator.DeploymentRecord :=
  {| Orchestrator.sourceKey := "A"; Orchestrator.sobjectType := "Product2";
     Orchestrator.dependencies := [MatchingKeyDependency "Product2" "B"] |}.

Definition cycleB : Orchestrator.DeploymentRecord :=
  {| Orchestrator.sourceKey := "B"; Orchestrator.sobjectType := "Product2";
     Orchestrator.dependencies := [MatchingKeyDependency "Product2" "A"] |}.

Definition unrelatedC : Orchestrator.DeploymentRecord :=
  {| Orchestrator.sourceKey := "C"; Orchestrator.sobjectType := "Product2";
     Orchestrator.dependencies := [] |}.

(** ** Proof steps *)

(** One turn of the loop of [runSpecFunction], case by case. *)
Ltac spec_step spec eventType flt opts fn w :=
  cbn [runSpecsFrom];
  destruct (specFunction spec eventType) as [fn |] eqn:?;
  [ destruct (narrow flt (args opts)) as [? | | ?] eqn:?;
    [ match goal with
      | |- context [fn ?p ?s] => destruct (fn p s) as [? [? |]] eqn:?
      end;
      [ destruct (ignoreErrors opts) eqn:? | ]
    | | ]
  | ].

(** ** Lookup of records by id (salesforceLookupService.ts, lines 34-45) *)

Module LookupService.
Section LookupById.
Context `{Lookup.Services}.

(** [(await this.schemaService.describeSObjectById(id)).name]: the name of
    the type of the record with that id; the schema service, which is not
    part of the sources, may reject. *)
Variable describeSObjectById : string -> result string.

(** [resultsById.set(k, v)] on a JavaScript [Map], kept in insertion order:
    the value of an existing key is replaced where it stands. *)
Fixpoint mapSet (k : string) (v : OrgRecord) (m : list (string * OrgRecord))
    : list (string * OrgRecord) :=
  match m with
  | [] => [(k, v)]
  | (k', v') :: rest =>
      if String.eqb k' k then (k', v) :: rest else (k', v') :: mapSet k v rest
  end.

(** The key selector of line 35, awaited for every id; an id that cannot be
    described rejects the whole call. *)
Fixpoint typesOf (ids : list string) : result (list (string * string)) :=
  match ids with
  | [] => Ok []
  | id :: rest =>
      match describeSObjectById id with
      | Throw err => Throw err
      | Ok type =>
          match typesOf rest with
          | Throw err => Throw err
          | Ok typed => Ok ((type, id) :: typed)
          end
      end
  end.

(** Lines 37-43: one lookup per type.  [cancelledAt i] is the state of the
    cancellation token when the loop over the types is entered for the
    [i]-th time, [cancelledIn i] its states during the lookup made then. *)
Fixpoint lookupTypes (entries : list (string * list string)) (lookupFields : Lookup.LookupFields)
    (cancelledAt : nat -> bool) (cancelledIn : nat -> nat -> bool) (i : nat)
    (resultsById : list (string * OrgRecord)) : result (list (string * OrgRecord)) :=
  match entries with
  | [] => Ok resultsById
  | (type, ids) :: rest =>
      if cancelledAt i then Ok resultsById
      else
        match Lookup.lookup type
                (List.map (fun id => Lookup.FilterObject (Some [("Id", Lookup.LString id)])) ids)
                lookupFields None (cancelledIn i) with
        | Throw err => Throw err
        | Ok results =>
            lookupTypes rest lookupFields cancelledAt cancelledIn (S i)
              (fold_left (fun m r => mapSet (Id r) r m) results resultsById)
        end
  end.

(** Lines 34-45. *)
Definition lookupById (ids : list string) (lookupFields : Lookup.LookupFields)
    (cancelledAt : nat -> bool) (cancelledIn : nat -> nat -> bool)
    : result (list (string * OrgRecord)) :=
  match typesOf ids with
  | Throw err => Throw err
  | Ok typed =>
      let idsByType :=
        List.map (fun '(type, members) => (type, List.map snd members)) (groupBy fst typed) in
      lookupTypes idsByType lookupFields cancelledAt cancelledIn 0 []
  end.
End LookupById.
End LookupService.

(** ** Chunks of an OmniScript definition
    (omniScript/omniScriptActivator.ts, lines 151-167)

    A JavaScript string is a sequence of UTF-16 code units; indices are
    integers, since the loop can move an index below zero. *)

Module OmniScriptActivator.

(** [/\s/.test(c)] for one code unit [c]: the white space and line
    terminator code points of ECMAScript. *)
Definition isWhitespace (c : Z) : bool :=
  ((9 <=? c) && (c <=? 13) || (c =? 32) || (c =? 160) || (c =? 5760)
   || (8192 <=? c) && (c <=? 8202) || (c =? 8232) || (c =? 8233) || (c =? 8239)
   || (c =? 8287) || (c =? 12288) || (c =? 65279))%Z.

(** [s[i]]: [undefined] outside of the string. *)
Definition charAt (s : list Z) (i : Z) : option Z :=
  if (i <? 0)%Z then None else s !! Z.to_nat i.

(** [/\s/.test(s[i])]; [undefined] is tested as the text "undefined", which
    has no white space. *)
Definition testWhitespace (c : option Z) : bool :=
  match c with
  | Some u => isWhitespace u
  | None => false
  end.

(** The condition of the inner loop, line 158. *)
Definition atWhitespace (s : list Z) (splitIndex : Z) : bool :=
  testWhitespace (charAt s splitIndex)
  || ((splitIndex + 1 <? Z.of_nat (length s))%Z && testWhitespace (charAt s (splitIndex + 1))).

(** The inner loop, lines 158-161: [splitIndex] is decremented while the
    condition holds. *)
Fixpoint scanBack (fuel : nat) (s : list Z) (splitIndex : Z) : Z :=
  match fuel with
  | O => splitIndex
  | S fuel => if atWhitespace s splitIndex then scanBack fuel s (splitIndex - 1) else splitIndex
  end.

(** The condition is false below index -1, so the inner loop makes at most
    [splitIndex + 2] turns. *)
Definition splitPoint (s : list Z) (splitIndex : Z) : Z :=
  scanBack (Z.to_nat (splitIndex + 2)) s splitIndex.

(** [s.substring(a, b)]: both indices are clamped to the string and
    swapped when the first is the greater. *)
Definition substring (s : list Z) (a b : Z) : list Z :=
  let clamp i := Z.max 0 (Z.min i (Z.of_nat (length s))) in
  let first := Z.min (clamp a) (clamp b) in
  let last := Z.max (clamp a) (clamp b) in
  take (Z.to_nat (last - first)) (drop (Z.to_nat first) s).

(** The outer loop, lines 156-164, from [offset] on; [None] when the loop
    has not ended after [fuel] turns. *)
Fixpoint chunksFrom (fuel : nat) (s : list Z) (chunkSize : Z) (offset : Z)
    : option (list (list Z)) :=
  if (Z.of_nat (length s) >? offset)%Z then
    match fuel with
    | O => None
    | S fuel =>
        let splitIndex := splitPoint s (offset + chunkSize) in
        match chunksFrom fuel s chunkSize splitIndex with
        | Some contentChunks => Some (substring s offset splitIndex :: contentChunks)
        | None => None
        end
    end
  else Some [].

(** Lines 151-167 on the serialized definition, the result of
    [JSON.stringify]. *)
Definition serializeDefinition (fuel : nat) (serializedDefinition : list Z) (chunkSize : Z)
    : option (list (list Z)) :=
  chunksFrom fuel serializedDefinition chunkSize 0.
End OmniScriptActivator.

(** ** String helpers (the string module of the util package) *)

Module StringUtil.

(** A value of type [string | undefined | null]. *)
Inductive OptionalString :=
| Undefined
| Null
| Str (s : string).

#[global] Instance OptionalString_eq_dec : EqDecision OptionalString.
Proof. solve_decision. Defined.

(** [stringEquals]. *)
Definition stringEquals (a b : OptionalString) (caseInsensitive : bool) : bool :=
  if bool_decide (a = b) then true
  else
    match a with
    | Undefined | Null => false
    | Str a' =>
        match b with
        | Undefined | Null => false
        | Str b' =>
            if caseInsensitive then String.eqb (toLowerCase b') (toLowerCase a')
            else false
        end
    end.

(** [s.endsWith(searchString)]: [searchString] is [s] or the end of the
    rest of [s]. *)
Fixpoint stringEndsWith (s searchString : string) : bool :=
  String.eqb s searchString
  || match s with
     | EmptyString => false
     | String _ rest => stringEndsWith rest searchString
     end.

(** [endsWith]. *)
Definition endsWith (a b : OptionalString) (caseInsensitive : bool) : bool :=
  match a with
  | Undefined | Null => false
  | Str a' =>
      match b with
      | Undefined | Null => false
      | Str b' =>
          if caseInsensitive then stringEndsWith (toLowerCase b') (toLowerCase a')
          else stringEndsWith b' a'
      end
  end.

(** [value.indexOf(delimiter)]: the first position at which [delimiter]
    occurs, [None] for the result -1. *)
Fixpoint indexOf (value delimiter : string) : option nat :=
  if String.prefix delimiter value then Some 0
  else
    match value with
    | EmptyString => None
    | String _ rest =>
        match indexOf rest delimiter with
        | Some i => Some (S i)
        | None => None
        end
    end.

(** A delimiter is a string or a regular expression, of which [exec] gives
    the index and the text of the first match. *)
Inductive Delimiter :=
| DString (s : string)
| DRegExp (exec : string -> option (nat * string)).

(** [substringAfter]; the test [indexOfDelimiter && indexOfDelimiter >= 0]
    fails for -1 and for 0. *)
Definition substringAfter (value : string) (delimiter : Delimiter) : string :=
  match delimiter with
  | DString delimiter =>
      match indexOf value delimiter with
      | Some (S i) => substringFrom (S i + String.length delimiter) value
      | _ => value
      end
  | DRegExp exec =>
      match exec value with
      | Some (index, matched) => substringFrom (index + String.length matched) value
      | None => value
      end
  end.
End StringUtil.

(** ** Call hooks (hookManager.ts of the util package)

    The options object of a call is shared by the hooks of the call, which
    may change it; a hook is taken to act on that object only.  The proxy
    that hands out the interceptor functions and caches them is left out. *)

Module HookManager.

Record CallHookOptions := {
  args : list JsValue;
  name : string;
  returnValue : JsValue
}.

(** A hook function returns a value, [undefined] included, or throws; in
    both cases it may have changed the options. *)
Inductive HookOutcome :=
| Returned (result : JsValue)
| Thrown.

Definition HookFunction := CallHookOptions -> CallHookOptions * HookOutcome.

Record CallHook := {
  pre : option HookFunction;
  post : option HookFunction
}.

Inductive HookType := onPre | onPost.

(** [hook[type]] *)
Definition hookFunctionOf (hook : CallHook) (type : HookType) : option HookFunction :=
  match type with
  | onPre => pre hook
  | onPost => post hook
  end.

Definition withReturnValue (value : JsValue) (options : CallHookOptions) : CallHookOptions :=
  {| args := args options; name := name options; returnValue := value |}.

(** The function [execute] of lines 90-99 inside the [try] of lines
    103-107: an error of the hook is dropped. *)
Definition execute (type : HookType) (hook : CallHook) (options : CallHookOptions)
    : CallHookOptions :=
  match hookFunctionOf hook type with
  | None => options
  | Some hookFunction =>
      match hookFunction options with
      | (options, Thrown) => options
      | (options, Returned result) =>
          if strictNotEqual result JUndefined
             && match type with onPost => true | onPre => false end
          then withReturnValue result options
          else options
      end
  end.

(** [executeHooks], lines 89-112. *)
Definition executeHooks (enabled : bool) (hooks : list CallHook) (type : HookType)
    (options : CallHookOptions) : CallHookOptions :=
  if enabled then fold_left (fun options hook => execute type hook options) hooks options
  else options.

(** The function made by [createInterceptorFunc], lines 69-87, for the
    method [name] of the target; [target] is that method, which may throw.
    For a method that returns a promise the hooks of [post] run once the
    promise is resolved, with the same result. *)
Definition createInterceptorFunc (enabled : bool) (hooks : list CallHook)
    (target : list JsValue -> result JsValue) (name : string) (args : list JsValue)
    : result JsValue :=
  let options :=
    executeHooks enabled hooks onPre {| args := args; name := name; returnValue := JUndefined |} in
  match target (HookManager.args options) with
  | Throw err => Throw err
  | Ok value =>
      Ok (returnValue (executeHooks enabled hooks onPost (withReturnValue value options)))
  end.
End HookManager.

(** ** Further notions used in the properties *)

(** A datapack concerns a spec when its datapack type meets the datapack
    filter or its sobject type, without the namespace prefix, meets the
    record filter. *)
Definition datapackMatches `{Collaborators} (flt : DatapackFilter) (d : VlocityDatapack) : Prop :=
  patternMet (datapackFilter flt) (dpDatapackType d)
  \/ patternMet (recordFilter flt) (removeNamespacePrefix (dpSObjectType d)).

(** The query of [lookupWhere] for resolved fields. *)
Definition selectQuery `{Lookup.Services} (type : string) (where_ : option string)
    (fields : list string) (limit : option nat) : string :=
  "select " +:+ joinWith "," (Lookup.fieldSet fields) +:+ " from "
  +:+ Lookup.describeSObjectName type
  +:+ match where_ with
      | Some w => if (0 <? String.length (Lookup.trim w))%nat then " where " +:+ w else ""
      | None => ""
      end
  +:+ match limit with
      | Some (S n) => " limit " +:+ pretty (S n)
      | _ => ""
      end.

(** The fields selected by a lookup, when they can be resolved. *)
Definition selectedFields `{Lookup.Services} (type : string)
    (lookupFields : Lookup.LookupFields) : result (list string) :=
  match lookupFields with
  | Lookup.AllFields => Ok (Lookup.getSObjectFields type)
  | Lookup.Fields names => Lookup.resolveFields type names
  end.

(** ** Further sample data *)

Definition plainOptions : DatapackDeploymentOptions :=
  {| disableTriggers := false; continueOnError := false |}.

Definition plainDeployment : DatapackDeployment :=
  {| options := plainOptions; isCancelled := false; deploymentRecords := [contact1] |}.

Definition afterContactDeployed (org : Org) : Deployer.Emission :=
  {| Deployer.progress := fun st => st; Deployer.cancelled := false; Deployer.org := org;
     Deployer.event := Deployer.emit_afterDeployRecord [contact1] |}.

(** A spec whose [afterRecordConversion] function throws, and a token that
    is cancelled for the datapack 'broken'. *)
Definition failingConversionSpec : DatapackDeploymentSpec :=
  {| specFunction := fun eventType =>
       match eventType with
       | fn_afterRecordConversion => Some (fun _ st => (st, Some (ErrorMsg "boom")))
       | _ => None
       end |}.

Definition continueOptions : DatapackDeploymentOptions :=
  {| disableTriggers := false; continueOnError := true |}.

(** The chunks of where conditions that [lookup] queries one after the
    other (lines 82-83). *)
Definition filterChunksOf `{Lookup.Services} (filters : list string)
    (lookupFields : Lookup.LookupFields) : list string :=
  Lookup.joinLimit
    (List.map (fun f => "(" +:+ f +:+ ")")
       (List.filter (fun f => (0 <? String.length (Lookup.trim f))%nat) filters))
    (8000 - match lookupFields with
            | Lookup.Fields names => fold_left (fun a f => a + String.length f) names 0
            | Lookup.AllFields => 1000
            end) " or ".

(** The services of the examples with another field resolver and another
    answer of the org. *)
Definition sampleServicesWith (resolve : string -> string -> option string)
    (run : string -> list OrgRecord) : Lookup.Services :=
  {| Lookup.describeSObjectFieldPath := @Lookup.describeSObjectFieldPath sampleServices;
     Lookup.describeSObjectName := @Lookup.describeSObjectName sampleServices;
     Lookup.getSObjectFields := @Lookup.getSObjectFields sampleServices;
     Lookup.toSalesforceField := resolve;
     Lookup.isSalesforceId := @Lookup.isSalesforceId sampleServices;
     Lookup.formatFieldValue := @Lookup.formatFieldValue sampleServices;
     Lookup.joinLimit := @Lookup.joinLimit sampleServices;
     Lookup.trim := @Lookup.trim sampleServices;
     Lookup.query := run |}.

(** Services that know the fields Id and Name only, and services of an org
    that holds one contact. *)
Definition strictServices : Lookup.Services :=
  sampleServicesWith
    (fun _ f => if String.eqb f "Id" || String.eqb f "Name" then Some f else None)
    (fun _ => []).

Definition contactServices : Lookup.Services :=
  sampleServicesWith (fun _ f => Some f)
    (fun _ => [{| Id := "003000000000001"; orgValues := [("Name", JString "Peter")] |}]).

(** The code units of the texts "ab cd" and "a b c". *)
Definition wordsDefinition : list Z := [97; 98; 32; 99; 100]%Z.
Definition lettersDefinition : list Z := [97; 32; 98; 32; 99]%Z.

(** A hook that logs nothing and throws, before and after the call, and a
    hook that replaces the result of the call. *)
Definition throwingHook : HookManager.CallHook :=
  {| HookManager.pre := Some (fun options => (options, HookManager.Thrown));
     HookManager.post := Some (fun options => (options, HookManager.Thrown)) |}.

Definition replacingHook : HookManager.CallHook :=
  {| HookManager.pre := None;
     HookManager.post :=
       Some (fun options => (options, HookManager.Returned (JString "replaced"))) |}.

Definition echoTarget (args : list JsValue) : result JsValue :=
  Ok (List.hd JUndefined args).

(** * Properties *)

(** ** Record dependencies *)

(** C9: every [DatapackRecordDependency] has exactly one of the matching key
    ([VlocityMatchingRecordSourceKey]) and the lookup key
    ([VlocityLookupRecordSourceKey]) set, and which one is decided by
    [VlocityDataPackType]. *)
Theorem dependency_exactly_one_key (d : DatapackRecordDependency) :
  (VlocityDataPackType d = VlocityMatchingKeyObject
   /\ is_Some (VlocityMatchingRecordSourceKey d)
   /\ VlocityLookupRecordSourceKey d = None)
  \/ (VlocityDataPackType d = VlocityLookupMatchingKeyObject
      /\ VlocityMatchingRecordSourceKey d = None
      /\ is_Some (VlocityLookupRecordSourceKey d)).
Proof.
  destruct d as [t k | t k]; [left | right]; cbn; repeat split; eauto.
Qed.

(** ** Filters *)

Lemma matches_spec (f : option FilterPattern) (text : string) :
  matches f text = true <-> patternMet f text.
Proof.
  destruct f as [[s | test] |]; cbn.
  - rewrite andb_true_iff, negb_true_iff, String.eqb_neq, String.eqb_eq. tauto.
  - tauto.
  - split; [discriminate | tauto].
Qed.

Section FilterFacts.
Context `{Collaborators}.

Lemma evalFilterRecord_spec (flt : DatapackFilter) (r : DatapackDeploymentRecord) :
  evalFilterRecord flt r = true <-> recordMatches flt r.
Proof.
  unfold evalFilterRecord, recordMatches.
  rewrite orb_true_iff, !matches_spec. tauto.
Qed.

Lemma evalFilterGroup_spec (flt : DatapackFilter) (g : DatapackDeploymentRecordGroup) :
  evalFilterGroup flt g = true <-> groupMatches flt g.
Proof. unfold evalFilterGroup, groupMatches. apply matches_spec. Qed.

Lemma filterApplicableRecords_spec (flt : DatapackFilter)
    (rs : list DatapackDeploymentRecord) (r : DatapackDeploymentRecord) :
  In r (filterApplicableRecords flt rs) <-> In r rs /\ recordMatches flt r.
Proof.
  unfold filterApplicableRecords. rewrite filter_In, evalFilterRecord_spec. tauto.
Qed.

Lemma filter_sublist {A} (f : A -> bool) (l : list A) : sublist (List.filter f l) l.
Proof.
  induction l as [| a l IH]; cbn; [constructor |].
  destruct (f a); [by apply sublist_skip | by apply sublist_cons].
Qed.

Lemma isEmpty_true {A} (l : list A) : isEmpty l = true <-> l = [].
Proof. destruct l; cbn; split; congruence. Qed.

Lemma isEmpty_false {A} (l : list A) : isEmpty l = false <-> l <> [].
Proof. destruct l; cbn; split; congruence. Qed.

Lemma filter_nil_iff {A} (f : A -> bool) (l : list A) :
  List.filter f l = [] <-> forall a, In a l -> f a = false.
Proof.
  induction l as [| a l IH]; cbn; [tauto |].
  destruct (f a) eqn:Hf.
  - split; [discriminate |]. intros Hall. specialize (Hall a (or_introl eq_refl)). congruence.
  - rewrite IH. split.
    + intros Hall b [-> | Hb]; auto.
    + intros Hall b Hb. auto.
Qed.

(** A record array is narrowed to the records that match, in their order;
    the spec is skipped when none matches. *)
Lemma narrow_records (flt : DatapackFilter) (rs : list DatapackDeploymentRecord)
    (rest : list Param) :
  (narrow flt (PRecords rs :: rest) = SkipSpec
   /\ forall r, In r rs -> ~ recordMatches flt r)
  \/ (exists sub,
        narrow flt (PRecords rs :: rest) = Invoke (PRecords sub :: rest)
        /\ sub <> [] /\ sublist sub rs
        /\ forall r, In r sub <-> In r rs /\ recordMatches flt r).
Proof.
  cbn. destruct (isEmpty (filterApplicableRecords flt rs)) eqn:He.
  - left. split; [done |]. apply isEmpty_true in He.
    intros r Hr Hm.
    assert (Hin : In r (filterApplicableRecords flt rs))
      by (by apply filterApplicableRecords_spec).
    rewrite He in Hin. destruct Hin.
  - right. exists (filterApplicableRecords flt rs). apply isEmpty_false in He.
    split; [done |]. split; [done |]. split; [apply filter_sublist |].
    intros r. apply filterApplicableRecords_spec.
Qed.
Lemma narrow_group_spec (flt : DatapackFilter) (g : DatapackDeploymentRecordGroup) :
  narrowedFrom flt g (if evalFilterGroup flt g then g else filterApplicableGroup flt g).
Proof.
  unfold narrowedFrom. destruct (evalFilterGroup flt g) eqn:Hg.
  - split; [done |]. left. split; [by apply evalFilterGroup_spec | done].
  - split; [done |]. right. split.
    + rewrite <- evalFilterGroup_spec. congruence.
    + split; [apply filter_sublist |]. intros r. apply filterApplicableRecords_spec.
Qed.

Lemma narrowedFrom_nonempty (flt : DatapackFilter) (g g' : DatapackDeploymentRecordGroup) :
  narrowedFrom flt g g' -> (records g' <> [] <-> groupSelected flt g).
Proof.
  intros [_ [[Hm ->] | (Hm & _ & Hin)]]; unfold groupSelected.
  - split; [by left |]. intros [[_ ?] | (r & Hr & _)]; [done |]. by destruct (records g).
  - split.
    + intros Hne. right. destruct (records g') as [| r l] eqn:Hr; [done |].
      exists r. apply Hin. by left.
    + intros [[? _] | (r & Hr)]; [done |]. apply Hin in Hr. by destruct (records g').
Qed.

Lemma narrowGroups_sound (flt : DatapackFilter) (gs : list DatapackDeploymentRecordGroup)
    (g' : DatapackDeploymentRecordGroup) :
  In g' (narrowGroups flt gs) ->
  records g' <> [] /\ exists g, In g gs /\ narrowedFrom flt g g'.
Proof.
  unfold narrowGroups. rewrite filter_In, in_map_iff, negb_true_iff, isEmpty_false.
  intros [(g & <- & Hg) Hne]. split; [done |].
  exists g. split; [done | apply narrow_group_spec].
Qed.

Lemma narrowGroups_complete (flt : DatapackFilter) (gs : list DatapackDeploymentRecordGroup)
    (g : DatapackDeploymentRecordGroup) :
  In g gs -> groupSelected flt g ->
  exists g', In g' (narrowGroups flt gs) /\ narrowedFrom flt g g'.
Proof.
  intros Hg Hsel.
  exists (if evalFilterGroup flt g then g else filterApplicableGroup flt g).
  split; [| apply narrow_group_spec].
  unfold narrowGroups. rewrite filter_In, in_map_iff, negb_true_iff, isEmpty_false.
  split; [by exists g |].
  by apply (narrowedFrom_nonempty flt g), Hsel; apply narrow_group_spec.
Qed.

Lemma narrowGroups_order (flt : DatapackFilter) (gs : list DatapackDeploymentRecordGroup) :
  sublist (List.map key (narrowGroups flt gs)) (List.map key gs).
Proof.
  unfold narrowGroups.
  induction gs as [| g gs IH]; cbn; [constructor |].
  destruct (negb _).
  - cbn. replace (key (if evalFilterGroup flt g then g else filterApplicableGroup flt g))
      with (key g) by (by destruct (evalFilterGroup flt g)).
    by apply sublist_skip.
  - by apply sublist_cons.
Qed.

(** An event is narrowed to the groups that concern the spec, each handed
    over whole or reduced to its matching records; the spec is skipped when
    no group is left. *)
Lemma narrow_event (flt : DatapackFilter) (e : DatapackDeploymentEvent) (rest : list Param) :
  (narrow flt (PEvent e :: rest) = SkipSpec
   /\ forall g, In g (recordGroups e) -> ~ groupSelected flt g)
  \/ (exists groups,
        narrow flt (PEvent e :: rest)
          = Invoke (PEvent {| deployment := deployment e; recordGroups := groups |} :: rest)
        /\ groups <> []
        /\ sublist (List.map key groups) (List.map key (recordGroups e))
        /\ (forall g', In g' groups ->
              records g' <> [] /\ exists g, In g (recordGroups e) /\ narrowedFrom flt g g')
        /\ (forall g, In g (recordGroups e) -> groupSelected flt g ->
              exists g', In g' groups /\ narrowedFrom flt g g')).
Proof.
  cbn. destruct (isEmpty (narrowGroups flt (recordGroups e))) eqn:He.
  - left. split; [done |]. apply isEmpty_true in He.
    intros g Hg Hsel. destruct (narrowGroups_complete flt _ g Hg Hsel) as (g' & Hin & _).
    rewrite He in Hin. destruct Hin.
  - right. exists (narrowGroups flt (recordGroups e)). apply isEmpty_false in He.
    split; [done |]. split; [done |]. split; [apply narrowGroups_order |].
    split; [apply narrowGroups_sound | apply narrowGroups_complete].
Qed.
End FilterFacts.

(** ** The dispatcher *)

Section DispatcherFacts.
Context `{Collaborators}.

Lemma handleSpecFunctionError_invocations eventType err opts w :
  invocations (handleSpecFunctionError eventType err opts w) = invocations w.
Proof. reflexivity. Qed.

Lemma handleSpecFunctionError_triggerSetup eventType err opts w :
  triggerSetup (handleSpecFunctionError eventType err opts w) = triggerSetup w.
Proof. reflexivity. Qed.

Lemma runSpecsFrom_triggerSetup specs : forall i eventType opts w,
  triggerSetup (fst (runSpecsFrom i specs eventType opts w)) = triggerSetup w.
Proof.
  induction specs as [| [spec flt] rest IH]; intros i eventType opts w; [done |].
  spec_step spec eventType flt opts fn w; try rewrite IH; done.
Qed.

Lemma runSpecsFrom_invocations_mono specs : forall i eventType opts w inv,
  In inv (invocations w) ->
  In inv (invocations (fst (runSpecsFrom i specs eventType opts w))).
Proof.
  induction specs as [| [spec flt] rest IH]; intros i eventType opts w inv Hin; [done |].
  spec_step spec eventType flt opts fn w; try apply IH; cbn; try done;
    apply in_or_app; by left.
Qed.

(** The calls made by the dispatcher are appended to the trace, and each
    is a call of a registered spec function on the arguments narrowed by the
    filter of that spec. *)
Lemma runSpecsFrom_invocations_sound specs : forall i eventType opts w,
  exists calls,
    invocations (fst (runSpecsFrom i specs eventType opts w)) = invocations w ++ calls
    /\ forall inv, In inv calls ->
         invokedFunction inv = eventType
         /\ exists j spec flt fn,
              invokedSpec inv = i + j
              /\ specs !! j = Some (spec, flt)
              /\ specFunction spec eventType = Some fn
              /\ narrow flt (args opts) = Invoke (invokedWith inv).
Proof.
  induction specs as [| [spec flt] rest IH]; intros i eventType opts w.
  { exists []. cbn. rewrite app_nil_r. split; [done | intros ? []]. }
  assert (Hskip : forall w',
    invocations w' = invocations w ->
    exists calls,
      invocations (fst (runSpecsFrom (S i) rest eventType opts w')) = invocations w ++ calls
      /\ forall inv, In inv calls ->
           invokedFunction inv = eventType
           /\ exists j spec0 flt0 fn,
                invokedSpec inv = i + j
                /\ ((spec, flt) :: rest) !! j = Some (spec0, flt0)
                /\ specFunction spec0 eventType = Some fn
                /\ narrow flt0 (args opts) = Invoke (invokedWith inv)).
  { intros w' Hw'. destruct (IH (S i) eventType opts w') as (calls & Heq & Hcalls).
    exists calls. rewrite Heq, Hw'. split; [done |].
    intros inv Hin. destruct (Hcalls inv Hin) as (Hev & j & s & f & g & Hi & Hj & Hs & Hn).
    split; [done |]. exists (S j), s, f, g. repeat split; try done; lia. }
  assert (Hcall : forall w' p fn,
    specFunction spec eventType = Some fn ->
    narrow flt (args opts) = Invoke p ->
    invocations w' = invocations w ++
      [{| invokedSpec := i; invokedFunction := eventType; invokedWith := p |}] ->
    exists calls,
      invocations (fst (runSpecsFrom (S i) rest eventType opts w')) = invocations w ++ calls
      /\ forall inv, In inv calls ->
           invokedFunction inv = eventType
           /\ exists j spec0 flt0 fn,
                invokedSpec inv = i + j
                /\ ((spec, flt) :: rest) !! j = Some (spec0, flt0)
                /\ specFunction spec0 eventType = Some fn
                /\ narrow flt0 (args opts) = Invoke (invokedWith inv)).
  { intros w' p fn Hfn Hp Hw'.
    destruct (IH (S i) eventType opts w') as (calls & Heq & Hcalls).
    exists ({| invokedSpec := i; invokedFunction := eventType; invokedWith := p |} :: calls).
    rewrite Heq, Hw', <- app_assoc. split; [done |].
    intros inv [<- | Hin].
    - split; [done |]. exists 0, spec, flt, fn. cbn. repeat split; try done; lia.
    - destruct (Hcalls inv Hin) as (Hev & j & s & f & g & Hi & Hj & Hs & Hn).
      split; [done |]. exists (S j), s, f, g. repeat split; try done; lia. }
  spec_step spec eventType flt opts fn w.
  - refine (Hcall _ _ _ _ _ _); reflexivity.
  - exists [{| invokedSpec := i; invokedFunction := eventType; invokedWith := specParams |}].
    split; [done |]. intros inv [<- | []].
    split; [done |]. exists 0, spec, flt, fn. cbn. repeat split; try done; lia.
  - refine (Hcall _ _ _ _ _ _); reflexivity.
  - by apply Hskip.
  - exists []. cbn. rewrite app_nil_r. split; [done | intros ? []].
  - by apply Hskip.
Qed.

(** When the dispatch is not aborted, every registered spec function whose
    narrowed arguments are not empty has been called on them. *)
Lemma runSpecsFrom_invocations_complete specs : forall i eventType opts w w',
  runSpecsFrom i specs eventType opts w = (w', Ok tt) ->
  forall j spec flt fn specParams,
    specs !! j = Some (spec, flt) ->
    specFunction spec eventType = Some fn ->
    narrow flt (args opts) = Invoke specParams ->
    In {| invokedSpec := i + j; invokedFunction := eventType; invokedWith := specParams |}
       (invocations w').
Proof.
  induction specs as [| [spec flt] rest IH]; intros i eventType opts w w' Hrun j s f g p Hj Hs Hn;
    [done |].
  destruct j as [| j].
  - cbn in Hj. injection Hj as <- <-. revert Hrun. cbn [runSpecsFrom]. rewrite Hs, Hn.
    destruct (g p _) as [st [err |]] eqn:Hg.
    + destruct (ignoreErrors opts); [| discriminate]. intros Hrun.
      replace w' with (fst (runSpecsFrom (S i) rest eventType opts
        (handleSpecFunctionError eventType err opts
           (withStore st (recordInvocation
              {| invokedSpec := i; invokedFunction := eventType; invokedWith := p |} w)))))
        by (by rewrite Hrun).
      apply runSpecsFrom_invocations_mono. cbn. apply in_or_app. right.
      left. f_equal. lia.
    + intros Hrun.
      replace w' with (fst (runSpecsFrom (S i) rest eventType opts
           (withStore st (recordInvocation
              {| invokedSpec := i; invokedFunction := eventType; invokedWith := p |} w))))
        by (by rewrite Hrun).
      apply runSpecsFrom_invocations_mono. cbn. apply in_or_app. right.
      left. f_equal. lia.
  - cbn in Hj. replace (i + S j) with (S i + j) by lia.
    revert Hrun. spec_step spec eventType flt opts fn w; intros Hrun;
      try discriminate; eapply IH; eauto.
Qed.
End DispatcherFacts.

Section HookFiltering.
Context `{Collaborators}.

(** C3: the dispatcher calls the function of a registered spec on the
    arguments narrowed by the filter of that spec and on nothing else: a
    record array is reduced to the records that match (a string filter
    compares without regard to case, a regular expression is tested), the
    groups of an event are kept whole when the group matches on its datapack
    type and are otherwise reduced to their matching records, and the
    function is not called when nothing is left.  In particular a spec
    filtered on the datapack type 'Account' alone is not called for groups of
    datapack type 'Contact'. *)
Theorem spec_invoked_on_matching_subset :
  (forall specs eventType opts w,
     exists calls,
       invocations (fst (runSpecFunction specs eventType opts w)) = invocations w ++ calls
       /\ forall inv, In inv calls ->
            invokedFunction inv = eventType
            /\ exists spec flt fn,
                 specs !! invokedSpec inv = Some (spec, flt)
                 /\ specFunction spec eventType = Some fn
                 /\ narrow flt (args opts) = Invoke (invokedWith inv))
  /\ (forall specs eventType opts w w',
        runSpecFunction specs eventType opts w = (w', Ok tt) ->
        forall j spec flt fn specParams,
          specs !! j = Some (spec, flt) ->
          specFunction spec eventType = Some fn ->
          narrow flt (args opts) = Invoke specParams ->
          In {| invokedSpec := j; invokedFunction := eventType; invokedWith := specParams |}
             (invocations w'))
  /\ (forall flt rs rest,
        (narrow flt (PRecords rs :: rest) = SkipSpec
         /\ forall r, In r rs -> ~ recordMatches flt r)
        \/ (exists sub,
              narrow flt (PRecords rs :: rest) = Invoke (PRecords sub :: rest)
              /\ sub <> [] /\ sublist sub rs
              /\ forall r, In r sub <-> In r rs /\ recordMatches flt r))
  /\ (forall flt e rest,
        (narrow flt (PEvent e :: rest) = SkipSpec
         /\ forall g, In g (recordGroups e) -> ~ groupSelected flt g)
        \/ (exists groups,
              narrow flt (PEvent e :: rest)
                = Invoke (PEvent {| deployment := deployment e; recordGroups := groups |} :: rest)
              /\ groups <> []
              /\ sublist (List.map key groups) (List.map key (recordGroups e))
              /\ (forall g', In g' groups ->
                    records g' <> []
                    /\ exists g, In g (recordGroups e) /\ narrowedFrom flt g g')
              /\ (forall g, In g (recordGroups e) -> groupSelected flt g ->
                    exists g', In g' groups /\ narrowedFrom flt g g')))
  /\ (forall specs j spec flt eventType opts e rest w,
        specs !! j = Some (spec, flt) ->
        datapackFilter flt = Some (FString "Account") ->
        recordFilter flt = None ->
        args opts = PEvent e :: rest ->
        (forall g, In g (recordGroups e) ->
           groupDatapackType (key g) (records g) = "Contact"
           /\ forall r, In r (records g) -> datapackType r = "Contact") ->
        exists calls,
          invocations (fst (runSpecFunction specs eventType opts w)) = invocations w ++ calls
          /\ forall inv, In inv calls -> invokedSpec inv <> j).
Proof.
  assert (Hsound : forall specs eventType opts w,
     exists calls,
       invocations (fst (runSpecFunction specs eventType opts w)) = invocations w ++ calls
       /\ forall inv, In inv calls ->
            invokedFunction inv = eventType
            /\ exists spec flt fn,
                 specs !! invokedSpec inv = Some (spec, flt)
                 /\ specFunction spec eventType = Some fn
                 /\ narrow flt (args opts) = Invoke (invokedWith inv)).
  { intros specs eventType opts w.
    destruct (runSpecsFrom_invocations_sound specs 0 eventType opts w) as (calls & Heq & Hc).
    exists calls. split; [exact Heq |]. intros inv Hin.
    destruct (Hc inv Hin) as (Hev & j & s & f & g & Hi & Hj & Hs & Hn).
    split; [done |]. exists s, f, g. rewrite Hi. done. }
  split; [exact Hsound |].
  split.
  { intros specs eventType opts w w' Hrun j spec flt fn p Hj Hs Hn.
    by apply (runSpecsFrom_invocations_complete specs 0 eventType opts w w' Hrun
                j spec flt fn p). }
  split; [apply narrow_records |].
  split; [apply narrow_event |].
  intros specs j spec flt eventType opts e rest w Hj Hd Hr Hargs Hgroups.
  destruct (Hsound specs eventType opts w) as (calls & Heq & Hc).
  exists calls. split; [exact Heq |]. intros inv Hin Hinv.
  destruct (Hc inv Hin) as (_ & s & f & g & Hlook & _ & Hn).
  rewrite Hinv, Hj in Hlook. injection Hlook as <- <-.
  rewrite Hargs in Hn.
  destruct (narrow_event flt e rest) as [[Hskip _] | (groups & Hinv' & Hne & _ & Hfrom & _)];
    [congruence |].
  destruct groups as [| g' groups]; [done |].
  destruct (Hfrom g' (or_introl eq_refl)) as (Hrec & g0 & Hg0 & Hnar).
  apply (narrowedFrom_nonempty flt g0 g' Hnar) in Hrec.
  destruct (Hgroups g0 Hg0) as [Htype Hrecs].
  destruct Hrec as [[Hm _] | (r & Hr0 & [Hm | Hm])].
  - unfold groupMatches in Hm. rewrite Hd, Htype in Hm. by destruct Hm.
  - rewrite Hd, (Hrecs r Hr0) in Hm. by destruct Hm.
  - by rewrite Hr in Hm.
Qed.
End HookFiltering.

(** The spec filtered on 'Account' is not called for an event whose only
    group is the Contact group. *)
Lemma spec_invoked_on_matching_subset_witness :
  exists calls,
    invocations
      (fst (runSpecFunction (H := sampleCollaborators) [(quietSpec, accountFilter)]
              fn_beforeDeploy
              {| args := [PEvent {| deployment := sampleDeployment;
                                    recordGroups := [contactGroup] |}];
                 ignoreErrors := true; errorSeverity := Some error |} emptyWorld))
      = invocations emptyWorld ++ calls
    /\ forall inv, In inv calls -> invokedSpec inv <> 0.
Proof.
  destruct (spec_invoked_on_matching_subset (H := sampleCollaborators))
    as (_ & _ & _ & _ & Hparticular).
  eapply Hparticular; try reflexivity.
  intros g [<- | []]. split; [reflexivity |].
  intros r [<- | []]. reflexivity.
Defined.

(** A string filter is compared without regard to case: a spec filtered on
    'ACCOUNT' is called with the Account group and not with the Contact
    group. *)
Example string_filter_ignores_case :
  toLowerCase "Account_A2Z" = "account_a2z"
  /\ List.map invokedWith
       (invocations
          (fst (runSpecFunction (H := sampleCollaborators)
                  [(quietSpec, {| recordFilter := None;
                                  datapackFilter := Some (FString "ACCOUNT") |})]
                  fn_beforeDeploy
                  {| args := [PEvent {| deployment := sampleDeployment;
                                        recordGroups := [contactGroup; accountGroup] |}];
                     ignoreErrors := true; errorSeverity := Some error |} emptyWorld)))
     = [[PEvent {| deployment := sampleDeployment; recordGroups := [accountGroup] |}]].
Proof. split; reflexivity. Qed.

(** ** Errors of spec functions *)

Lemma setAdd_keys acc r k :
  In k (keysOf (setAdd acc r)) <-> In k (keysOf acc) \/ k = sourceKey r.
Proof.
  unfold setAdd, keysOf.
  destruct (existsb _ acc) eqn:Hex.
  - apply existsb_exists in Hex as (x & Hx & Heq). apply String.eqb_eq in Heq.
    split; [by left |]. intros [? | ->]; [done |]. rewrite <- Heq. by apply in_map.
  - rewrite map_app, in_app_iff. cbn. intuition.
Qed.

Lemma setAdd_NoDup acc r :
  List.NoDup (keysOf acc) -> List.NoDup (keysOf (setAdd acc r)).
Proof.
  intros Hnd. unfold setAdd, keysOf in *.
  destruct (existsb _ acc) eqn:Hex; [done |].
  rewrite map_app. cbn. apply NoDup_app_remove_l with (l := []). cbn.
  apply List.NoDup_rev in Hnd.
  rewrite <- (rev_involutive (List.map sourceKey acc ++ [sourceKey r])).
  apply List.NoDup_rev. rewrite rev_app_distr. cbn. constructor; [| done].
  rewrite <- in_rev. intros Hin. apply in_map_iff in Hin as (x & Hk & Hx).
  assert (existsb (fun x => String.eqb (sourceKey x) (sourceKey r)) acc = true).
  { apply existsb_exists. exists x. split; [done |]. by apply String.eqb_eq. }
  congruence.
Qed.

Lemma fold_setAdd_keys l : forall acc k,
  In k (keysOf (fold_left setAdd l acc)) <-> In k (keysOf acc) \/ In k (keysOf l).
Proof.
  induction l as [| r l IH]; intros acc k; cbn; [tauto |].
  rewrite IH, setAdd_keys. intuition.
Qed.

Lemma fold_setAdd_NoDup l : forall acc,
  List.NoDup (keysOf acc) -> List.NoDup (keysOf (fold_left setAdd l acc)).
Proof.
  induction l as [| r l IH]; intros acc Hnd; cbn; [done |].
  by apply IH, setAdd_NoDup.
Qed.

Lemma reachableFrom_keys param k :
  In k (keysOf (getAffectedRecordsOf param))
  <-> exists r, reachableFrom param r /\ sourceKey r = k.
Proof.
  destruct param as [rs | d | e | r0]; cbn.
  - rewrite fold_setAdd_keys. cbn. unfold keysOf. rewrite in_map_iff.
    split; [intros [[] | (r & ? & ?)] | intros (r & ? & ?)]; eauto.
  - split; [intros [] | intros (? & [] & _)].
  - unfold keysOf, eventRecords. rewrite in_map_iff. split.
    + intros (r & Hk & Hin). apply in_flat_map in Hin as (g & Hg & Hr). eauto.
    + intros (r & (g & Hg & Hr) & Hk). exists r. split; [done |].
      apply in_flat_map. eauto.
  - split; [intros [<- | []]; eauto | intros (r & -> & <-); by left].
Qed.

Lemma getAffectedRecords_NoDup parameters :
  List.NoDup (keysOf (getAffectedRecords parameters)).
Proof.
  unfold getAffectedRecords.
  assert (Hgen : forall acc, List.NoDup (keysOf acc) ->
    List.NoDup (keysOf (fold_left
      (fun acc param => fold_left setAdd (getAffectedRecordsOf param) acc) parameters acc))).
  { induction parameters as [| p ps IH]; intros acc Hnd; cbn; [done |].
    by apply IH, fold_setAdd_NoDup. }
  apply Hgen. constructor.
Qed.

(** The affected records are the records reachable from the arguments. *)
Lemma getAffectedRecords_keys parameters k :
  In k (keysOf (getAffectedRecords parameters))
  <-> exists r, reachable parameters r /\ sourceKey r = k.
Proof.
  unfold getAffectedRecords, reachable.
  assert (Hgen : forall acc,
    In k (keysOf (fold_left
      (fun acc param => fold_left setAdd (getAffectedRecordsOf param) acc) parameters acc))
    <-> In k (keysOf acc)
        \/ exists r, (exists param, In param parameters /\ reachableFrom param r)
                     /\ sourceKey r = k).
  { induction parameters as [| p ps IH]; intros acc; cbn.
    - split; [by left | intros [? | (r & (? & [] & _) & _)]; done].
    - rewrite IH, fold_setAdd_keys, reachableFrom_keys. split.
      + intros [[? | (r & Hr & Hk)] | (r & (q & Hq & Hr) & Hk)]; eauto 10.
      + intros [? | (r & (q & [<- | Hq] & Hr) & Hk)]; eauto 10. }
  rewrite Hgen. cbn. split; [intros [[] | ?]; done | by right].
Qed.

Lemma fold_updateRecord (f : RecordState -> RecordState) l : forall st,
  List.NoDup (keysOf l) ->
  (forall r, In (sourceKey r) (keysOf l) ->
     stateOf (fold_left (fun st r => updateRecord f r st) l st) r = f (stateOf st r))
  /\ (forall k, ~ In k (keysOf l) ->
        fold_left (fun st r => updateRecord f r st) l st !! k = st !! k).
Proof.
  induction l as [| r0 l IH]; intros st Hnd; cbn.
  - split; [intros r [] | done].
  - inversion Hnd as [| ? ? Hnotin Hnd']; subst.
    destruct (IH (updateRecord f r0 st) Hnd') as [Hin Hout].
    split.
    + intros r [Hk | Hr].
      * unfold stateOf at 1. rewrite <- Hk, Hout by done.
        unfold updateRecord. rewrite lookup_insert_eq. cbn.
        unfold stateOf. by rewrite Hk.
      * rewrite Hin by done. unfold stateOf, updateRecord.
        rewrite lookup_insert_ne; [done |]. intros Heq. apply Hnotin.
        fold (keysOf l). by rewrite Heq.
    + intros k Hk. rewrite Hout by tauto.
      unfold updateRecord. rewrite lookup_insert_ne; [done |]. tauto.
Qed.

(** What [handleSpecFunctionError] does to the records: each record
    reachable from the arguments of the event gets the error once, according
    to the severity; the other records are left as they are. *)
Lemma handleSpecFunctionError_store eventType err opts w :
  (forall r, reachable (args opts) r ->
     stateOf (store (handleSpecFunctionError eventType err opts w)) r
     = match errorSeverity opts with
       | Some warn =>
           addWarning (eventName eventType +:+ " spec error: " +:+ getErrorMessage err)
             (stateOf (store w) r)
       | Some error =>
           setFailed (eventName eventType +:+ " spec error: " +:+ getErrorMessage err)
             (stateOf (store w) r)
       | None => stateOf (store w) r
       end)
  /\ (forall k, (forall r, reachable (args opts) r -> sourceKey r <> k) ->
        store (handleSpecFunctionError eventType err opts w) !! k = store w !! k).
Proof.
  unfold handleSpecFunctionError. cbn.
  pose proof (getAffectedRecords_NoDup (args opts)) as Hnd.
  pose proof (getAffectedRecords_keys (args opts)) as Hkeys.
  assert (Hin : forall r, reachable (args opts) r ->
            In (sourceKey r) (keysOf (getAffectedRecords (args opts)))).
  { intros r Hr. apply Hkeys. eauto. }
  assert (Hout : forall k, (forall r, reachable (args opts) r -> sourceKey r <> k) ->
            ~ In k (keysOf (getAffectedRecords (args opts)))).
  { intros k Hk Hin'. apply Hkeys in Hin' as (r & Hr & Heq). by apply (Hk r). }
  destruct (errorSeverity opts) as [[|] |].
  - destruct (fold_updateRecord
                (addWarning (eventName eventType +:+ " spec error: " +:+ getErrorMessage err))
                _ (store w) Hnd) as [H1 H2].
    split; [intros r Hr; by apply H1, Hin | intros k Hk; by apply H2, Hout].
  - destruct (fold_updateRecord
                (setFailed (eventName eventType +:+ " spec error: " +:+ getErrorMessage err))
                _ (store w) Hnd) as [H1 H2].
    split; [intros r Hr; by apply H1, Hin | intros k Hk; by apply H2, Hout].
  - assert (Hid : forall l (st : Store),
              fold_left (fun (st : Store) (_ : DatapackDeploymentRecord) => st) l st = st)
      by (induction l; cbn; auto).
    rewrite Hid. done.
Qed.

(** ** Grouping *)

Lemma groupInsert_members {A} (Q : A -> Prop) (k : string) (a : A) :
  forall groups : list (string * list A),
    (forall g ms x, In (g, ms) groups -> In x ms -> Q x) -> Q a ->
    forall g ms x, In (g, ms) (groupInsert k a groups) -> In x ms -> Q x.
Proof.
  induction groups as [| [k' members] rest IH]; intros Hall Ha g ms x; cbn.
  - intros [Heq | []] Hx. injection Heq as <- <-. by destruct Hx as [<- | []].
  - destruct (String.eqb k' k).
    + intros [Heq | Hin] Hx.
      * injection Heq as <- <-. apply in_app_or in Hx as [Hx | [<- | []]]; [| done].
        apply (Hall k' members x); [by left | done].
      * apply (Hall g ms x); [by right | done].
    + intros [Heq | Hin] Hx.
      * injection Heq as <- <-. apply (Hall k' members x); [by left | done].
      * apply (IH (fun g ms x Hg => Hall g ms x (or_intror Hg)) Ha g ms x Hin Hx).
Qed.

(** The members of the groups are elements of the list that was grouped. *)
Lemma groupBy_members {A} (keyOf : A -> string) (l : list A) g ms x :
  In (g, ms) (groupBy keyOf l) -> In x ms -> In x l.
Proof.
  unfold groupBy.
  assert (Hgen : forall (l0 : list A) groups,
    (forall g ms x, In (g, ms) groups -> In x ms -> In x l) ->
    (forall a, In a l0 -> In a l) ->
    forall g ms x,
      In (g, ms) (fold_left (fun groups a => groupInsert (keyOf a) a groups) l0 groups) ->
      In x ms -> In x l).
  { induction l0 as [| a l0 IH]; intros groups Hgroups Hl0; cbn; [done |].
    apply IH.
    - apply groupInsert_members; [done |]. apply Hl0. by left.
    - intros b Hb. apply Hl0. by right. }
  apply (Hgen l []); [intros ? ? ? [] | done].
Qed.

Lemma groupInsert_nonempty {A} (k : string) (a : A) : forall groups : list (string * list A),
  (forall g ms, In (g, ms) groups -> ms <> []) ->
  groupInsert k a groups <> []
  /\ forall g ms, In (g, ms) (groupInsert k a groups) -> ms <> [].
Proof.
  induction groups as [| [k' members] rest IH]; intros Hall; cbn.
  - split; [done |]. intros g ms [Heq | []]. by injection Heq as <- <-.
  - destruct (String.eqb k' k).
    + split; [done |]. intros g ms [Heq | Hin].
      * injection Heq as <- <-. by destruct members.
      * apply (Hall g ms). by right.
    + split; [done |]. intros g ms [Heq | Hin].
      * injection Heq as <- <-. apply (Hall k' members). by left.
      * apply (proj2 (IH (fun g ms Hg => Hall g ms (or_intror Hg))) g ms Hin).
Qed.

Lemma groupBy_nonempty {A} (keyOf : A -> string) (l : list A) :
  (l <> [] -> groupBy keyOf l <> [])
  /\ forall g ms, In (g, ms) (groupBy keyOf l) -> ms <> [].
Proof.
  unfold groupBy.
  assert (Hgen : forall (l0 : list A) groups,
    (forall g ms, In (g, ms) groups -> ms <> []) ->
    (l0 <> [] \/ groups <> [] ->
     fold_left (fun groups a => groupInsert (keyOf a) a groups) l0 groups <> [])
    /\ forall g ms,
         In (g, ms) (fold_left (fun groups a => groupInsert (keyOf a) a groups) l0 groups) ->
         ms <> []).
  { induction l0 as [| a l0 IH]; intros groups Hgroups; cbn.
    - split; [by intros [? | ?] | done].
    - destruct (groupInsert_nonempty (keyOf a) a groups Hgroups) as [Hne Hms].
      destruct (IH _ Hms) as [IH1 IH2]. split; [| done]. intros _. apply IH1. by right. }
  destruct (Hgen l [] (fun _ _ H => match H with end)) as [H1 H2].
  split; [| done]. intros Hl. apply H1. by left.
Qed.

Lemma groupInsert_keys {A} (keyOf : A -> string) (k : string) (a : A) :
  forall groups : list (string * list A),
    (forall g ms x, In (g, ms) groups -> In x ms -> keyOf x = g) -> keyOf a = k ->
    forall g ms x, In (g, ms) (groupInsert k a groups) -> In x ms -> keyOf x = g.
Proof.
  induction groups as [| [k' members] rest IH]; intros Hall Ha g ms x; cbn.
  - intros [Heq | []] Hx. injection Heq as <- <-. by destruct Hx as [<- | []].
  - destruct (String.eqb k' k) eqn:Hk.
    + apply String.eqb_eq in Hk. intros [Heq | Hin] Hx.
      * injection Heq as <- <-. apply in_app_or in Hx as [Hx | [<- | []]]; [| congruence].
        apply (Hall k' members x); [by left | done].
      * apply (Hall g ms x); [by right | done].
    + intros [Heq | Hin] Hx.
      * injection Heq as <- <-. apply (Hall k' members x); [by left | done].
      * apply (IH (fun g ms x Hg => Hall g ms x (or_intror Hg)) Ha g ms x Hin Hx).
Qed.

(** The members of a group have the key of the group. *)
Lemma groupBy_keys {A} (keyOf : A -> string) (l : list A) g ms x :
  In (g, ms) (groupBy keyOf l) -> In x ms -> keyOf x = g.
Proof.
  unfold groupBy.
  assert (Hgen : forall (l0 : list A) groups,
    (forall g ms x, In (g, ms) groups -> In x ms -> keyOf x = g) ->
    forall g ms x,
      In (g, ms) (fold_left (fun groups a => groupInsert (keyOf a) a groups) l0 groups) ->
      In x ms -> keyOf x = g).
  { induction l0 as [| a l0 IH]; intros groups Hgroups; cbn; [done |].
    apply IH. by apply groupInsert_keys. }
  apply (Hgen l []). intros ? ? ? [].
Qed.

(** ** The event handlers of the deployer *)

Section HandlerFacts.
Context `{Collaborators}.
Variable specs : list (DatapackDeploymentSpec * DatapackFilter).

(** A call of [setVlocityTriggerState] that returns leaves the triggers in
    the state asked for and touches nothing else; one that throws was
    rejected by the org and changed nothing. *)
Lemma setVlocityTriggerState_outcome org call b w :
  match Deployer.setVlocityTriggerState org call b w with
  | (w', Ok _) =>
      triggerSetup w' = Some b /\ store w' = store w /\ logs w' = logs w
      /\ invocations w' = invocations w
  | (w', Throw err) =>
      w' = w
      /\ (triggerSetupRead org call = Some err \/ triggerSetupWrite org call = Some err)
  end.
Proof.
  unfold Deployer.setVlocityTriggerState.
  destruct (triggerSetupRead org call) as [err |] eqn:Hread; [by split; [| left] |].
  destruct (triggerSetup w) as [current |] eqn:Hw.
  - destruct (Bool.eqb current b) eqn:Hb.
    + apply Bool.eqb_prop in Hb. by rewrite Hw, Hb.
    + destruct (triggerSetupWrite org call) as [err |] eqn:Hwrite; [by split; [| right] | done].
  - destruct (triggerSetupWrite org call) as [err |] eqn:Hwrite; [by split; [| right] | done].
Qed.

Lemma setVlocityTriggerState_accepted org call b w :
  accepts org call -> snd (Deployer.setVlocityTriggerState org call b w) = Ok tt.
Proof.
  intros [Hread Hwrite]. unfold Deployer.setVlocityTriggerState. rewrite Hread, Hwrite.
  destruct (triggerSetup w) as [current |]; [destruct (Bool.eqb current b) |]; done.
Qed.

Lemma setVlocityTriggerState_raises org call b w w' err :
  Deployer.setVlocityTriggerState org call b w = (w', Throw err) -> orgRaises org err.
Proof.
  intros Hset. pose proof (setVlocityTriggerState_outcome org call b w) as Hout.
  rewrite Hset in Hout. destruct Hout as [_ Hcall]. left. by exists call.
Qed.

(** With [ignoreErrors] set, a dispatch on a record array or on an event
    never throws. *)
Lemma runSpecsFrom_ignoreErrors rest : forall i eventType opts w,
  ignoreErrors opts = true ->
  (forall flt err, narrow flt (args opts) <> Raise err) ->
  snd (runSpecsFrom i rest eventType opts w) = Ok tt.
Proof.
  induction rest as [| [spec flt] rest IH]; intros i eventType opts w Hign Hraise; [done |].
  cbn [runSpecsFrom].
  destruct (specFunction spec eventType) as [fn |]; [| by apply IH].
  destruct (narrow flt (args opts)) as [p | | err] eqn:Hn;
    [| by apply IH | by destruct (Hraise flt err)].
  destruct (fn p _) as [st [err |]]; [rewrite Hign |]; by apply IH.
Qed.

Lemma narrow_records_no_raise flt rs rest err :
  narrow flt (PRecords rs :: rest) <> Raise err.
Proof. cbn. by destruct (isEmpty _). Qed.

Lemma narrow_event_no_raise flt e rest err :
  narrow flt (PEvent e :: rest) <> Raise err.
Proof. cbn. by destruct (isEmpty _). Qed.

Lemma logFieldUpdateErrors_rest results : forall w,
  store (Deployer.logFieldUpdateErrors results w) = store w
  /\ triggerSetup (Deployer.logFieldUpdateErrors results w) = triggerSetup w
  /\ invocations (Deployer.logFieldUpdateErrors results w) = invocations w.
Proof.
  unfold Deployer.logFieldUpdateErrors.
  induction results as [| r results IH]; intros w; cbn; [done |].
  destruct (resultError r); [| apply IH].
  destruct (IH (logMessage LogError
    ("Field update failed for " +:+ resultRecordId r +:+ " -- " +:+ s) w)) as (? & ? & ?).
  done.
Qed.

(** The errors of the remote calls that make up the corrective batch. *)
Lemma describeFields_raises org type fieldNames err :
  Deployer.describeFields org type fieldNames = Throw err -> orgRaises org err.
Proof.
  induction fieldNames as [| name rest IH]; cbn; [discriminate |].
  destruct (describeSObjectField org type name) as [described | e] eqn:Hd.
  - destruct (Deployer.describeFields org type rest) as [fields | e]; [discriminate |].
    intros [= ->]. by apply IH.
  - intros [= ->]. right. left. by exists type, name.
Qed.

Lemma verificationBatch_raises org st records fieldNames err :
  Deployer.verificationBatch org st records fieldNames = Throw err -> orgRaises org err.
Proof.
  unfold Deployer.verificationBatch.
  induction (groupBy sobjectType _) as [| [type members] rest IH]; cbn; [discriminate |].
  destruct (Deployer.updatesForType org st fieldNames type members) as [updates | e] eqn:Hu.
  - destruct (Deployer.updatesForTypes org st fieldNames rest) as [more | e]; [discriminate |].
    intros [= ->]. by apply IH.
  - intros [= ->]. unfold Deployer.updatesForType in Hu.
    destruct (Deployer.describeFields org type fieldNames) as [fields | e] eqn:Hd.
    + destruct (isEmpty fields); [discriminate |].
      destruct (lookupById org _ _) as [orgData | e] eqn:Hl; [discriminate |].
      injection Hu as ->. right. right. left. eauto.
    + injection Hu as ->. by eapply describeFields_raises.
Qed.

(** What the verification leaves as it finds it, and the errors it throws:
    those of the org. *)
Lemma verifyDeployedFieldData_rest org records fieldNames w :
  let outcome := Deployer.verifyDeployedFieldData org records fieldNames w in
  store (fst outcome) = store w
  /\ invocations (fst outcome) = invocations w
  /\ (forall err, snd outcome = Throw err -> orgRaises org err).
Proof.
  cbn. unfold Deployer.verifyDeployedFieldData.
  destruct (Deployer.verificationBatch org (store w) records fieldNames)
    as [recordBatch | e] eqn:Hbatch.
  2: { cbn. repeat split. intros err [= ->]. by eapply verificationBatch_raises. }
  destruct (isEmpty recordBatch); [done |].
  set (w1 := logMessage LogInfo _ w).
  pose proof (setVlocityTriggerState_outcome org beforeCorrection false w1) as Hoff.
  destruct (Deployer.setVlocityTriggerState org beforeCorrection false w1)
    as [w2 [[] | e]] eqn:Hdisable.
  2: { destruct Hoff as [-> _]. cbn. repeat split. intros err [= ->].
       by eapply setVlocityTriggerState_raises. }
  destruct Hoff as (_ & Hs2 & _ & Hi2).
  destruct (execute org recordBatch) as [results thrown] eqn:Hexec.
  destruct (logFieldUpdateErrors_rest results w2) as (Hs3 & _ & Hi3).
  set (w3 := Deployer.logFieldUpdateErrors results w2) in *.
  pose proof (setVlocityTriggerState_outcome org afterCorrection true w3) as Hon.
  destruct (Deployer.setVlocityTriggerState org afterCorrection true w3)
    as [w4 [[] | e]] eqn:Henable.
  - destruct Hon as (_ & Hs4 & _ & Hi4).
    assert (Hstore : store w4 = store w) by (by rewrite Hs4, Hs3, Hs2).
    assert (Hinv : invocations w4 = invocations w) by (by rewrite Hi4, Hi3, Hi2).
    destruct thrown as [e |]; cbn; repeat split; try done.
    intros err [= ->]. right. right. right. eauto.
  - destruct Hon as [-> _]. cbn.
    split; [by rewrite Hs3, Hs2 |]. split; [by rewrite Hi3, Hi2 |].
    intros err [= ->]. by eapply setVlocityTriggerState_raises.
Qed.

(** The verification does not disable the triggers for good: when the org
    lets the call of the [finally] block (line 272) through, enabled triggers
    are enabled afterwards, whether the verification returns or throws. *)
Lemma verifyDeployedFieldData_keeps_enabled org records fieldNames w :
  accepts org afterCorrection ->
  triggerSetup w = Some true ->
  triggerSetup (fst (Deployer.verifyDeployedFieldData org records fieldNames w)) = Some true.
Proof.
  intros Haccept Hw. unfold Deployer.verifyDeployedFieldData.
  destruct (Deployer.verificationBatch org (store w) records fieldNames)
    as [recordBatch | e]; [| done].
  destruct (isEmpty recordBatch); [done |].
  set (w1 := logMessage LogInfo _ w).
  pose proof (setVlocityTriggerState_outcome org beforeCorrection false w1) as Hoff.
  destruct (Deployer.setVlocityTriggerState org beforeCorrection false w1)
    as [w2 [[] | e]]; [| by destruct Hoff as [-> _]].
  destruct (execute org recordBatch) as [results thrown].
  set (w3 := Deployer.logFieldUpdateErrors results w2).
  pose proof (setVlocityTriggerState_outcome org afterCorrection true w3) as Hon.
  pose proof (setVlocityTriggerState_accepted org afterCorrection true w3 Haccept) as Hok.
  destruct (Deployer.setVlocityTriggerState org afterCorrection true w3)
    as [w4 [[] | e]]; [| discriminate].
  destruct Hon as [Ht _]. by destruct thrown.
Qed.

(** Once the triggers are disabled for a corrective batch, the [finally]
    block of lines 271-273 enables them, whatever the batch does. *)
Lemma verifyDeployedFieldData_finally org records fieldNames w u us :
  Deployer.verificationBatch org (store w) records fieldNames = Ok (u :: us) ->
  accepts org beforeCorrection -> accepts org afterCorrection ->
  triggerSetup (fst (Deployer.verifyDeployedFieldData org records fieldNames w)) = Some true.
Proof.
  intros Hbatch Hbefore Hafter. unfold Deployer.verifyDeployedFieldData. rewrite Hbatch.
  cbn [isEmpty].
  set (w1 := logMessage LogInfo _ w).
  pose proof (setVlocityTriggerState_accepted org beforeCorrection false w1 Hbefore) as Hok1.
  destruct (Deployer.setVlocityTriggerState org beforeCorrection false w1)
    as [w2 [[] | e]]; [| discriminate].
  destruct (execute org (u :: us)) as [results thrown].
  set (w3 := Deployer.logFieldUpdateErrors results w2).
  pose proof (setVlocityTriggerState_outcome org afterCorrection true w3) as Hon.
  pose proof (setVlocityTriggerState_accepted org afterCorrection true w3 Hafter) as Hok.
  destruct (Deployer.setVlocityTriggerState org afterCorrection true w3)
    as [w4 [[] | e]]; [| discriminate].
  destruct Hon as [Ht _]. by destruct thrown.
Qed.

(** The handler of [beforeDeployRecord] throws only when the org rejects
    the call that disables the triggers. *)
Lemma beforeDeployRecord_outcome org deployment datapackRecords w :
  let outcome := Deployer.beforeDeployRecord specs org deployment datapackRecords w in
  (disableTriggers (options deployment) = false -> snd outcome = Ok tt)
  /\ (accepts org inBeforeDeployRecord -> snd outcome = Ok tt)
  /\ (disableTriggers (options deployment) = true -> snd outcome = Ok tt ->
      triggerSetup (fst outcome) = Some false)
  /\ (disableTriggers (options deployment) = false ->
      triggerSetup (fst outcome) = triggerSetup w)
  /\ (forall err, snd outcome = Throw err ->
        disableTriggers (options deployment) = true
        /\ fst outcome = w
        /\ (triggerSetupRead org inBeforeDeployRecord = Some err
            \/ triggerSetupWrite org inBeforeDeployRecord = Some err)).
Proof.
  cbn. unfold Deployer.beforeDeployRecord.
  assert (Hrun : forall w1,
    snd (if isCancelled deployment then (w1, Ok tt)
         else runSpecFunction specs fn_beforeDeployRecord
                {| args := [PRecords datapackRecords]; ignoreErrors := true;
                   errorSeverity := Some error |} w1) = Ok tt
    /\ triggerSetup
         (fst (if isCancelled deployment then (w1, Ok tt)
               else runSpecFunction specs fn_beforeDeployRecord
                      {| args := [PRecords datapackRecords]; ignoreErrors := true;
                         errorSeverity := Some error |} w1)) = triggerSetup w1).
  { intros w1. destruct (isCancelled deployment); [done |]. split.
    - apply runSpecsFrom_ignoreErrors; [done |]. intros. apply narrow_records_no_raise.
    - unfold runSpecFunction. apply runSpecsFrom_triggerSetup. }
  destruct (disableTriggers (options deployment)).
  - pose proof (setVlocityTriggerState_outcome org inBeforeDeployRecord false w) as Hoff.
    pose proof (setVlocityTriggerState_accepted org inBeforeDeployRecord false w) as Hacc.
    destruct (Deployer.setVlocityTriggerState org inBeforeDeployRecord false w)
      as [w1 [[] | e]].
    + destruct (Hrun w1) as [Hok Ht]. destruct Hoff as [Hoff _].
      split; [done |]. split; [done |].
      split; [intros _ _; by rewrite Ht |]. split; [done |].
      intros err Herr. congruence.
    + destruct Hoff as [-> Hcall]. cbn. split; [done |].
      split; [intros Ha; by specialize (Hacc Ha) |].
      split; [done |]. split; [done |]. intros err [= ->]. done.
  - destruct (Hrun w) as [Hok Ht].
    split; [done |]. split; [done |]. split; [done |]. split; [done |].
    intros err Herr. congruence.
Qed.

(** The handler of [afterDeployRecord] leaves the triggers enabled, whether
    it returns or throws, when the org lets the calls that enable them
    through. *)
Lemma afterDeployRecord_triggerSetup org deployment datapackRecords w :
  disableTriggers (options deployment) = true ->
  accepts org inAfterDeployRecord -> accepts org afterCorrection ->
  triggerSetup (fst (Deployer.afterDeployRecord specs org deployment datapackRecords w))
  = Some true.
Proof.
  intros Hd Hcall Hfinally. unfold Deployer.afterDeployRecord. rewrite Hd.
  pose proof (setVlocityTriggerState_outcome org inAfterDeployRecord true w) as Hon.
  pose proof (setVlocityTriggerState_accepted org inAfterDeployRecord true w Hcall) as Hok.
  destruct (Deployer.setVlocityTriggerState org inAfterDeployRecord true w)
    as [w1 [[] | e]]; [| discriminate].
  destruct Hon as [Ht _].
  destruct (isCancelled deployment); [done |].
  pose proof (verifyDeployedFieldData_keeps_enabled org datapackRecords
                Deployer.criticalFields w1 Hfinally Ht) as Hv.
  destruct (Deployer.verifyDeployedFieldData _ _ _ _) as [w2 [[] | err]]; cbn in Hv; [| done].
  unfold runSpecFunction. by rewrite runSpecsFrom_triggerSetup.
Qed.

(** The handler of [afterDeployRecord] throws only errors of the org. *)
Lemma afterDeployRecord_raises org deployment datapackRecords w err :
  snd (Deployer.afterDeployRecord specs org deployment datapackRecords w) = Throw err ->
  orgRaises org err.
Proof.
  unfold Deployer.afterDeployRecord.
  assert (Hrest : forall w1,
    snd (if isCancelled deployment then (w1, Ok tt)
         else match Deployer.verifyDeployedFieldData org datapackRecords
                      Deployer.criticalFields w1 with
              | (w2, Throw e) => (w2, Throw e)
              | (w2, Ok _) =>
                  runSpecFunction specs fn_afterDeployRecord
                    {| args := [PRecords datapackRecords]; ignoreErrors := true;
                       errorSeverity := Some warn |} w2
              end) = Throw err -> orgRaises org err).
  { intros w1. destruct (isCancelled deployment); [discriminate |].
    destruct (verifyDeployedFieldData_rest org datapackRecords Deployer.criticalFields w1)
      as (_ & _ & Hraises).
    destruct (Deployer.verifyDeployedFieldData _ _ _ _) as [w2 [[] | e]]; cbn in Hraises.
    - unfold runSpecFunction. rewrite runSpecsFrom_ignoreErrors; [discriminate | done |].
      intros. apply narrow_records_no_raise.
    - cbn. intros [= ->]. by apply Hraises. }
  destruct (disableTriggers (options deployment)); [| apply Hrest].
  destruct (Deployer.setVlocityTriggerState org inAfterDeployRecord true w)
    as [w1 [[] | e]] eqn:Hset; [apply Hrest |].
  cbn. intros [= ->]. by eapply setVlocityTriggerState_raises.
Qed.

Lemma groupHandlers_outcome deployment datapackGroups w :
  (snd (Deployer.beforeDeployRecordGroup specs deployment datapackGroups w) = Ok tt
   /\ triggerSetup (fst (Deployer.beforeDeployRecordGroup specs deployment datapackGroups w))
      = triggerSetup w)
  /\ (snd (Deployer.afterDeployRecordGroup specs deployment datapackGroups w) = Ok tt
      /\ triggerSetup (fst (Deployer.afterDeployRecordGroup specs deployment datapackGroups w))
         = triggerSetup w).
Proof.
  unfold Deployer.beforeDeployRecordGroup, Deployer.afterDeployRecordGroup.
  destruct (isCancelled deployment); [done |].
  unfold runSpecFunction. rewrite !runSpecsFrom_triggerSetup.
  repeat split; try done;
    (apply runSpecsFrom_ignoreErrors; [done |]; intros; apply narrow_event_no_raise).
Qed.
End HandlerFacts.

Section Cancellation.
Context `{Collaborators}.
Variable specs : list (DatapackDeploymentSpec * DatapackFilter).

Lemma handle_cancelled d e w :
  Deployer.cancelled e = true ->
  invocations (fst (Deployer.handle specs d e w)) = invocations w
  /\ (accepts (Deployer.org e) inBeforeDeployRecord ->
      accepts (Deployer.org e) inAfterDeployRecord ->
      snd (Deployer.handle specs d e w) = Ok tt).
Proof.
  intros Hc. unfold Deployer.handle.
  set (w1 := withStore (Deployer.progress e (store w)) w).
  destruct (Deployer.event e); cbn.
  - unfold Deployer.beforeDeployRecordGroup. cbn. by rewrite Hc.
  - unfold Deployer.beforeDeployRecord. cbn. rewrite Hc.
    destruct (disableTriggers (options d)); [| done].
    pose proof (setVlocityTriggerState_outcome (Deployer.org e) inBeforeDeployRecord false w1)
      as Hout.
    pose proof (setVlocityTriggerState_accepted (Deployer.org e) inBeforeDeployRecord false w1)
      as Hacc.
    destruct (Deployer.setVlocityTriggerState _ _ _ _) as [w2 [[] | err]].
    + destruct Hout as (_ & _ & _ & Hi). cbn. by rewrite Hi.
    + destruct Hout as [-> _]. split; [done |]. intros Ha _. by specialize (Hacc Ha).
  - unfold Deployer.afterDeployRecord. cbn. rewrite Hc.
    destruct (disableTriggers (options d)); [| done].
    pose proof (setVlocityTriggerState_outcome (Deployer.org e) inAfterDeployRecord true w1)
      as Hout.
    pose proof (setVlocityTriggerState_accepted (Deployer.org e) inAfterDeployRecord true w1)
      as Hacc.
    destruct (Deployer.setVlocityTriggerState _ _ _ _) as [w2 [[] | err]].
    + destruct Hout as (_ & _ & _ & Hi). cbn. by rewrite Hi.
    + destruct Hout as [-> _]. split; [done |]. intros _ Ha. by specialize (Hacc Ha).
  - unfold Deployer.afterDeployRecordGroup. cbn. by rewrite Hc.
Qed.

Lemma emitAll_cancelled d emissions : forall w,
  (forall e, In e emissions -> Deployer.cancelled e = true) ->
  invocations (fst (Deployer.emitAll specs d emissions w)) = invocations w
  /\ ((forall e, In e emissions ->
         accepts (Deployer.org e) inBeforeDeployRecord
         /\ accepts (Deployer.org e) inAfterDeployRecord) ->
      snd (Deployer.emitAll specs d emissions w) = Ok tt).
Proof.
  induction emissions as [| e emissions IH]; intros w Hall; [done |].
  cbn [Deployer.emitAll].
  destruct (handle_cancelled d e w (Hall e (or_introl eq_refl))) as [Hinv Hok].
  destruct (Deployer.handle specs d e w) as [w1 [[] | err]]; cbn in Hinv, Hok.
  - rewrite <- Hinv.
    destruct (IH w1) as [Hi Ho]; [intros e' He'; apply Hall; by right |].
    split; [exact Hi |]. intros Hacc. apply Ho. intros e0 He0. apply Hacc. by right.
  - cbn. split; [done |]. intros Hacc.
    destruct (Hacc e (or_introl eq_refl)) as [Hb Ha]. by specialize (Hok Hb Ha).
Qed.

(** C10: once the deployment is cancelled, the handlers of the group and
    record events call no spec function and change neither a record nor the
    log, while the handlers of the record events still switch the triggers
    off and on when [disableTriggers] is set: what such a handler does is the
    call of [setVlocityTriggerState] and nothing else, so that it returns
    with the triggers disabled, respectively enabled, when the org lets the
    call through, and throws the error of the org, with nothing changed,
    when the call is rejected. *)
Theorem cancelled_deployment_runs_no_hooks
    (org : Org) (deployment : DatapackDeployment)
    (datapackRecords : list DatapackDeploymentRecord)
    (datapackGroups : list DatapackDeploymentRecordGroup) (w : World) :
  isCancelled deployment = true ->
  (Deployer.beforeDeployRecordGroup specs deployment datapackGroups w = (w, Ok tt)
   /\ Deployer.afterDeployRecordGroup specs deployment datapackGroups w = (w, Ok tt))
  /\ (let outcome := Deployer.beforeDeployRecord specs org deployment datapackRecords w in
      invocations (fst outcome) = invocations w
      /\ store (fst outcome) = store w /\ logs (fst outcome) = logs w
      /\ outcome = (if disableTriggers (options deployment)
                    then Deployer.setVlocityTriggerState org inBeforeDeployRecord false w
                    else (w, Ok tt))
      /\ (accepts org inBeforeDeployRecord ->
          snd outcome = Ok tt
          /\ triggerSetup (fst outcome)
             = if disableTriggers (options deployment) then Some false else triggerSetup w)
      /\ (forall err, snd outcome = Throw err ->
            fst outcome = w
            /\ (triggerSetupRead org inBeforeDeployRecord = Some err
                \/ triggerSetupWrite org inBeforeDeployRecord = Some err)))
  /\ (let outcome := Deployer.afterDeployRecord specs org deployment datapackRecords w in
      invocations (fst outcome) = invocations w
      /\ store (fst outcome) = store w /\ logs (fst outcome) = logs w
      /\ outcome = (if disableTriggers (options deployment)
                    then Deployer.setVlocityTriggerState org inAfterDeployRecord true w
                    else (w, Ok tt))
      /\ (accepts org inAfterDeployRecord ->
          snd outcome = Ok tt
          /\ triggerSetup (fst outcome)
             = if disableTriggers (options deployment) then Some true else triggerSetup w)
      /\ (forall err, snd outcome = Throw err ->
            fst outcome = w
            /\ (triggerSetupRead org inAfterDeployRecord = Some err
                \/ triggerSetupWrite org inAfterDeployRecord = Some err)))
  /\ (forall d emissions,
        (forall e, In e emissions -> Deployer.cancelled e = true) ->
        invocations (fst (Deployer.emitAll specs d emissions w)) = invocations w
        /\ ((forall e, In e emissions ->
               accepts (Deployer.org e) inBeforeDeployRecord
               /\ accepts (Deployer.org e) inAfterDeployRecord) ->
            snd (Deployer.emitAll specs d emissions w) = Ok tt)).
Proof.
  intros Hc.
  assert (Htoggle : forall call b,
    let outcome := if disableTriggers (options deployment)
                   then Deployer.setVlocityTriggerState org call b w else (w, Ok tt) in
    invocations (fst outcome) = invocations w
    /\ store (fst outcome) = store w /\ logs (fst outcome) = logs w
    /\ (accepts org call ->
        snd outcome = Ok tt
        /\ triggerSetup (fst outcome)
           = if disableTriggers (options deployment) then Some b else triggerSetup w)
    /\ (forall err, snd outcome = Throw err ->
          fst outcome = w
          /\ (triggerSetupRead org call = Some err \/ triggerSetupWrite org call = Some err))).
  { intros call b. cbn. destruct (disableTriggers (options deployment)).
    2: { cbn. split; [done |]. split; [done |]. split; [done |]. split; [done |].
         discriminate. }
    pose proof (setVlocityTriggerState_outcome org call b w) as Hout.
    pose proof (setVlocityTriggerState_accepted org call b w) as Hacc.
    destruct (Deployer.setVlocityTriggerState org call b w) as [w1 [[] | e]].
    - destruct Hout as (Ht & Hs & Hl & Hi). cbn.
      split; [done |]. split; [done |]. split; [done |]. split; [done |]. discriminate.
    - destruct Hout as [-> Hcall]. cbn.
      split; [done |]. split; [done |]. split; [done |].
      split; [intros Ha; by specialize (Hacc Ha) |].
      by intros err [= ->]. }
  split.
  { unfold Deployer.beforeDeployRecordGroup, Deployer.afterDeployRecordGroup.
    by rewrite Hc. }
  assert (Hbefore : Deployer.beforeDeployRecord specs org deployment datapackRecords w
                    = if disableTriggers (options deployment)
                      then Deployer.setVlocityTriggerState org inBeforeDeployRecord false w
                      else (w, Ok tt)).
  { unfold Deployer.beforeDeployRecord. rewrite Hc.
    destruct (disableTriggers (options deployment)); [| done].
    by destruct (Deployer.setVlocityTriggerState org inBeforeDeployRecord false w)
      as [w1 [[] | e]]. }
  assert (Hafter : Deployer.afterDeployRecord specs org deployment datapackRecords w
                   = if disableTriggers (options deployment)
                     then Deployer.setVlocityTriggerState org inAfterDeployRecord true w
                     else (w, Ok tt)).
  { unfold Deployer.afterDeployRecord. rewrite Hc.
    destruct (disableTriggers (options deployment)); [| done].
    by destruct (Deployer.setVlocityTriggerState org inAfterDeployRecord true w)
      as [w1 [[] | e]]. }
  split.
  { cbn zeta. rewrite Hbefore.
    destruct (Htoggle inBeforeDeployRecord false) as (? & ? & ? & ? & ?). done. }
  split.
  { cbn zeta. rewrite Hafter.
    destruct (Htoggle inAfterDeployRecord true) as (? & ? & ? & ? & ?). done. }
  intros d emissions. apply emitAll_cancelled.
Qed.
End Cancellation.

(** On a cancelled deployment the handler of [beforeDeployRecord] calls no
    spec function, not even one registered for every record, and switches
    the triggers off. *)
Lemma cancelled_deployment_runs_no_hooks_witness :
  invocations
    (fst (Deployer.beforeDeployRecord (H := sampleCollaborators) [(quietSpec, anyFilter)]
            quietOrg
            {| options := options sampleDeployment; isCancelled := true;
               deploymentRecords := deploymentRecords sampleDeployment |}
            [contact1] emptyWorld))
  = []
  /\ triggerSetup
       (fst (Deployer.beforeDeployRecord (H := sampleCollaborators) [(quietSpec, anyFilter)]
               quietOrg
               {| options := options sampleDeployment; isCancelled := true;
                  deploymentRecords := deploymentRecords sampleDeployment |}
               [contact1] emptyWorld))
     = Some false.
Proof.
  destruct (cancelled_deployment_runs_no_hooks (H := sampleCollaborators)
              [(quietSpec, anyFilter)] quietOrg
              {| options := options sampleDeployment; isCancelled := true;
                 deploymentRecords := deploymentRecords sampleDeployment |}
              [contact1] [] emptyWorld eq_refl) as (_ & Hbefore & _).
  destruct Hbefore as (Hinv & _ & _ & _ & Haccepted & _).
  split; [exact Hinv |]. apply Haccepted. by split.
Defined.

(** ** The trigger state over a run *)

Section Triggers.
Context `{Collaborators}.
Variable specs : list (DatapackDeploymentSpec * DatapackFilter).

(** The handlers of the group events return and leave the trigger state as
    it is. *)
Lemma handle_groupEvent d e w :
  (exists groups, Deployer.event e = Deployer.emit_beforeDeployGroup groups
                  \/ Deployer.event e = Deployer.emit_afterDeployGroup groups) ->
  snd (Deployer.handle specs d e w) = Ok tt
  /\ triggerSetup (fst (Deployer.handle specs d e w)) = triggerSetup w.
Proof.
  intros (groups & [Hevent | Hevent]); unfold Deployer.handle; rewrite Hevent.
  - apply (groupHandlers_outcome specs _ groups
             (withStore (Deployer.progress e (store w)) w)).
  - apply (groupHandlers_outcome specs _ groups
             (withStore (Deployer.progress e (store w)) w)).
Qed.

Lemma handle_afterDeployRecord d e w records :
  Deployer.event e = Deployer.emit_afterDeployRecord records ->
  disableTriggers (options d) = true ->
  accepts (Deployer.org e) inAfterDeployRecord ->
  accepts (Deployer.org e) afterCorrection ->
  triggerSetup (fst (Deployer.handle specs d e w)) = Some true.
Proof.
  intros Hevent Hd Hcall Hfinally. unfold Deployer.handle. rewrite Hevent.
  by apply afterDeployRecord_triggerSetup.
Qed.

(** A wave ends with the triggers enabled, whether it returns or throws,
    when the org lets the calls that enable them through. *)
Lemma deployWave_triggerSetup d wave w :
  disableTriggers (options d) = true ->
  accepts (Deployer.orgAfter wave) inAfterDeployRecord ->
  accepts (Deployer.orgAfter wave) afterCorrection ->
  triggerSetup (fst (Deployer.deployWave specs d wave w)) = Some true.
Proof.
  intros Hd Hcall Hfinally. unfold Deployer.deployWave.
  destruct (handle_groupEvent d
              (Deployer.emittedBefore wave
                 (Deployer.emit_beforeDeployGroup (Deployer.waveGroups wave))) w) as [Hok _];
    [eexists; by left |].
  destruct (Deployer.handle specs d (Deployer.emittedBefore wave
              (Deployer.emit_beforeDeployGroup (Deployer.waveGroups wave))) w)
    as [w1 [[] | err]]; [| discriminate].
  set (tried := match Deployer.handle specs d _ w1 with
                | (w2, Throw err) => (w2, Some err)
                | (w2, Ok _) => _
                end).
  destruct tried as [w2 thrown].
  pose proof (handle_afterDeployRecord d
                (Deployer.emittedAfter wave
                   (Deployer.emit_afterDeployRecord (Deployer.waveRecords wave)))
                w2 (Deployer.waveRecords wave) eq_refl Hd Hcall Hfinally) as Hafter.
  destruct (Deployer.handle specs d (Deployer.emittedAfter wave
              (Deployer.emit_afterDeployRecord (Deployer.waveRecords wave))) w2)
    as [w3 [[] | err]]; [| done].
  destruct thrown as [err |]; [done |].
  destruct (handle_groupEvent d
              (Deployer.emittedAfter wave
                 (Deployer.emit_afterDeployGroup (Deployer.waveGroups wave))) w3) as [_ Ht];
    [eexists; by right |].
  by rewrite Ht.
Qed.

Lemma start_triggerSetup d :
  disableTriggers (options d) = true ->
  forall waves w,
    (forall wave, In wave waves ->
       accepts (Deployer.orgAfter wave) inAfterDeployRecord
       /\ accepts (Deployer.orgAfter wave) afterCorrection) ->
    triggerSetup (fst (Deployer.start specs d waves w))
    = match waves with
      | [] => triggerSetup w
      | _ => Some true
      end.
Proof.
  intros Hd. induction waves as [| wave rest IH]; intros w Hall; [done |].
  cbn [Deployer.start].
  destruct (Hall wave (or_introl eq_refl)) as [Hcall Hfinally].
  pose proof (deployWave_triggerSetup d wave w Hd Hcall Hfinally) as Hwave.
  destruct (Deployer.deployWave specs d wave w) as [w1 [[] | err]]; [| done].
  destruct (Deployer.cancelledAfter wave); [done |].
  rewrite IH; [| intros wave' Hw'; apply Hall; by right].
  by destruct rest.
Qed.

(** C1, as the code has it: with [disableTriggers], the handler of
    [beforeDeployRecord] disables the triggers and the handler of
    [afterDeployRecord] enables them in its first statement; the corrective
    update of the verification enables them again in a [finally] block.
    These calls are remote calls that the org can reject, and nothing
    catches or repeats a rejected one.  So, provided the org lets the calls
    that enable the triggers through, the handler of [afterDeployRecord]
    leaves the triggers enabled whether it returns or throws, and a run, in
    which that event is emitted in the cleanup block of every wave, ends with
    the triggers enabled whether it returns or throws. *)
Theorem triggers_enabled_after_afterDeployRecord
    (d : DatapackDeployment) (waves : list Deployer.Wave) (w : World) :
  disableTriggers (options d) = true ->
  (forall org records w0,
     accepts org inBeforeDeployRecord ->
     snd (Deployer.beforeDeployRecord specs org d records w0) = Ok tt
     /\ triggerSetup (fst (Deployer.beforeDeployRecord specs org d records w0)) = Some false)
  /\ (forall org records w0,
        accepts org inAfterDeployRecord -> accepts org afterCorrection ->
        triggerSetup (fst (Deployer.afterDeployRecord specs org d records w0)) = Some true)
  /\ (forall org records fieldNames w0 update updates,
        Deployer.verificationBatch org (store w0) records fieldNames = Ok (update :: updates) ->
        accepts org beforeCorrection -> accepts org afterCorrection ->
        triggerSetup (fst (Deployer.verifyDeployedFieldData org records fieldNames w0))
        = Some true)
  /\ ((forall wave, In wave waves ->
         accepts (Deployer.orgAfter wave) inAfterDeployRecord
         /\ accepts (Deployer.orgAfter wave) afterCorrection) ->
      waves <> [] ->
      triggerSetup (fst (Deployer.start specs d waves w)) = Some true).
Proof.
  intros Hd. split; [| split; [| split]].
  - intros org records w0 Hcall.
    destruct (beforeDeployRecord_outcome specs org d records w0)
      as (_ & Hok & Ht & _).
    split; [by apply Hok | apply Ht; [done | by apply Hok]].
  - intros org records w0 Hcall Hfinally. by apply afterDeployRecord_triggerSetup.
  - intros org records fieldNames w0 update updates Hbatch Hbefore Hafter.
    by eapply verifyDeployedFieldData_finally.
  - intros Hall Hwaves. rewrite start_triggerSetup; [| done | done]. by destruct waves.
Qed.
End Triggers.

(** A run whose batch fails with a fatal error throws, and ends with the
    triggers enabled. *)
Lemma triggers_enabled_after_afterDeployRecord_witness :
  snd (Deployer.start (H := sampleCollaborators) [(failingSpec, anyFilter)]
         sampleDeployment [contactWave quietOrg (Some (ErrorMsg "socket hang up"))] emptyWorld)
  = Throw (ErrorMsg "socket hang up")
  /\ triggerSetup
       (fst (Deployer.start (H := sampleCollaborators) [(failingSpec, anyFilter)]
               sampleDeployment [contactWave quietOrg (Some (ErrorMsg "socket hang up"))]
               emptyWorld))
     = Some true.
Proof.
  split; [reflexivity |].
  apply (triggers_enabled_after_afterDeployRecord (H := sampleCollaborators)
           [(failingSpec, anyFilter)] sampleDeployment
           [contactWave quietOrg (Some (ErrorMsg "socket hang up"))] emptyWorld eq_refl).
  - intros wave [<- | []]. by repeat split.
  - discriminate.
Defined.

(** C1 does not hold as stated: the call that enables the triggers is
    itself a remote call.  When the org rejects it in the handler of
    [afterDeployRecord], the handler throws, the run throws, and the
    triggers stay disabled. *)
Lemma triggers_left_disabled_when_enabling_is_rejected :
  disableTriggers (options sampleDeployment) = true
  /\ snd (Deployer.start (H := sampleCollaborators) [] sampleDeployment
            [contactWave lockedOrg None] emptyWorld)
     = Throw (ErrorMsg "UNABLE_TO_LOCK_ROW")
  /\ triggerSetup
       (fst (Deployer.start (H := sampleCollaborators) [] sampleDeployment
               [contactWave lockedOrg None] emptyWorld))
     = Some false
  /\ triggerSetup
       (fst (Deployer.afterDeployRecord (H := sampleCollaborators) [] lockedOrg
               sampleDeployment [contact1] (withTriggerSetup (Some false) emptyWorld)))
     = Some false.
Proof. repeat split. Qed.

(** ** Verification of the deployed field data *)

(** The record found under an id is the last one with that id. *)
Lemma deployedDataGet_last st before r after id :
  recordId (stateOf st r) = Some id ->
  (forall r', In r' after -> recordId (stateOf st r') <> Some id) ->
  Deployer.deployedDataGet st (before ++ r :: after) id = Some r.
Proof.
  intros Hr Hafter. unfold Deployer.deployedDataGet.
  rewrite rev_app_distr. cbn [rev]. rewrite <- app_assoc. cbn [app].
  assert (Hnone : forall l rest,
    (forall r', In r' l -> recordId (stateOf st r') <> Some id) ->
    List.find (fun r0 => bool_decide (recordId (stateOf st r0) = Some id)) (l ++ rest)
    = List.find (fun r0 => bool_decide (recordId (stateOf st r0) = Some id)) rest).
  { induction l as [| a l IH]; intros rest Hl; cbn; [done |].
    rewrite bool_decide_eq_false_2; [| apply Hl; by left].
    apply IH. intros r' Hr'. apply Hl. by right. }
  rewrite Hnone.
  - cbn. by rewrite bool_decide_eq_true_2.
  - intros r' Hr'. apply Hafter. by apply in_rev.
Qed.

Lemma deployedDataGet_none st members id :
  (forall r, In r members -> recordId (stateOf st r) <> Some id) ->
  Deployer.deployedDataGet st members id = None.
Proof.
  intros Hnone. unfold Deployer.deployedDataGet.
  destruct (List.find _ (rev members)) as [r |] eqn:Hfind; [| done].
  apply find_some in Hfind as [Hin Hid]. apply bool_decide_eq_true in Hid.
  destruct (Hnone r); [by apply in_rev | done].
Qed.

Lemma deployedDataGet_cases st members id :
  (exists before r after,
     members = before ++ r :: after
     /\ recordId (stateOf st r) = Some id
     /\ (forall r', In r' after -> recordId (stateOf st r') <> Some id))
  \/ (forall r, In r members -> recordId (stateOf st r) <> Some id).
Proof.
  induction members as [| a members IH]; [by right |].
  destruct IH as [(before & r & after & -> & Hr & Hafter) | Hnone].
  - left. by exists (a :: before), r, after.
  - destruct (decide (recordId (stateOf st a) = Some id)) as [Ha | Ha].
    + left. by exists [], a, members.
    + right. intros r [<- | Hr]; [done | by apply Hnone].
Qed.

(** The value the verification expects is the value deployed. *)
Lemma deployedValueIs_spec st members id name v :
  deployedValueIs st members id name v
  <-> v = match Deployer.deployedDataGet st members id with
          | Some r => fieldValue name (values (stateOf st r))
          | None => JUndefined
          end.
Proof.
  split.
  - intros [(before & r & after & -> & Hr & Hafter & ->) | [Hnone ->]].
    + by rewrite deployedDataGet_last.
    + by rewrite deployedDataGet_none.
  - intros ->. destruct (deployedDataGet_cases st members id)
      as [(before & r & after & -> & Hr & Hafter) | Hnone].
    + rewrite deployedDataGet_last by done. left. by exists before, r, after.
    + rewrite deployedDataGet_none by done. by right.
Qed.

(** The keys of the map of the deployed data. *)
Lemma mapKeys_spec (ids : list (option string)) : forall seen,
  List.NoDup seen ->
  List.NoDup (Deployer.mapKeys ids seen)
  /\ forall id, In id (Deployer.mapKeys ids seen) <-> In id seen \/ In id ids.
Proof.
  induction ids as [| id ids IH]; intros seen Hseen; cbn.
  - split; [done |]. intros id. split; [by left | by intros [? | []]].
  - case_bool_decide as Hin.
    + destruct (IH seen Hseen) as [Hnodup Hiff]. split; [done |].
      intros x. rewrite Hiff. apply list_elem_of_In in Hin.
      split; [intros [? | ?]; auto | intros [? | [<- | ?]]; auto].
    + assert (Hseen' : List.NoDup (seen ++ [id])).
      { apply NoDup_ListNoDup, NoDup_app. split; [by apply NoDup_ListNoDup |].
        split; [| apply NoDup_singleton].
        intros x Hx Hx'. apply list_elem_of_singleton in Hx'. by subst x. }
      destruct (IH (seen ++ [id]) Hseen') as [Hnodup Hiff]. split; [done |].
      intros x. rewrite Hiff, in_app_iff. cbn.
      split; [intros [[? | [<- | []]] | ?]; auto | intros [? | [<- | ?]]; auto].
Qed.

Lemma mapKeys_deployedIds st members :
  deployedIds st members
    (Deployer.mapKeys (List.map (fun r => recordId (stateOf st r)) members) []).
Proof.
  destruct (mapKeys_spec (List.map (fun r => recordId (stateOf st r)) members) [])
    as [Hnodup Hiff]; [constructor |].
  split; [done |]. intros id. rewrite Hiff, in_map_iff.
  split.
  - intros [[] | (r & Hr & Hin)]. by exists r.
  - intros (r & Hin & Hr). right. by exists r.
Qed.

(** The fields described. *)
Lemma describeFields_spec org type fieldNames fields :
  Deployer.describeFields org type fieldNames = Ok fields
  <-> describedFields org type fieldNames fields.
Proof.
  unfold describedFields. revert fields.
  induction fieldNames as [| name rest IH]; intros fields; cbn.
  - split.
    + intros [= <-]. exists []. split; [constructor | done].
    + intros (described & Hall & ->). by inversion Hall.
  - split.
    + destruct (describeSObjectField org type name) as [d | e] eqn:Hd; [| discriminate].
      destruct (Deployer.describeFields org type rest) as [more | e]; [| discriminate].
      intros [= <-]. destruct (proj1 (IH more) eq_refl) as (described & Hall & ->).
      exists (d :: described). split; [by constructor |]. by destruct d.
    + intros (described & Hall & ->). inversion Hall as [| ? d ? ds Hd Hrest]; subst.
      rewrite Hd. rewrite (proj2 (IH (omap id ds))); [by destruct d |]. by exists ds.
Qed.

Lemma mismatchedFieldData_spec st records fields result n v :
  In (n, v) (Deployer.mismatchedFieldData st records fields result)
  <-> (exists field, In field fields /\ fieldName field = n)
      /\ deployedValueIs st records (Id result) n v
      /\ fieldValue n (orgValues result) <> v.
Proof.
  unfold Deployer.mismatchedFieldData, strictNotEqual.
  rewrite filter_In, in_map_iff, negb_true_iff, bool_decide_eq_false, deployedValueIs_spec.
  cbn. split.
  - intros [(field & Heq & Hin) Hne]. injection Heq as <- <-. split; [by exists field | done].
  - intros ((field & Hin & <-) & -> & Hne). split; [by exists field | done].
Qed.

(** The updates made for one type. *)
Lemma updatesForType_spec org st fieldNames type members updates :
  Deployer.updatesForType org st fieldNames type members = Ok updates ->
  exists fields,
    describedFields org type fieldNames fields
    /\ (fields = [] -> updates = [])
    /\ (fields <> [] ->
        exists orgData,
          lookupById org
            (Deployer.mapKeys (List.map (fun r => recordId (stateOf st r)) members) [])
            (List.map fieldName fields) = Ok orgData
          /\ forall t update,
               In (t, update) updates
               <-> exists result,
                     t = type /\ In result orgData
                     /\ Deployer.mismatchedFieldData st members fields result <> []
                     /\ update = {| updateId := Id result;
                                    updateFields :=
                                      Deployer.mismatchedFieldData st members fields result |}).
Proof.
  unfold Deployer.updatesForType.
  destruct (Deployer.describeFields org type fieldNames) as [fields | e] eqn:Hd;
    [| discriminate].
  apply describeFields_spec in Hd. intros Hupdates. exists fields. split; [done |].
  destruct (isEmpty fields) eqn:He.
  { apply isEmpty_true in He. injection Hupdates as <-. by split. }
  apply isEmpty_false in He. split; [done |]. intros _.
  destruct (lookupById org _ _) as [orgData | e]; [| discriminate].
  injection Hupdates as <-. exists orgData. split; [done |].
  intros t update. rewrite in_flat_map. unfold Deployer.updateFor. split.
  - intros (result & Hin & Hupd).
    destruct (isEmpty (Deployer.mismatchedFieldData _ _ _ _)) eqn:Hm; [destruct Hupd |].
    apply isEmpty_false in Hm. destruct Hupd as [Heq | []]. injection Heq as <- <-.
    by exists result.
  - intros (result & -> & Hin & Hm & ->). exists result. split; [done |].
    apply isEmpty_false in Hm. rewrite Hm. by left.
Qed.

(** The corrective batch is made of the updates of the groups. *)
Lemma updatesForTypes_spec org st fieldNames groups : forall recordBatch,
  Deployer.updatesForTypes org st fieldNames groups = Ok recordBatch ->
  (forall type members, In (type, members) groups ->
     exists updates,
       Deployer.updatesForType org st fieldNames type members = Ok updates
       /\ forall x, In x updates -> In x recordBatch)
  /\ (forall x, In x recordBatch ->
        exists type members updates,
          In (type, members) groups
          /\ Deployer.updatesForType org st fieldNames type members = Ok updates
          /\ In x updates).
Proof.
  induction groups as [| [type members] rest IH]; intros recordBatch; cbn.
  { intros [= <-]. split; [intros ? ? [] | intros ? []]. }
  destruct (Deployer.updatesForType org st fieldNames type members) as [updates | e] eqn:Hu;
    [| discriminate].
  destruct (Deployer.updatesForTypes org st fieldNames rest) as [more | e]; [| discriminate].
  intros [= <-]. destruct (IH more eq_refl) as [Hall Hsound]. split.
  - intros type' members' [Heq | Hin].
    + injection Heq as <- <-. exists updates. split; [done |].
      intros x Hx. apply in_or_app. by left.
    + destruct (Hall type' members' Hin) as (updates' & Hu' & Hsub).
      exists updates'. split; [done |]. intros x Hx. apply in_or_app. right. by apply Hsub.
  - intros x Hx. apply in_app_or in Hx as [Hx | Hx].
    + exists type, members, updates. split; [by left | done].
    + destruct (Hsound x Hx) as (type' & members' & updates' & Hin & Hu' & Hx').
      exists type', members', updates'. split; [by right | done].
Qed.



Section Verification.

End Verification.


(** ** Creating a deployment *)

Section Creation.
Context `{Collaborators}.
Variable specs : list (DatapackDeploymentSpec * DatapackFilter).
Variable createRecords :
  VlocityDatapack -> Store -> Store * result (list DatapackDeploymentRecord).
Variable isCancellationRequested : VlocityDatapack -> bool.

Lemma loadDatapacks_app opts pre : forall post d w,
  Deployer.loadDatapacks specs createRecords isCancellationRequested opts (pre ++ post) d w
  = match Deployer.loadDatapacks specs createRecords isCancellationRequested opts pre d w with
    | (w1, Ok d1) =>
        Deployer.loadDatapacks specs createRecords isCancellationRequested opts post d1 w1
    | (w1, Throw err) => (w1, Throw err)
    end.
Proof.
  induction pre as [| datapack pre IH]; intros post d w; cbn; [done |].
  destruct (Deployer.loadDatapack _ _ _ _ _ _ _) as [w1 [d1 | err]]; [apply IH | done].
Qed.

Lemma loadDatapacks_continue opts datapacks : forall d w,
  continueOnError opts = true ->
  exists d', snd (Deployer.loadDatapacks specs createRecords isCancellationRequested
                    opts datapacks d w) = Ok d'.
Proof.
  induction datapacks as [| datapack rest IH]; intros d w Hc; cbn; [by exists d |].
  unfold Deployer.loadDatapack.
  destruct (isCancellationRequested datapack); [by apply IH |].
  destruct (Deployer.convertDatapack _ _ _ _ _) as [w1 [rs | err]]; [by apply IH |].
  rewrite Hc. cbn. by apply IH.
Qed.

(** C6: when the conversion of a datapack throws, be it in
    [createRecords] or in a spec function called around it, then with
    [continueOnError] off [createDeployment] throws an error that wraps the
    conversion error, and with [continueOnError] on the error is logged, the
    datapack adds no record to the deployment, the remaining datapacks are
    converted and [createDeployment] returns the deployment. *)
Theorem conversion_error_policy
    (opts : DatapackDeploymentOptions) (before after : list VlocityDatapack)
    (datapack : VlocityDatapack) (w w1 w2 : World) (d1 : DatapackDeployment) (err : Error) :
  Deployer.createDeployment specs createRecords isCancellationRequested before opts w
    = (w1, Ok d1) ->
  isCancellationRequested datapack = false ->
  Deployer.convertDatapack specs createRecords opts datapack w1 = (w2, Throw err) ->
  (forall w0 w0' st e,
     runSpecFunction specs fn_preprocess
       {| args := [PDatapack datapack]; ignoreErrors := false; errorSeverity := None |} w0
       = (w0', Ok tt) ->
     createRecords datapack (store w0') = (st, Throw e) ->
     Deployer.convertDatapack specs createRecords opts datapack w0
       = (withStore st w0', Throw e))
  /\ (continueOnError opts = false ->
      Deployer.createDeployment specs createRecords isCancellationRequested
        (before ++ datapack :: after) opts w
      = (w2, Throw (CustomError (Deployer.loadErrorMessage datapack err) err)))
  /\ (continueOnError opts = true ->
      Deployer.createDeployment specs createRecords isCancellationRequested
        (before ++ datapack :: after) opts w
      = Deployer.loadDatapacks specs createRecords isCancellationRequested opts after d1
          (logMessage LogError (Deployer.loadErrorMessage datapack err) w2)
      /\ exists d,
           snd (Deployer.createDeployment specs createRecords isCancellationRequested
                  (before ++ datapack :: after) opts w) = Ok d).
Proof.
  unfold Deployer.createDeployment. intros Hbefore Hcancel Hconvert.
  split.
  { intros w0 w0' st e Hpre Hcreate. unfold Deployer.convertDatapack.
    by rewrite Hpre, Hcreate. }
  rewrite loadDatapacks_app, Hbefore. cbn [Deployer.loadDatapacks].
  unfold Deployer.loadDatapack. rewrite Hcancel, Hconvert.
  split; intros Hc; rewrite Hc; cbn; [done |].
  split; [done |]. by apply loadDatapacks_continue.
Qed.
End Creation.

(** With [continueOnError] off the datapack that cannot be converted makes
    [createDeployment] throw; the error names the datapack and wraps the
    error of the record factory. *)
Lemma conversion_error_policy_witness :
  snd (Deployer.createDeployment (H := sampleCollaborators) [] sampleFactory neverCancelled
         ([accountDatapack] ++ brokenDatapack :: [accountDatapack])
         {| disableTriggers := false; continueOnError := false |} emptyWorld)
  = Throw (CustomError
             "Error while loading Datapack 'broken_DataPack.json' -- No matching keys"
             (ErrorMsg "No matching keys")).
Proof.
  destruct (conversion_error_policy (H := sampleCollaborators) [] sampleFactory
              neverCancelled {| disableTriggers := false; continueOnError := false |}
              [accountDatapack] [accountDatapack] brokenDatapack emptyWorld
              _ _ _ (ErrorMsg "No matching keys") eq_refl eq_refl eq_refl)
    as (_ & Hoff & _).
  rewrite (Hoff eq_refl). reflexivity.
Defined.

(** With [continueOnError] on the same input gives a deployment with the
    records of the two datapacks that convert, and the error is logged. *)
Example conversion_error_continue :
  let outcome :=
    Deployer.createDeployment (H := sampleCollaborators) [] sampleFactory neverCancelled
      [accountDatapack; brokenDatapack; accountDatapack]
      {| disableTriggers := false; continueOnError := true |} emptyWorld in
  (exists d, snd outcome = Ok d /\ deploymentRecords d = [account1; account1])
  /\ In (LogError, "Error while loading Datapack 'broken_DataPack.json' -- No matching keys")
        (logs (fst outcome)).
Proof.
  cbn. split; [eexists; split; reflexivity |]. right. left. reflexivity.
Qed.

(** ** The lookup query builder *)

Lemma startsWith_exclusive (s p q : string) (a b : ascii) :
  p = String a "" -> a <> b -> startsWith s p = true ->
  startsWith s (String b q) = false.
Proof.
  intros -> Hab. unfold startsWith. destruct s as [| c s]; cbn; [done |].
  destruct (ascii_dec a c) as [<- |]; [| done]. intros _.
  destruct (ascii_dec b a) as [-> |]; done.
Qed.

Section LookupFacts.
Context `{Lookup.Services}.

Lemma lookupFilterOf_entries type fieldName entries :
  (fix each (es : list (string * Lookup.LookupValue)) : result (list string) :=
     match es with
     | [] => Ok []
     | (k, v) :: rest =>
         match Lookup.lookupFilterOf type (fieldName +:+ "." +:+ k) v with
         | Throw err => Throw err
         | Ok clause =>
             match each rest with
             | Throw err => Throw err
             | Ok clauses => Ok (clause :: clauses)
             end
         end
     end) entries
  = Lookup.lookupFiltersOf type (prefixKeys fieldName entries).
Proof.
  induction entries as [| [k v] rest IH]; cbn; [done |].
  destruct (Lookup.lookupFilterOf _ _ _); [| done]. by rewrite IH.
Qed.

Lemma lookupFilterOf_unfold type fieldPath value :
  Lookup.lookupFilterOf type fieldPath value
  = match Lookup.describeSObjectFieldPath type fieldPath with
    | Throw err => Throw err
    | Ok salesforceFields =>
        match pathTarget salesforceFields with
        | None => Throw (TypeError "Cannot read properties of undefined (reading 'name')")
        | Some (salesforceField, fieldName) =>
            match value with
            | Lookup.LObject entries =>
                if negb (Lookup.isReference salesforceField)
                then Throw (ErrorMsg ("Object type set for non-reference field "
                                      +:+ fieldPath +:+ " on type " +:+ type))
                else Lookup.createWhereClause type (Some (prefixKeys fieldName entries))
            | _ =>
                Ok (fieldName +:+ " " +:+ fst (Lookup.comparison value salesforceField) +:+ " "
                    +:+ Lookup.formatFieldValue
                          (snd (Lookup.comparison value salesforceField)) salesforceField)
            end
        end
    end.
Proof.
  destruct value; cbn [Lookup.lookupFilterOf];
    (destruct (Lookup.describeSObjectFieldPath type fieldPath) as [fields |]; [| done]);
    unfold pathTarget; (destruct (rev fields) as [| f parents]; [done |]);
    try (by destruct (Lookup.comparison _ f)).
  destruct (negb (Lookup.isReference f)); [done |].
  rewrite lookupFilterOf_entries. unfold Lookup.createWhereClause. cbn. done.
Qed.
End LookupFacts.

Section OperatorInference.
Context `{Lookup.Services}.

(** C7, as the code has it: the comparison operator is inferred from the
    value.  A string with a leading '!=' gives not-equals, '>' greater-than,
    '<' smaller-than and '~' like, each with the prefix stripped; an array
    gives 'in', or 'includes' on a multipicklist field; any other value that
    is not an object gives equals.  A string that, once its prefix is
    stripped, is a Salesforce id compared with a field of type string is
    compared with its 18 and its 15 character form: by 'in' where the
    operator was equals and by 'not in' where it was not-equals.  An object
    value on a reference field gives the where clause of its entries, and
    throws on any other field.  [lookupSingle] gives the first record of the
    lookup, or nothing when there is none. *)
Theorem operator_inferred_from_value (value : Lookup.LookupValue) (salesforceField : Field) :
  let byId (s : string) :=
    Lookup.isSalesforceId s && String.eqb (fieldType salesforceField) "string" in
  let bothForms (s : string) :=
    Lookup.LArray [Lookup.LString s; Lookup.LString (String.substring 0 15 s)] in
  (forall s, value = Lookup.LString s -> startsWith s "!=" = true ->
     (byId (substringFrom 2 s) = false ->
      Lookup.comparison value salesforceField = ("!=", Lookup.LString (substringFrom 2 s)))
     /\ (byId (substringFrom 2 s) = true ->
         Lookup.comparison value salesforceField = ("not in", bothForms (substringFrom 2 s))))
  /\ (forall s, value = Lookup.LString s -> startsWith s ">" = true ->
        byId (substringFrom 1 s) = false ->
        Lookup.comparison value salesforceField = (">", Lookup.LString (substringFrom 1 s)))
  /\ (forall s, value = Lookup.LString s -> startsWith s "<" = true ->
        byId (substringFrom 1 s) = false ->
        Lookup.comparison value salesforceField = ("<", Lookup.LString (substringFrom 1 s)))
  /\ (forall s, value = Lookup.LString s -> startsWith s "~" = true ->
        byId (substringFrom 1 s) = false ->
        Lookup.comparison value salesforceField = ("like", Lookup.LString (substringFrom 1 s)))
  /\ (forall s, value = Lookup.LString s ->
        startsWith s "!=" = false -> startsWith s ">" = false ->
        startsWith s "<" = false -> startsWith s "~" = false ->
        (byId s = false -> Lookup.comparison value salesforceField = ("=", value))
        /\ (byId s = true -> Lookup.comparison value salesforceField = ("in", bothForms s)))
  /\ (forall items, value = Lookup.LArray items ->
        Lookup.comparison value salesforceField
        = (if String.eqb (fieldType salesforceField) "multipicklist" then "includes" else "in",
           value))
  /\ ((forall s, value <> Lookup.LString s) -> (forall items, value <> Lookup.LArray items) ->
      Lookup.comparison value salesforceField = ("=", value))
  /\ (forall type fieldPath salesforceFields fieldName,
        Lookup.describeSObjectFieldPath type fieldPath = Ok salesforceFields ->
        pathTarget salesforceFields = Some (salesforceField, fieldName) ->
        match value with
        | Lookup.LObject entries =>
            (Lookup.isReference salesforceField = true ->
             Lookup.lookupFilterOf type fieldPath value
             = Lookup.createWhereClause type (Some (prefixKeys fieldName entries)))
            /\ (Lookup.isReference salesforceField = false ->
                exists err, Lookup.lookupFilterOf type fieldPath value = Throw err)
        | _ =>
            Lookup.lookupFilterOf type fieldPath value
            = Ok (fieldName +:+ " " +:+ fst (Lookup.comparison value salesforceField) +:+ " "
                  +:+ Lookup.formatFieldValue
                        (snd (Lookup.comparison value salesforceField)) salesforceField)
        end)
  /\ (forall type filter lookupFields cancelled,
        match Lookup.lookup type filter lookupFields (Some 1) cancelled with
        | Ok results =>
            Lookup.lookupSingle type filter lookupFields cancelled = Ok (head results)
            /\ (results = [] ->
                Lookup.lookupSingle type filter lookupFields cancelled = Ok None)
        | Throw err => Lookup.lookupSingle type filter lookupFields cancelled = Throw err
        end).
Proof.
  intros byId bothForms.
  assert (Hgt : forall s, startsWith s ">" = true -> startsWith s "!=" = false).
  { intros s. by apply (startsWith_exclusive s ">" "=" ">" "!"). }
  assert (Hlt : forall s, startsWith s "<" = true ->
                  startsWith s "!=" = false /\ startsWith s ">" = false).
  { intros s Hs. split.
    - by apply (startsWith_exclusive s "<" "=" "<" "!").
    - by apply (startsWith_exclusive s "<" "" "<" ">"). }
  assert (Hlike : forall s, startsWith s "~" = true ->
                  startsWith s "!=" = false /\ startsWith s ">" = false
                  /\ startsWith s "<" = false).
  { intros s Hs. repeat split.
    - by apply (startsWith_exclusive s "~" "=" "~" "!").
    - by apply (startsWith_exclusive s "~" "" "~" ">").
    - by apply (startsWith_exclusive s "~" "" "~" "<"). }
  split.
  { intros s -> Hs. unfold Lookup.comparison. rewrite Hs. fold (byId (substringFrom 2 s)).
    split; intros ->; done. }
  split.
  { intros s -> Hs Hid. unfold Lookup.comparison. rewrite (Hgt s Hs), Hs.
    fold (byId (substringFrom 1 s)). by rewrite Hid. }
  split.
  { intros s -> Hs Hid. unfold Lookup.comparison.
    destruct (Hlt s Hs) as [-> ->]. rewrite Hs.
    fold (byId (substringFrom 1 s)). by rewrite Hid. }
  split.
  { intros s -> Hs Hid. unfold Lookup.comparison.
    destruct (Hlike s Hs) as (-> & -> & ->). rewrite Hs.
    fold (byId (substringFrom 1 s)). by rewrite Hid. }
  split.
  { intros s -> H1 H2 H3 H4. unfold Lookup.comparison. rewrite H1, H2, H3, H4.
    fold (byId s). split; intros ->; done. }
  split.
  { intros items ->. unfold Lookup.comparison.
    by destruct (String.eqb (fieldType salesforceField) "multipicklist"). }
  split.
  { intros Hs Ha. destruct value; try done.
    - by destruct (Hs s).
    - by destruct (Ha items). }
  split.
  { intros type fieldPath salesforceFields fieldName Hpath Htarget.
    rewrite lookupFilterOf_unfold, Hpath, Htarget.
    destruct value; try done.
    split; intros ->; cbn; [done | by eexists]. }
  intros type filter lookupFields cancelled. unfold Lookup.lookupSingle.
  destruct (Lookup.lookup _ _ _ _ _) as [results | err]; [| done].
  split; [done | by intros ->].
Qed.
End OperatorInference.

(** A name that does not look like an id is compared by equals. *)
Lemma operator_inferred_from_value_witness :
  Lookup.comparison (H := sampleServices) (Lookup.LString "AllTriggers") (textField "Name")
  = ("=", Lookup.LString "AllTriggers").
Proof.
  destruct (operator_inferred_from_value (H := sampleServices)
              (Lookup.LString "AllTriggers") (textField "Name"))
    as (_ & _ & _ & _ & Hplain & _).
  destruct (Hplain "AllTriggers" eq_refl eq_refl eq_refl eq_refl eq_refl) as [Hequals _].
  exact (Hequals eq_refl).
Defined.

(** C7 does not hold as stated: a string that is a Salesforce id, compared
    with a field of type string, is not compared by equals but by 'in', and
    with a leading '!=' not by not-equals but by 'not in'. *)
Lemma id_on_text_field_not_compared_by_equals :
  Lookup.comparison (H := sampleServices) (Lookup.LString "001000000000001AAA")
    (textField "ExternalId__c")
  = ("in", Lookup.LArray [Lookup.LString "001000000000001AAA";
                          Lookup.LString "001000000000001"])
  /\ Lookup.comparison (H := sampleServices) (Lookup.LString "!=001000000000001AAA")
       (textField "ExternalId__c")
     = ("not in", Lookup.LArray [Lookup.LString "001000000000001AAA";
                                 Lookup.LString "001000000000001"])
  /\ Lookup.createWhereClause (H := sampleServices) "Account"
       (Some [("ExternalId__c", Lookup.LString "001000000000001AAA")])
     = Ok "ExternalId__c in ('001000000000001AAA','001000000000001')".
Proof. repeat split. Qed.

(** ** Errors of spec functions and the run *)

Section HookErrors.
Context `{Collaborators}.
Variable specs : list (DatapackDeploymentSpec * DatapackFilter).
Variable createRecords :
  VlocityDatapack -> Store -> Store * result (list DatapackDeploymentRecord).
Variable isCancellationRequested : VlocityDatapack -> bool.

(** C2, as the code has it: when the function of a spec throws and
    [ignoreErrors] is set, the error is attached to every record reachable
    from the arguments of the event (a warning is added when the severity is
    'warn', the record is set Failed when it is 'error'), no other record is
    touched and the dispatch goes on with the next spec.  When
    [ignoreErrors] is not set, the dispatch stops and throws the error to its
    caller, and the dispatcher changes no record.  The error ends the run
    only when [continueOnError] is off: the one dispatch that never sets
    [ignoreErrors], that of [preprocess], is made in the [try] block of
    [createDeployment], which throws an error that wraps the one of the spec
    function when [continueOnError] is off, and otherwise logs it and goes on
    with the next datapack. *)
Theorem hook_failure_policy
    (i : nat) (spec : DatapackDeploymentSpec) (flt : DatapackFilter)
    (rest : list (DatapackDeploymentSpec * DatapackFilter))
    (eventType : EventType) (opts : DeploymentSpecExecuteOptions) (w : World)
    (fn : SpecFunction) (specParams : list Param) (st : Store) (err : Error) :
  specFunction spec eventType = Some fn ->
  narrow flt (args opts) = Invoke specParams ->
  fn specParams (store w) = (st, Some err) ->
  (ignoreErrors opts = true ->
     exists w',
       runSpecsFrom i ((spec, flt) :: rest) eventType opts w
         = runSpecsFrom (S i) rest eventType opts w'
       /\ (forall r, reachable (args opts) r ->
             (errorSeverity opts = Some warn ->
                stateOf (store w') r
                = addWarning (eventName eventType +:+ " spec error: " +:+ getErrorMessage err)
                    (stateOf st r))
             /\ (errorSeverity opts = Some error ->
                   stateOf (store w') r
                   = setFailed (eventName eventType +:+ " spec error: " +:+ getErrorMessage err)
                       (stateOf st r)))
       /\ (forall k, (forall r, reachable (args opts) r -> sourceKey r <> k) ->
             store w' !! k = st !! k))
  /\ (ignoreErrors opts = false ->
        exists w',
          runSpecsFrom i ((spec, flt) :: rest) eventType opts w = (w', Throw err)
          /\ store w' = st
          /\ invocations w'
             = invocations w ++ [{| invokedSpec := i; invokedFunction := eventType;
                                    invokedWith := specParams |}])
  /\ (forall (options : DatapackDeploymentOptions) (before after : list VlocityDatapack)
        (datapack : VlocityDatapack) (d : DatapackDeployment) (w0 w1 w2 : World)
        (thrown : Error),
        Deployer.createDeployment specs createRecords isCancellationRequested before options w0
          = (w1, Ok d) ->
        isCancellationRequested datapack = false ->
        runSpecFunction specs fn_preprocess
          {| args := [PDatapack datapack]; ignoreErrors := false; errorSeverity := None |} w1
          = (w2, Throw thrown) ->
        let errorMessage :=
          "Error while loading Datapack '" +:+ headerFile datapack +:+ "' -- "
          +:+ getErrorMessage thrown in
        (continueOnError options = false ->
         Deployer.createDeployment specs createRecords isCancellationRequested
           (before ++ datapack :: after) options w0
         = (w2, Throw (CustomError errorMessage thrown)))
        /\ (continueOnError options = true ->
            Deployer.createDeployment specs createRecords isCancellationRequested
              (before ++ datapack :: after) options w0
            = Deployer.loadDatapacks specs createRecords isCancellationRequested options after d
                (logMessage LogError errorMessage w2)
            /\ exists d',
                 snd (Deployer.createDeployment specs createRecords isCancellationRequested
                        (before ++ datapack :: after) options w0) = Ok d')).
Proof.
  intros Hfn Hnarrow Hthrow.
  split; [| split].
  - cbn [runSpecsFrom]. rewrite Hfn, Hnarrow. cbn. rewrite Hthrow.
    intros Hign. rewrite Hign.
    eexists. split; [reflexivity |].
    match goal with
    | |- context [handleSpecFunctionError ?e ?x ?o ?w0] =>
        destruct (handleSpecFunctionError_store e x o w0) as [Hin Hout]
    end.
    split.
    + intros r Hr. specialize (Hin r Hr).
      split; intros Hsev; rewrite Hsev in Hin; exact Hin.
    + intros k Hk. by rewrite Hout.
  - cbn [runSpecsFrom]. rewrite Hfn, Hnarrow. cbn. rewrite Hthrow.
    intros Hign. rewrite Hign. eexists. split; [reflexivity |]. done.
  - intros options before after datapack d w0 w1 w2 thrown Hbefore Hcancel Hpre errorMessage.
    unfold Deployer.createDeployment in *.
    rewrite loadDatapacks_app, Hbefore. cbn [Deployer.loadDatapacks].
    unfold Deployer.loadDatapack, Deployer.convertDatapack. rewrite Hcancel, Hpre.
    split; intros Hc; rewrite Hc; cbn; [done |].
    split; [done |]. by apply loadDatapacks_continue.
Qed.
End HookErrors.

(** A function that throws on the event [beforeDeployRecord], handled with
    the severity 'error', leaves the record of the event Failed, with the
    error that names the event. *)
Lemma hook_failure_policy_witness :
  stateOf
    (store (fst (runSpecFunction (H := sampleCollaborators) [(failingSpec, anyFilter)]
                   fn_beforeDeployRecord
                   {| args := [PRecords [contact1]]; ignoreErrors := true;
                      errorSeverity := Some error |} emptyWorld)))
    contact1
  = {| status := Failed; recordId := None; values := [];
       errors := ["beforeDeployRecord spec error: boom"]; warnings := [] |}.
Proof.
  destruct (hook_failure_policy (H := sampleCollaborators) [] noRecords neverCancelled
              0 failingSpec anyFilter []
              fn_beforeDeployRecord
              {| args := [PRecords [contact1]]; ignoreErrors := true;
                 errorSeverity := Some error |}
              emptyWorld (fun _ st => (st, Some (ErrorMsg "boom")))
              [PRecords [contact1]] ∅ (ErrorMsg "boom")
              eq_refl eq_refl eq_refl) as [Hignore _].
  destruct (Hignore eq_refl) as (w' & Hrun & Hattached & _).
  unfold runSpecFunction. rewrite Hrun. cbn [runSpecsFrom fst].
  assert (Hreach : reachable [PRecords [contact1]] contact1).
  { exists (PRecords [contact1]). split; left; reflexivity. }
  destruct (Hattached contact1 Hreach) as [_ Hfailed].
  rewrite (Hfailed eq_refl). reflexivity.
Defined.

(** C2 does not hold as stated: an error that the dispatcher throws to its
    caller does not always end the run.  With [continueOnError] set, the
    error of a [preprocess] function is caught by [createDeployment], which
    logs it and returns the deployment. *)
Lemma propagated_hook_error_does_not_abort :
  snd (runSpecFunction (H := sampleCollaborators) [(failingSpec, anyFilter)] fn_preprocess
         {| args := [PDatapack accountDatapack]; ignoreErrors := false;
            errorSeverity := None |}
         (logMessage LogInfo "Converting datapacks to Salesforce records..." emptyWorld))
  = Throw (ErrorMsg "boom")
  /\ Deployer.createDeployment (H := sampleCollaborators) [(failingSpec, anyFilter)]
       sampleFactory neverCancelled [accountDatapack] continueOptions emptyWorld
     = ({| store := ∅; triggerSetup := None;
           logs := [(LogInfo, "Converting datapacks to Salesforce records...");
                    (LogError, "Error while loading Datapack 'account_DataPack.json' -- boom")];
           invocations := [{| invokedSpec := 0; invokedFunction := fn_preprocess;
                              invokedWith := [PDatapack accountDatapack] |}] |},
        Ok {| options := continueOptions; isCancelled := false; deploymentRecords := [] |}).
Proof. split; reflexivity. Qed.
(** ** The record batch executor *)

Lemma ceil_step (n k : nat) :
  0 < k -> 0 < n -> (n + k - 1) / k = S ((n - k + k - 1) / k).
Proof.
  intros Hk Hn.
  replace (n + k - 1) with (1 * k + (n - 1)) by lia.
  rewrite Nat.div_add_l by lia.
  destruct (Nat.le_gt_cases n k) as [Hle | Hgt].
  - rewrite !Nat.div_small by lia. lia.
  - replace (n - k + k - 1) with (n - 1) by lia. lia.
Qed.

Lemma ceil_mono (n m k : nat) : n <= m -> (n + k - 1) / k <= (m + k - 1) / k.
Proof.
  intros Hle. destruct k as [| k]; [done |]. apply Nat.Div0.div_le_mono. lia.
Qed.

Lemma filter_partition {A} (f : A -> bool) (l : list A) :
  List.filter f l ++ List.filter (fun a => negb (f a)) l ≡ₚ l.
Proof.
  induction l as [| a l IH]; cbn; [done |].
  destruct (f a); cbn.
  - by rewrite IH.
  - rewrite <- Permutation_middle. by rewrite IH.
Qed.

Section Chunking.
Context {R : Type}.
Variable remote : nat -> list R -> result (list RecordBatch.Result).

Lemma chunksOf_spec (chunkSize : nat) :
  0 < chunkSize ->
  forall fuel (records : list R),
    length records <= fuel ->
    concat (RecordBatch.chunksOf fuel chunkSize records) = records
    /\ length (RecordBatch.chunksOf fuel chunkSize records)
       = (length records + chunkSize - 1) / chunkSize
    /\ Forall (fun chunk => 0 < length chunk <= chunkSize)
         (RecordBatch.chunksOf fuel chunkSize records).
Proof.
  intros Hk. induction fuel as [| fuel IH]; intros records Hfuel.
  - destruct records; [| cbn in Hfuel; lia]. cbn.
    rewrite Nat.div_small by lia. by repeat split.
  - destruct records as [| r records].
    + cbn. rewrite Nat.div_small by lia. by repeat split.
    + cbn [RecordBatch.chunksOf].
      set (l := r :: records) in *.
      assert (Hl : 0 < length l) by (cbn; lia).
      destruct (IH (drop chunkSize l)) as (Hconcat & Hlen & Hall).
      { rewrite length_drop. cbn in Hfuel. cbn [length] in Hl. unfold l. cbn. lia. }
      split; [| split].
      * cbn. rewrite Hconcat. apply take_drop.
      * cbn. rewrite Hlen, length_drop. by rewrite <- ceil_step.
      * constructor; [| done]. rewrite length_take. lia.
Qed.

Lemma split_spec (chunkSize : nat) (records : list R) :
  0 < chunkSize ->
  concat (RecordBatch.split chunkSize records) = records
  /\ length (RecordBatch.split chunkSize records)
     = (length records + chunkSize - 1) / chunkSize
  /\ Forall (fun chunk => 0 < length chunk <= chunkSize)
       (RecordBatch.split chunkSize records).
Proof. intros Hk. by apply chunksOf_spec. Qed.


Lemma submit_records (round : nat) (chunk : list R) :
  (forall results, remote round chunk = Ok results -> length results = length chunk) ->
  List.map fst (RecordBatch.submit remote round chunk) = chunk.
Proof.
  intros Hcontract. unfold RecordBatch.submit.
  destruct (remote round chunk) as [results | err] eqn:Hremote.
  - apply fst_zip. rewrite (Hcontract results eq_refl). done.
  - rewrite map_map. cbn. apply map_id.
Qed.

(** A call gives no result for a record that was not in it. *)
Lemma submit_sound (round : nat) (chunk : list R) :
  length (RecordBatch.submit remote round chunk) <= length chunk
  /\ forall rr, In rr (RecordBatch.submit remote round chunk) -> In (fst rr) chunk.
Proof.
  unfold RecordBatch.submit. destruct (remote round chunk) as [results | err].
  - split; [rewrite length_zip; lia |].
    intros [r res] Hin. apply list_elem_of_In, elem_of_zip_l in Hin.
    by apply list_elem_of_In.
  - split; [by rewrite length_map |].
    intros rr Hin. apply in_map_iff in Hin as (r & <- & Hr). done.
Qed.

Lemma flat_map_submit_sound (round : nat) (calls : list (list R)) :
  length (flat_map (RecordBatch.submit remote round) calls) <= length (concat calls)
  /\ forall rr, In rr (flat_map (RecordBatch.submit remote round) calls) ->
       In (fst rr) (concat calls).
Proof.
  induction calls as [| chunk calls [IHlen IHin]]; cbn; [done |].
  destruct (submit_sound round chunk) as [Hlen Hin].
  split; [rewrite !length_app; lia |].
  intros rr Hrr. apply in_app_or in Hrr as [Hrr | Hrr]; apply in_or_app; auto.
Qed.

Lemma flat_map_submit_records (round : nat) (calls : list (list R)) :
  (forall chunk results, remote round chunk = Ok results -> length results = length chunk) ->
  List.map fst (flat_map (RecordBatch.submit remote round) calls) = concat calls.
Proof.
  intros Hcontract. induction calls as [| chunk calls IH]; cbn; [done |].
  rewrite map_app, IH. f_equal. apply submit_records. apply Hcontract.
Qed.

(** The calls of the retries: bounded by the retry chunk limit, made of
    records that had failed, and at most as many per retry as the failed
    records need. *)
Lemma retry_calls (retryChunkSize : nat) :
  0 < retryChunkSize ->
  forall retries round (outcome : list (R * RecordBatch.Result)),
    let failed := List.filter (fun rr => negb (RecordBatch.success (snd rr))) outcome in
    let calls := fst (RecordBatch.retry remote round retries retryChunkSize outcome) in
    Forall (fun chunk => 0 < length chunk <= retryChunkSize
                         /\ forall r, In r chunk -> In r (List.map fst failed)) calls
    /\ length calls
       <= retries * ((length failed + retryChunkSize - 1) / retryChunkSize)
    /\ (failed = [] \/ retries = 0 -> calls = [])
    /\ (failed <> [] -> 0 < retries ->
        exists later,
          calls = RecordBatch.split retryChunkSize (List.map fst failed) ++ later).
Proof.
  intros Hk. induction retries as [| n IH]; intros round outcome; cbn zeta.
  { cbn. split; [constructor |]. split; [lia |]. split; [done | lia]. }
  cbn [RecordBatch.retry].
  set (failed := List.filter (fun rr => negb (RecordBatch.success (snd rr))) outcome).
  destruct (isEmpty failed) eqn:He.
  { apply isEmpty_true in He. cbn. split; [constructor |]. split; [lia |]. split; [done |].
    intros Hne. by destruct Hne. }
  apply isEmpty_false in He. unfold RecordBatch.submitAll.
  set (calls := RecordBatch.split retryChunkSize (List.map fst failed)).
  set (retried := flat_map (RecordBatch.submit remote round) calls).
  specialize (IH (S round) retried). cbn zeta in IH.
  destruct (RecordBatch.retry remote (S round) n retryChunkSize retried)
    as [moreCalls final] eqn:Hretry.
  cbn [fst] in IH |- *. destruct IH as (Hall & Hlen & _ & _).
  destruct (split_spec retryChunkSize (List.map fst failed) Hk) as (Hconcat & Hcount & Hbound).
  fold calls in Hconcat, Hcount, Hbound.
  destruct (flat_map_submit_sound round calls) as [Hshrink Hsub].
  fold retried in Hshrink, Hsub. rewrite Hconcat in Hshrink, Hsub.
  rewrite length_map in Hshrink, Hcount.
  set (failed' := List.filter (fun rr => negb (RecordBatch.success (snd rr))) retried) in *.
  assert (Hfewer : length failed' <= length failed).
  { unfold failed'. etransitivity; [apply filter_length_le | exact Hshrink]. }
  split; [| split; [| split]].
  - apply Forall_app. split.
    + apply List.Forall_forall. intros chunk Hchunk. split.
      * by apply (proj1 (List.Forall_forall _ _) Hbound).
      * intros r Hr. rewrite <- Hconcat. apply in_concat. by exists chunk.
    + eapply Forall_impl; [exact Hall |]. cbn. intros chunk [Hsize Hrecords].
      split; [done |]. intros r Hr.
      specialize (Hrecords r Hr). apply in_map_iff in Hrecords as (rr & <- & Hrr).
      apply filter_In in Hrr as [Hrr _]. by apply Hsub.
  - rewrite length_app, Hcount.
    pose proof (ceil_mono _ _ retryChunkSize Hfewer) as Hmono. nia.
  - intros [Hnil | Hzero]; [done | lia].
  - intros _ _. by exists moreCalls.
Qed.

(** With one result per record in every call, every record has one final
    result. *)
Lemma retry_results (retryChunkSize : nat) :
  0 < retryChunkSize ->
  (forall round chunk results,
     remote round chunk = Ok results -> length results = length chunk) ->
  forall retries round (outcome : list (R * RecordBatch.Result)),
    List.map fst (snd (RecordBatch.retry remote round retries retryChunkSize outcome))
    ≡ₚ List.map fst outcome.
Proof.
  intros Hk Hcontract. induction retries as [| n IH]; intros round outcome; [done |].
  cbn [RecordBatch.retry].
  set (failed := List.filter (fun rr => negb (RecordBatch.success (snd rr))) outcome).
  destruct (isEmpty failed) eqn:He; [done |].
  unfold RecordBatch.submitAll.
  set (calls := RecordBatch.split retryChunkSize (List.map fst failed)).
  set (retried := flat_map (RecordBatch.submit remote round) calls).
  specialize (IH (S round) retried).
  destruct (RecordBatch.retry remote (S round) n retryChunkSize retried)
    as [moreCalls final] eqn:Hretry.
  cbn [snd] in IH |- *. rewrite map_app, IH.
  unfold retried. rewrite flat_map_submit_records by apply Hcontract.
  unfold calls. rewrite (proj1 (split_spec retryChunkSize _ Hk)).
  rewrite <- map_app. apply Permutation_map. apply filter_partition.
Qed.

(** The records of the calls of [execute] are the records of the group,
    and with one result per record in every call every record has one final
    result. *)
Lemma execute_calls (options : RecordBatch.Options) (records : list R) :
  0 < RecordBatch.chunkSize options ->
  0 < RecordBatch.retryChunkSize options ->
  forall r, In r (concat (fst (RecordBatch.execute remote options records))) <-> In r records.
Proof.
  intros Hk Hrk r.
  destruct (split_spec (RecordBatch.chunkSize options) records Hk) as (Hconcat & _ & _).
  pose proof (retry_calls (RecordBatch.retryChunkSize options) Hrk
                (RecordBatch.maxRetries options) 1
                (flat_map (RecordBatch.submit remote 0)
                   (RecordBatch.split (RecordBatch.chunkSize options) records)))
    as (Hretries & _).
  destruct (flat_map_submit_sound 0 (RecordBatch.split (RecordBatch.chunkSize options) records))
    as [_ Hsub].
  unfold RecordBatch.execute, RecordBatch.submitAll.
  destruct (RecordBatch.retry remote 1 _ _ _) as [retries final].
  cbn [fst] in *. rewrite concat_app, in_app_iff, Hconcat.
  split; [| by left]. intros [Hr | Hr]; [done |].
  apply in_concat in Hr as (chunk & Hchunk & Hr).
  destruct (proj1 (List.Forall_forall _ _) Hretries chunk Hchunk) as [_ Hfailed].
  specialize (Hfailed r Hr). apply in_map_iff in Hfailed as (rr & <- & Hrr).
  apply filter_In in Hrr as [Hrr _]. rewrite <- Hconcat. by apply Hsub.
Qed.

Lemma execute_results (options : RecordBatch.Options) (records : list R) :
  0 < RecordBatch.chunkSize options ->
  0 < RecordBatch.retryChunkSize options ->
  (forall round chunk results,
     remote round chunk = Ok results -> length results = length chunk) ->
  List.map fst (snd (RecordBatch.execute remote options records)) ≡ₚ records.
Proof.
  intros Hk Hrk Hcontract.
  pose proof (retry_results (RecordBatch.retryChunkSize options) Hrk Hcontract
                (RecordBatch.maxRetries options) 1
                (flat_map (RecordBatch.submit remote 0)
                   (RecordBatch.split (RecordBatch.chunkSize options) records)))
    as Hresults.
  unfold RecordBatch.execute, RecordBatch.submitAll.
  destruct (RecordBatch.retry remote 1 _ _ _) as [retries final].
  cbn [snd] in *. rewrite Hresults, flat_map_submit_records by apply Hcontract.
  by rewrite (proj1 (split_spec _ records Hk)).
Qed.

End Chunking.



(** The retry scenario of the spec: of five records the third is
    malformed and the remote rejects the whole chunk; retried one by one, the
    four others deploy and the third alone fails. *)
Example retry_isolates_the_malformed_record :
  let outcome :=
    RecordBatch.execute rejectThree
      {| RecordBatch.chunkSize := 200; RecordBatch.retryChunkSize := 1;
         RecordBatch.maxRetries := 1 |} [1; 2; 3; 4; 5] in
  fst outcome = [[1; 2; 3; 4; 5]; [1]; [2]; [3]; [4]; [5]]
  /\ List.map (fun rr => (fst rr, RecordBatch.success (snd rr))) (snd outcome)
     = [(1, true); (2, true); (3, false); (4, true); (5, true)].
Proof. split; reflexivity. Qed.
(** ** The order of deployment *)

Section DeploymentOrder.
Variable opts : Orchestrator.Options.
Variable remote : Orchestrator.Remote.
Variable hooks : nat -> Orchestrator.DeploymentRecord -> option Orchestrator.HookVerdict.
Variable records : list Orchestrator.DeploymentRecord.

Lemma statusOf_insert st k k' s :
  Orchestrator.statusOf (<[k := s]> st) k'
  = if decide (k = k') then Orchestrator.status s else Orchestrator.statusOf st k'.
Proof.
  unfold Orchestrator.statusOf. rewrite lookup_insert. by destruct (decide (k = k')).
Qed.

Lemma isPending_spec st r :
  Orchestrator.isPending st r = true
  <-> Orchestrator.statusOf st (Orchestrator.sourceKey r) = Pending.
Proof. unfold Orchestrator.isPending. apply bool_decide_eq_true. Qed.

(** *** States that continue one another *)

Lemma advances_refl st : advances st st.
Proof. by intros k _. Qed.

Lemma advances_status st st' k :
  advances st st' -> Orchestrator.statusOf st k <> Pending ->
  Orchestrator.statusOf st' k = Orchestrator.statusOf st k.
Proof. intros Hadv Hk. unfold Orchestrator.statusOf. by rewrite (Hadv k Hk). Qed.

Lemma advances_trans st1 st2 st3 :
  advances st1 st2 -> advances st2 st3 -> advances st1 st3.
Proof.
  intros H12 H23 k Hk. rewrite H23; [by apply H12 |].
  by rewrite (advances_status st1 st2 k H12 Hk).
Qed.

Lemma advances_insert st k s :
  Orchestrator.statusOf st k = Pending -> advances st (<[k := s]> st).
Proof.
  intros Hp k' Hk'. rewrite lookup_insert_ne; [done |]. intros ->. done.
Qed.

(** *** Readiness *)

(** Readiness in terms of the statuses: every entry of the dependency set
    lets the record through. *)
Lemma entry_letsThrough st e :
  match Orchestrator.resolve opts remote st e with
  | Some _ => true
  | None => Orchestrator.allowUnresolvedDependencies opts
            && Orchestrator.unresolvable opts remote st e
  end = true
  <-> letsThrough opts remote st e.
Proof.
  split; intros Hall; destruct e as [k | k]; cbn in *.
  - unfold Orchestrator.unresolvable in Hall. cbn in Hall.
    destruct (Orchestrator.statusOf st k) eqn:Hs;
      rewrite ?andb_false_r, ?andb_true_r in Hall; try discriminate.
    + by left.
    + destruct (Orchestrator.lookupFailedDependencies opts) eqn:Hl.
      * destruct (Orchestrator.lookupKey remote k) eqn:Hfound.
        -- right. left. by eauto.
        -- right. right. rewrite andb_true_r in Hall. by split; [| left].
      * right. right. rewrite andb_true_r in Hall. by split; [| left].
    + right. right. by split; [| right].
  - unfold Orchestrator.unresolvable in Hall. cbn in Hall.
    destruct (Orchestrator.lookupKey remote k); [left; by eexists |].
    right. by rewrite andb_true_r in Hall.
  - unfold Orchestrator.unresolvable. cbn.
    destruct Hall as [Hd | [(Hl & Hf & [id Hid]) | (Ha & [Hf | Hs])]].
    + by rewrite Hd.
    + by rewrite Hf, Hl, Hid.
    + rewrite Hf, Ha.
      by destruct (Orchestrator.lookupFailedDependencies opts);
        [destruct (Orchestrator.lookupKey remote k) |].
    + by rewrite Hs, Ha.
  - unfold Orchestrator.unresolvable. cbn.
    destruct Hall as [[id ->] | Ha]; [done |].
    rewrite Ha. by destruct (Orchestrator.lookupKey remote k).
Qed.

Lemma ready_spec st r :
  Orchestrator.ready opts remote records st r = true
  <-> forall e, In e (Orchestrator.dependencySet records r) -> letsThrough opts remote st e.
Proof.
  unfold Orchestrator.ready. rewrite forallb_forall.
  split; intros Hall e He; by apply entry_letsThrough, Hall.
Qed.

Lemma forallb_false {A} (f : A -> bool) (l : list A) :
  forallb f l = false -> exists a, In a l /\ f a = false.
Proof.
  induction l as [| a l IH]; cbn; [discriminate |].
  destruct (f a) eqn:Hf.
  - intros Hl. destruct (IH Hl) as (b & Hb & Hfb). exists b. split; [by right | done].
  - intros _. exists a. split; [by left | done].
Qed.

(** An entry that lets a record through names no Pending record, and lets
    it through in every state that continues the present one. *)
Lemma letsThrough_advances st st' e :
  letsThrough opts remote st e -> advances st st' -> letsThrough opts remote st' e.
Proof.
  intros Hlet Hadv. destruct e as [k | k]; [| done]. cbn in *.
  assert (Hk : Orchestrator.statusOf st k <> Pending).
  { destruct Hlet as [Hd | [(_ & Hf & _) | (_ & [Hf | Hs])]]; congruence. }
  by rewrite (advances_status st st' k Hadv Hk).
Qed.

Lemma ready_advances st st' r :
  Orchestrator.ready opts remote records st r = true -> advances st st' ->
  Orchestrator.ready opts remote records st' r = true.
Proof.
  rewrite !ready_spec. intros Hall Hadv e He. eapply letsThrough_advances; eauto.
Qed.

(** *** Propagation of the skips *)

(** A round of skips touches pending records only, and makes them Skipped. *)
Lemma skipRound_status st k :
  Orchestrator.statusOf (Orchestrator.skipRound opts remote records st) k
    = Orchestrator.statusOf st k
  \/ (Orchestrator.statusOf st k = Pending
      /\ Orchestrator.statusOf (Orchestrator.skipRound opts remote records st) k = Skipped).
Proof.
  unfold Orchestrator.skipRound.
  match goal with |- context [fold_left ?f records st] => set (step := f) end.
  assert (Hgen : forall l st0,
    Orchestrator.statusOf (fold_left step l st0) k = Orchestrator.statusOf st0 k
    \/ (Orchestrator.statusOf st0 k = Pending
        /\ Orchestrator.statusOf (fold_left step l st0) k = Skipped)); [| apply Hgen].
  clear st. induction l as [| r l IH]; intros st; cbn; [by left |].
  unfold step at 2 4. 
  destruct (Orchestrator.isPending st r && _ && _) eqn:Hc; [| apply IH].
  apply andb_true_iff in Hc as [Hc _]. apply andb_true_iff in Hc as [Hp _].
  apply isPending_spec in Hp.
  destruct (IH (<[Orchestrator.sourceKey r :=
                   {| Orchestrator.status := Skipped; Orchestrator.recordId := None |}]> st))
    as [Heq | [Hpend Hskip]].
  - rewrite Heq, statusOf_insert. destruct (decide (Orchestrator.sourceKey r = k)) as [<- |].
    + right. by split.
    + by left.
  - rewrite statusOf_insert in Hpend.
    destruct (decide (Orchestrator.sourceKey r = k)); [done |]. right. done.
Qed.

Lemma propagate_status rounds : forall st k,
  Orchestrator.statusOf (Orchestrator.propagate opts remote records rounds st) k
    = Orchestrator.statusOf st k
  \/ (Orchestrator.statusOf st k = Pending
      /\ Orchestrator.statusOf (Orchestrator.propagate opts remote records rounds st) k
         = Skipped).
Proof.
  induction rounds as [| n IH]; intros st k; cbn; [by left |].
  destruct (IH (Orchestrator.skipRound opts remote records st) k) as [Heq | [Hp Hs]].
  - rewrite Heq. apply skipRound_status.
  - destruct (skipRound_status st k) as [Heq' | [Hp' Hs']]; [| congruence].
    right. split; [congruence | done].
Qed.

Lemma propagate_keeps rounds st k :
  Orchestrator.statusOf st k <> Pending ->
  Orchestrator.statusOf (Orchestrator.propagate opts remote records rounds st) k
  = Orchestrator.statusOf st k.
Proof. intros Hk. by destruct (propagate_status rounds st k) as [? | [? _]]. Qed.

Lemma skipFold_status l : forall st k,
  let step := fun acc r =>
    if toBeSkipped opts remote records acc r
    then <[Orchestrator.sourceKey r :=
             {| Orchestrator.status := Skipped; Orchestrator.recordId := None |}]> acc
    else acc in
  Orchestrator.statusOf (fold_left step l st) k = Orchestrator.statusOf st k
  \/ (Orchestrator.statusOf st k = Pending
      /\ Orchestrator.statusOf (fold_left step l st) k = Skipped).
Proof.
  induction l as [| r l IH]; intros st k step; cbn; [by left |].
  unfold step at 2 4.
  destruct (toBeSkipped opts remote records st r) eqn:Hc; [| apply IH].
  unfold toBeSkipped in Hc.
  apply andb_true_iff in Hc as [Hc _]. apply andb_true_iff in Hc as [Hp _].
  apply isPending_spec in Hp.
  destruct (IH (<[Orchestrator.sourceKey r :=
                   {| Orchestrator.status := Skipped; Orchestrator.recordId := None |}]> st) k)
    as [Heq | [Hpend Hskip]].
  - fold step in Heq. rewrite Heq, statusOf_insert.
    destruct (decide (Orchestrator.sourceKey r = k)) as [<- |]; [right; by split | by left].
  - rewrite statusOf_insert in Hpend.
    destruct (decide (Orchestrator.sourceKey r = k)); [done |]. right. done.
Qed.

Lemma skipRound_fold st :
  Orchestrator.skipRound opts remote records st
  = fold_left (fun acc r =>
      if toBeSkipped opts remote records acc r
      then <[Orchestrator.sourceKey r :=
               {| Orchestrator.status := Skipped; Orchestrator.recordId := None |}]> acc
      else acc) records st.
Proof. reflexivity. Qed.

(** A round in which no record is to be skipped changes nothing. *)
Lemma skipRound_stable st :
  (forall r, In r records -> toBeSkipped opts remote records st r = false) ->
  Orchestrator.skipRound opts remote records st = st.
Proof.
  rewrite skipRound_fold. intros Hall.
  assert (Hgen : forall l,
    (forall r, In r l -> toBeSkipped opts remote records st r = false) ->
    fold_left (fun acc r =>
      if toBeSkipped opts remote records acc r
      then <[Orchestrator.sourceKey r :=
               {| Orchestrator.status := Skipped; Orchestrator.recordId := None |}]> acc
      else acc) l st = st); [| by apply Hgen].
  induction l as [| r l IH]; intros Hl; cbn; [done |].
  rewrite (Hl r (or_introl eq_refl)). apply IH. intros r' Hr'. apply Hl. by right.
Qed.

Lemma filter_length_lt {A} (f g : A -> bool) (l : list A) (x : A) :
  (forall a, In a l -> g a = true -> f a = true) ->
  In x l -> f x = true -> g x = false ->
  length (List.filter g l) < length (List.filter f l).
Proof.
  intros Himp Hx Hf Hg.
  assert (Hle : forall l0 : list A,
            (forall a, In a l0 -> g a = true -> f a = true) ->
            length (List.filter g l0) <= length (List.filter f l0)).
  { induction l0 as [| a l0 IH]; intros Hl0; cbn; [done |].
    assert (IH' := IH (fun b Hb => Hl0 b (or_intror Hb))).
    destruct (g a) eqn:Hga.
    - rewrite (Hl0 a (or_introl eq_refl) Hga). cbn. lia.
    - destruct (f a); cbn; lia. }
  induction l as [| a l IH]; [destruct Hx |].
  cbn. destruct Hx as [-> | Hx].
  - rewrite Hf, Hg. cbn.
    pose proof (Hle l (fun b Hb => Himp b (or_intror Hb))). lia.
  - assert (IH' := IH (fun b Hb => Himp b (or_intror Hb)) Hx).
    destruct (g a) eqn:Hga.
    + rewrite (Himp a (or_introl eq_refl) Hga). cbn. lia.
    + destruct (f a); cbn; lia.
Qed.

(** A round in which a record is to be skipped leaves fewer records pending. *)
Lemma skipRound_progress st r :
  In r records -> toBeSkipped opts remote records st r = true ->
  pendingCount records (Orchestrator.skipRound opts remote records st)
  < pendingCount records st.
Proof.
  intros Hr Htrigger. rewrite skipRound_fold.
  set (step := fun acc r => if toBeSkipped opts remote records acc r then _ else acc).
  assert (Hfirst : forall l st0,
    (exists r0, In r0 l /\ toBeSkipped opts remote records st0 r0 = true) ->
    exists r0, Orchestrator.statusOf st0 (Orchestrator.sourceKey r0) = Pending
               /\ In r0 l
               /\ Orchestrator.statusOf (fold_left step l st0) (Orchestrator.sourceKey r0)
                  <> Pending).
  { induction l as [| a l IH]; intros st0 (r0 & Hin & Ht); [destruct Hin |].
    cbn. unfold step at 2.
    destruct (toBeSkipped opts remote records st0 a) eqn:Ha.
    - exists a. unfold toBeSkipped in Ha.
      apply andb_true_iff in Ha as [Ha _]. apply andb_true_iff in Ha as [Hp _].
      apply isPending_spec in Hp. split; [done |]. split; [by left |].
      destruct (skipFold_status l
                  (<[Orchestrator.sourceKey a :=
                       {| Orchestrator.status := Skipped;
                          Orchestrator.recordId := None |}]> st0)
                  (Orchestrator.sourceKey a)) as [Heq | [_ Hs]].
      + fold step in Heq. rewrite Heq, statusOf_insert, decide_True; done.
      + fold step in Hs. by rewrite Hs.
    - destruct Hin as [-> | Hin]; [congruence |].
      destruct (IH st0) as (r1 & Hp & Hin1 & Hne); [by exists r0 |].
      exists r1. split; [done |]. split; [by right | done]. }
  destruct (Hfirst records st) as (r0 & Hp & Hin & Hne); [by exists r |].
  unfold pendingCount. apply (filter_length_lt _ _ _ r0); [| done | |].
  - intros a _ Ha. apply isPending_spec in Ha. apply isPending_spec.
    destruct (skipFold_status records st (Orchestrator.sourceKey a)) as [Heq | [? _]];
      [| done].
    fold step in Heq. congruence.
  - by apply isPending_spec.
  - apply not_true_is_false. intros Hc. apply isPending_spec in Hc. done.
Qed.

(** After as many rounds as there are pending records no record is left to
    be skipped. *)
Lemma propagate_settles rounds : forall st,
  pendingCount records st <= rounds ->
  forall r, In r records ->
    toBeSkipped opts remote records
      (Orchestrator.propagate opts remote records rounds st) r = false.
Proof.
  assert (Hstable : forall n st,
    (forall r, In r records -> toBeSkipped opts remote records st r = false) ->
    Orchestrator.propagate opts remote records n st = st).
  { induction n as [| n IH]; intros st Hst; cbn; [done |].
    rewrite skipRound_stable by done. by apply IH. }
  induction rounds as [| n IH]; intros st Hcount r Hr.
  - cbn. unfold toBeSkipped.
    destruct (Orchestrator.isPending st r) eqn:Hp; [| done].
    exfalso. unfold pendingCount in Hcount.
    assert (Hin : In r (List.filter (Orchestrator.isPending st) records))
      by (by apply filter_In).
    destruct (List.filter _ records); [destruct Hin | cbn in Hcount; lia].
  - cbn.
    destruct (forallb (fun r0 => negb (toBeSkipped opts remote records st r0)) records)
      eqn:Hall.
    + assert (Hnone : forall r0, In r0 records ->
                toBeSkipped opts remote records st r0 = false).
      { intros r0 Hr0. rewrite forallb_forall in Hall.
        by apply negb_true_iff, Hall. }
      rewrite skipRound_stable, Hstable by done. by apply Hnone.
    + assert (Hsome : exists r0, In r0 records
                        /\ toBeSkipped opts remote records st r0 = true).
      { destruct (existsb (toBeSkipped opts remote records st) records) eqn:Hex.
        - apply existsb_exists in Hex. done.
        - exfalso. assert (Hcontra : forallb
            (fun r0 => negb (toBeSkipped opts remote records st r0)) records = true);
            [| congruence].
          apply forallb_forall. intros r0 Hr0. apply negb_true_iff.
          apply not_true_is_false. intros Ht.
          assert (existsb (toBeSkipped opts remote records st) records = true);
            [| congruence].
          apply existsb_exists. by exists r0. }
      destruct Hsome as (r0 & Hr0 & Ht).
      pose proof (skipRound_progress st r0 Hr0 Ht). apply IH; [lia | done].
Qed.

Lemma pendingCount_bound st : pendingCount records st <= length records.
Proof. unfold pendingCount. apply filter_length_le. Qed.

Lemma NoDup_keys_eq (r r' : Orchestrator.DeploymentRecord) :
  List.NoDup (List.map Orchestrator.sourceKey records) ->
  In r records -> In r' records ->
  Orchestrator.sourceKey r = Orchestrator.sourceKey r' -> r = r'.
Proof.
  induction records as [| a l IH]; cbn; [done |].
  intros Hnd [-> | Hr] [-> | Hr'] Hkey; [done | | |].
  - inversion Hnd as [| ? ? Hnotin _]; subst. destruct Hnotin.
    rewrite Hkey. by apply in_map.
  - inversion Hnd as [| ? ? Hnotin _]; subst. destruct Hnotin.
    rewrite <- Hkey. by apply in_map.
  - inversion Hnd; subst. by apply IH.
Qed.


Lemma fold_advances {A} (step : gmap string Orchestrator.RecordStatus -> A ->
                                gmap string Orchestrator.RecordStatus) (l : list A) :
  (forall st a, advances st (step st a)) ->
  forall st, advances st (fold_left step l st).
Proof.
  intros Hstep. induction l as [| a l IH]; intros st; cbn; [apply advances_refl |].
  eapply advances_trans; [apply Hstep | apply IH].
Qed.

Lemma skipRound_advances st : advances st (Orchestrator.skipRound opts remote records st).
Proof.
  unfold Orchestrator.skipRound. apply fold_advances. intros st0 r.
  destruct (Orchestrator.isPending st0 r && _ && _) eqn:Hc; [| apply advances_refl].
  apply andb_true_iff in Hc as [Hc _]. apply andb_true_iff in Hc as [Hp _].
  apply advances_insert. by apply isPending_spec.
Qed.

Lemma propagate_advances rounds : forall st,
  advances st (Orchestrator.propagate opts remote records rounds st).
Proof.
  induction rounds as [| n IH]; intros st; cbn; [apply advances_refl |].
  eapply advances_trans; [apply skipRound_advances | apply IH].
Qed.

(** *** The graph that is built *)

Lemma build_status k :
  Orchestrator.statusOf (Orchestrator.build records) k = Pending
  \/ (Orchestrator.statusOf (Orchestrator.build records) k = Failed
      /\ exists r, In r records /\ Orchestrator.sourceKey r = k
                   /\ Orchestrator.onCycle records r = true).
Proof.
  unfold Orchestrator.build.
  match goal with |- context [fold_left ?f records ∅] => set (step := f) end.
  assert (Hgen : forall l st,
    (forall r, In r l -> In r records) ->
    Orchestrator.statusOf (fold_left step l st) k = Orchestrator.statusOf st k
    \/ (Orchestrator.statusOf (fold_left step l st) k = Failed
        /\ exists r, In r records /\ Orchestrator.sourceKey r = k
                     /\ Orchestrator.onCycle records r = true)).
  { induction l as [| r l IH]; intros st Hl; cbn; [by left |].
    destruct (IH (step st r) (fun r' Hr' => Hl r' (or_intror Hr'))) as [Heq | Hfailed];
      [| by right].
    rewrite Heq. unfold step.
    destruct (Orchestrator.onCycle records r) eqn:Hcycle; [| by left].
    rewrite statusOf_insert. destruct (decide (Orchestrator.sourceKey r = k)) as [<- |];
      [| by left].
    right. split; [done |]. exists r. split; [apply Hl; by left | done]. }
  destruct (Hgen records ∅) as [Heq | Hfailed]; [done | | by right].
  left. rewrite Heq. unfold Orchestrator.statusOf. by rewrite lookup_empty.
Qed.

Lemma build_cycle r :
  In r records -> Orchestrator.onCycle records r = true ->
  Orchestrator.statusOf (Orchestrator.build records) (Orchestrator.sourceKey r) = Failed.
Proof.
  unfold Orchestrator.build.
  match goal with |- context [fold_left ?f records ∅] => set (step := f) end.
  assert (Hkeep : forall l st k,
    Orchestrator.statusOf st k = Failed ->
    Orchestrator.statusOf (fold_left step l st) k = Failed).
  { induction l as [| a l IH]; intros st k Hk; cbn; [done |].
    apply IH. unfold step. destruct (Orchestrator.onCycle records a); [| done].
    rewrite statusOf_insert. by destruct (decide _). }
  assert (Hgen : forall l st,
    In r l -> Orchestrator.onCycle records r = true ->
    Orchestrator.statusOf (fold_left step l st) (Orchestrator.sourceKey r) = Failed).
  { induction l as [| a l IH]; intros st Hin Hcycle; [destruct Hin |].
    cbn. destruct Hin as [-> | Hin]; [| by apply IH].
    apply Hkeep. unfold step. rewrite Hcycle, statusOf_insert. by rewrite decide_True. }
  apply Hgen.
Qed.

(** *** The hooks and the results of a group *)

Lemma applyHooks_advances wave members st :
  advances st (Orchestrator.applyHooks hooks wave members st).
Proof.
  unfold Orchestrator.applyHooks. apply fold_advances. intros st0 r.
  destruct (Orchestrator.isPending st0 r) eqn:Hp; [| apply advances_refl].
  apply isPending_spec in Hp.
  destruct (hooks wave r) as [[|] |]; [| | apply advances_refl]; by apply advances_insert.
Qed.

Lemma applyHooks_status wave members : forall st k,
  Orchestrator.statusOf (Orchestrator.applyHooks hooks wave members st) k
    = Orchestrator.statusOf st k
  \/ (Orchestrator.statusOf st k = Pending
      /\ (Orchestrator.statusOf (Orchestrator.applyHooks hooks wave members st) k = Skipped
          \/ (Orchestrator.statusOf (Orchestrator.applyHooks hooks wave members st) k
                = Failed
              /\ exists r, In r members /\ Orchestrator.sourceKey r = k
                           /\ hooks wave r = Some Orchestrator.markFailed))).
Proof.
  induction members as [| r members IH]; intros st k; [by left |].
  unfold Orchestrator.applyHooks. cbn [fold_left].
  match goal with
  | |- context [fold_left ?f members ?s] =>
      change (fold_left f members s) with (Orchestrator.applyHooks hooks wave members s);
      set (st1 := s)
  end.
  assert (Hstep : Orchestrator.statusOf st1 k = Orchestrator.statusOf st k
                  \/ (Orchestrator.statusOf st k = Pending
                      /\ (Orchestrator.statusOf st1 k = Skipped
                          \/ (Orchestrator.statusOf st1 k = Failed
                              /\ Orchestrator.sourceKey r = k
                              /\ hooks wave r = Some Orchestrator.markFailed)))).
  { unfold st1. destruct (Orchestrator.isPending st r) eqn:Hp; [| by left].
    apply isPending_spec in Hp.
    destruct (hooks wave r) as [[|] |] eqn:Hhook; [| | by left];
      rewrite statusOf_insert; destruct (decide (Orchestrator.sourceKey r = k)) as [<- |];
      try (by left); right; (split; [done |]); [by left | by right]. }
  destruct (IH st1 k) as [Heq | (Hp1 & Hlater)].
  - rewrite Heq. destruct Hstep as [? | (Hp & [Hs | (Hf & Hk & Hhook)])]; [by left | |].
    + right. split; [done |]. by left.
    + right. split; [done |]. right. split; [done |]. exists r. split; [by left | done].
  - destruct Hstep as [Heq | (Hp & [Hs | (Hf & _)])]; [| congruence | congruence].
    right. split; [congruence |].
    destruct Hlater as [Hs | (Hf & r' & Hr' & Hk & Hhook)]; [by left |].
    right. split; [done |]. exists r'. split; [by right | done].
Qed.

Lemma statusFrom_settled res :
  Orchestrator.status (Orchestrator.statusFrom res) = Deployed
  \/ Orchestrator.status (Orchestrator.statusFrom res) = Failed.
Proof. unfold Orchestrator.statusFrom. destruct (RecordBatch.success res); auto. Qed.

Lemma recordResults_other results : forall st k,
  (forall rr, In rr results -> Orchestrator.sourceKey (fst rr) <> k) ->
  fold_left Orchestrator.recordResult results st !! k = st !! k.
Proof.
  induction results as [| rr results IH]; intros st k Hother; cbn; [done |].
  rewrite IH by (intros rr' Hrr'; apply Hother; by right).
  unfold Orchestrator.recordResult. apply lookup_insert_ne. apply Hother. by left.
Qed.

Lemma recordResults_settled results st k :
  (exists rr, In rr results /\ Orchestrator.sourceKey (fst rr) = k) ->
  Orchestrator.statusOf (fold_left Orchestrator.recordResult results st) k = Deployed
  \/ Orchestrator.statusOf (fold_left Orchestrator.recordResult results st) k = Failed.
Proof.
  induction results as [| rr results IH] using rev_ind; intros (rr0 & Hin & Hk);
    [destruct Hin |].
  rewrite fold_left_app. cbn [fold_left].
  assert (Hinsert : forall st0,
    Orchestrator.statusOf (Orchestrator.recordResult st0 rr) k
    = if decide (Orchestrator.sourceKey (fst rr) = k)
      then Orchestrator.status (Orchestrator.statusFrom (snd rr))
      else Orchestrator.statusOf st0 k) by (intros st0; apply statusOf_insert).
  rewrite !Hinsert.
  destruct (decide (Orchestrator.sourceKey (fst rr) = k)) as [Heq | Hne];
    [apply statusFrom_settled |].
  apply IH. exists rr0. split; [| done].
  apply in_app_or in Hin as [Hin | [<- | []]]; [done | congruence].
Qed.

Lemma recordResults_advances results st :
  (forall rr, In rr results ->
     Orchestrator.statusOf st (Orchestrator.sourceKey (fst rr)) = Pending) ->
  advances st (fold_left Orchestrator.recordResult results st).
Proof.
  intros Hpending k Hk. apply recordResults_other.
  intros rr Hrr Heq. apply Hk. rewrite <- Heq. by apply Hpending.
Qed.

Lemma remoteCall_contract round chunk results :
  Orchestrator.remoteCall remote round chunk = Ok results -> length results = length chunk.
Proof.
  unfold Orchestrator.remoteCall. destruct (Orchestrator.chunkError remote round chunk);
    [discriminate |].
  intros [= <-]. apply length_map.
Qed.

(** *** The invariants of the loop *)

Lemma submissionsInOrder_advances st st' trace :
  submissionsInOrder opts remote records st trace -> advances st st' ->
  submissionsInOrder opts remote records st' trace.
Proof.
  intros Hinv Hadv sub Hsub.
  destruct (Hinv sub Hsub) as (Hin & Hp & Hready & Hbuilt & Hsnap & Hdone).
  split; [done |]. split; [done |]. split; [done |]. split; [done |].
  split; [by eapply advances_trans |].
  destruct Hdone as [Hd | Hf]; [left | right];
    rewrite (advances_status st st' _ Hadv); congruence.
Qed.

Lemma accounted_propagate rounds st trace :
  submissionsAccounted hooks records st trace ->
  submissionsAccounted hooks records
    (Orchestrator.propagate opts remote records rounds st) trace.
Proof.
  intros (Hdeployed & Hfailed & Hstat). split; [| split].
  - intros k Hk. apply Hdeployed.
    destruct (propagate_status rounds st k) as [<- | [_ Hs]]; [done | congruence].
  - intros k Hk. apply Hfailed.
    destruct (propagate_status rounds st k) as [<- | [_ Hs]]; [done | congruence].
  - intros k. destruct (propagate_status rounds st k) as [-> | [_ ->]]; [apply Hstat | done].
Qed.

Section Waves.
Hypothesis chunkSize_positive :
  0 < RecordBatch.chunkSize (Orchestrator.batchOptions opts).
Hypothesis retryChunkSize_positive :
  0 < RecordBatch.retryChunkSize (Orchestrator.batchOptions opts).

(** One group: the records handed over were Pending and ready, every
    member of the group is settled afterwards, and nothing that was settled
    has changed. *)
Lemma deployGroup_spec wave st0 acc group :
  (forall r, In r (snd group) ->
     In r records /\ Orchestrator.ready opts remote records st0 r = true) ->
  advances (Orchestrator.build records) (fst acc) ->
  advances st0 (fst acc) ->
  submissionsInOrder opts remote records (fst acc) (snd acc) ->
  submissionsAccounted hooks records (fst acc) (snd acc) ->
  let acc' := Orchestrator.deployGroup opts remote hooks wave acc group in
  advances (fst acc) (fst acc')
  /\ submissionsInOrder opts remote records (fst acc') (snd acc')
  /\ submissionsAccounted hooks records (fst acc') (snd acc')
  /\ (forall r, In r (snd group) ->
        Orchestrator.statusOf (fst acc') (Orchestrator.sourceKey r) <> Pending).
Proof.
  destruct acc as [st trace]. destruct group as [g members]. cbn [fst snd].
  intros Hmembers Hbuilt Hst0 Hinv (Hdeployed & Hfailed & Hstat).
  unfold Orchestrator.deployGroup. cbn [snd].
  set (marked := Orchestrator.applyHooks hooks wave members st).
  set (subs := List.filter (Orchestrator.isPending marked) members).
  pose proof (execute_calls (Orchestrator.remoteCall remote) (Orchestrator.batchOptions opts)
                subs chunkSize_positive retryChunkSize_positive) as Hcalls.
  pose proof (execute_results (Orchestrator.remoteCall remote)
                (Orchestrator.batchOptions opts) subs chunkSize_positive
                retryChunkSize_positive remoteCall_contract) as Hresults.
  destruct (RecordBatch.execute _ _ subs) as [calls results]. cbn [fst snd] in *.
  set (st' := fold_left Orchestrator.recordResult results marked).
  assert (Hmarked : advances st marked) by apply applyHooks_advances.
  assert (Hsubs : forall r, In r subs <->
            In r members /\ Orchestrator.statusOf marked (Orchestrator.sourceKey r) = Pending).
  { intros r. unfold subs. rewrite filter_In, isPending_spec. done. }
  assert (Hkeys : forall rr, In rr results -> In (fst rr) subs).
  { intros rr Hrr. apply list_elem_of_In. rewrite <- Hresults. apply list_elem_of_In.
    by apply in_map. }
  assert (Hcovered : forall r, In r subs ->
            exists rr, In rr results /\ Orchestrator.sourceKey (fst rr) = Orchestrator.sourceKey r).
  { intros r Hr. apply list_elem_of_In in Hr. rewrite <- Hresults in Hr.
    apply list_elem_of_In, in_map_iff in Hr as (rr & <- & Hrr). by exists rr. }
  assert (Hst' : advances marked st').
  { apply recordResults_advances. intros rr Hrr. by apply Hsubs, Hkeys. }
  assert (Hadv : advances st st') by (by eapply advances_trans).
  assert (Hlookup : forall k,
    (exists r, In r subs /\ Orchestrator.sourceKey r = k
               /\ (Orchestrator.statusOf st' k = Deployed
                   \/ Orchestrator.statusOf st' k = Failed))
    \/ Orchestrator.statusOf st' k = Orchestrator.statusOf marked k).
  { intros k.
    destruct (decide (k ∈ List.map (fun rr => Orchestrator.sourceKey (fst rr)) results))
      as [Hin | Hout].
    - left. apply list_elem_of_In, in_map_iff in Hin as (rr & <- & Hrr).
      exists (fst rr). split; [by apply Hkeys |]. split; [done |].
      apply recordResults_settled. by exists rr.
    - right. unfold Orchestrator.statusOf, st'. rewrite recordResults_other; [done |].
      intros rr Hrr Heq. apply Hout, list_elem_of_In, in_map_iff. by exists rr. }
  split; [exact Hadv |]. split; [| split; [split; [| split] |]].
  - intros sub Hsub. apply in_app_or in Hsub as [Hsub | Hsub].
    + by apply (submissionsInOrder_advances st st' trace Hinv Hadv).
    + apply in_map_iff in Hsub as (r & <- & Hr). cbn [Orchestrator.submitted
        Orchestrator.snapshot].
      apply Hcalls, Hsubs in Hr as [Hr Hp].
      destruct (Hmembers r Hr) as [Hin Hready].
      split; [done |]. split; [done |].
      split; [apply (ready_advances st0); [done | by eapply advances_trans] |].
      split; [by eapply advances_trans |]. split; [done |].
      apply recordResults_settled. apply Hcovered, Hsubs. by split.
  - intros k Hk. destruct (Hlookup k) as [(r & Hr & <- & _) | Heq].
    + exists {| Orchestrator.submitted := r; Orchestrator.snapshot := marked |}.
      split; [| done]. apply in_or_app. right. apply in_map_iff.
      exists r. split; [done | by apply Hcalls].
    + rewrite Heq in Hk.
      destruct (applyHooks_status wave members st k) as [Hsame | (_ & [Hs | (Hf & _)])];
        fold marked in Hsame || fold marked in Hs || fold marked in Hf; [| congruence ..].
      destruct (Hdeployed k) as (sub & Hsub & Hkey); [congruence |].
      exists sub. split; [apply in_or_app; by left | done].
  - intros k Hk. destruct (Hlookup k) as [(r & Hr & <- & _) | Heq].
    + left. exists {| Orchestrator.submitted := r; Orchestrator.snapshot := marked |}.
      split; [| done]. apply in_or_app. right. apply in_map_iff.
      exists r. split; [done | by apply Hcalls].
    + rewrite Heq in Hk.
      destruct (applyHooks_status wave members st k)
        as [Hsame | (_ & [Hs | (_ & r & Hr & Hkey & Hhook)])].
      * fold marked in Hsame. destruct (Hfailed k) as [(sub & Hsub & Hkey) | Hother];
          [congruence | | by right].
        left. exists sub. split; [apply in_or_app; by left | done].
      * fold marked in Hs. congruence.
      * right. exists r. split; [by apply Hmembers |]. split; [done |]. right. by exists wave.
  - intros k. destruct (Hlookup k) as [(r & _ & _ & [Hd | Hf]) | Heq].
    + by rewrite Hd.
    + by rewrite Hf.
    + rewrite Heq.
      destruct (applyHooks_status wave members st k) as [Hsame | (_ & [Hs | (Hf & _)])].
      * fold marked in Hsame. rewrite Hsame. apply Hstat.
      * fold marked in Hs. by rewrite Hs.
      * fold marked in Hf. by rewrite Hf.
  - intros r Hr.
    destruct (decide (Orchestrator.statusOf marked (Orchestrator.sourceKey r) = Pending))
      as [Hp | Hp].
    + destruct (recordResults_settled results marked (Orchestrator.sourceKey r))
        as [Hd | Hf]; [apply Hcovered, Hsubs; by split | |]; fold st' in Hd || fold st' in Hf;
        congruence.
    + rewrite (advances_status marked st' _ Hst' Hp). done.
Qed.

(** The groups of a wave, one after the other. *)
Lemma deployGroups_spec wave st0 groups : forall acc,
  (forall g ms r, In (g, ms) groups -> In r ms ->
     In r records /\ Orchestrator.ready opts remote records st0 r = true) ->
  advances (Orchestrator.build records) (fst acc) ->
  advances st0 (fst acc) ->
  submissionsInOrder opts remote records (fst acc) (snd acc) ->
  submissionsAccounted hooks records (fst acc) (snd acc) ->
  let acc' := fold_left (Orchestrator.deployGroup opts remote hooks wave) groups acc in
  advances (fst acc) (fst acc')
  /\ submissionsInOrder opts remote records (fst acc') (snd acc')
  /\ submissionsAccounted hooks records (fst acc') (snd acc')
  /\ (forall g ms r, In (g, ms) groups -> In r ms ->
        Orchestrator.statusOf (fst acc') (Orchestrator.sourceKey r) <> Pending).
Proof.
  induction groups as [| [g ms] groups IH]; intros acc Hall Hbuilt Hst0 Hinv Hacc; cbn zeta.
  { cbn. split; [apply advances_refl |]. split; [done |]. split; [done |]. intros ? ? ? []. }
  cbn [fold_left].
  destruct (deployGroup_spec wave st0 acc (g, ms)) as (Hadv & Hinv1 & Hacc1 & Hsettled);
    [intros r Hr; apply (Hall g ms r); [by left | done] | done | done | done | done |].
  destruct (IH (Orchestrator.deployGroup opts remote hooks wave acc (g, ms)))
    as (Hadv2 & Hinv2 & Hacc2 & Hsettled2);
    [intros g' ms' r Hg Hr; apply (Hall g' ms' r); [by right | done]
    | by eapply advances_trans | by eapply advances_trans | done | done |].
  split; [by eapply advances_trans |]. split; [done |]. split; [done |].
  intros g' ms' r [Heq | Hg] Hr; [| by apply (Hsettled2 g' ms' r)].
  injection Heq as <- <-.
  rewrite (advances_status _ _ _ Hadv2); by apply Hsettled.
Qed.

Lemma nextGroups_selected st g ms r :
  In (g, ms) (Orchestrator.nextGroups opts remote records st) -> In r ms ->
  In r records
  /\ Orchestrator.statusOf st (Orchestrator.sourceKey r) = Pending
  /\ Orchestrator.ready opts remote records st r = true.
Proof.
  unfold Orchestrator.nextGroups. intros Hg Hr.
  pose proof (groupBy_members _ _ g ms r Hg Hr) as Hin.
  apply filter_In in Hin as [Hin Hc]. unfold Orchestrator.schedulable in Hc.
  apply andb_true_iff in Hc as [Hc _]. apply andb_true_iff in Hc as [Hp Hready].
  apply isPending_spec in Hp. done.
Qed.

(** A wave that deploys something leaves fewer records pending. *)
Lemma wave_progress wave acc :
  Orchestrator.nextGroups opts remote records (fst acc) <> [] ->
  advances (Orchestrator.build records) (fst acc) ->
  submissionsInOrder opts remote records (fst acc) (snd acc) ->
  submissionsAccounted hooks records (fst acc) (snd acc) ->
  pendingCount records
    (Orchestrator.propagate opts remote records (length records)
       (fst (fold_left (Orchestrator.deployGroup opts remote hooks wave)
               (Orchestrator.nextGroups opts remote records (fst acc)) acc)))
  < pendingCount records (fst acc).
Proof.
  intros Hne Hbuilt Hinv Hacc.
  destruct (deployGroups_spec wave (fst acc)
              (Orchestrator.nextGroups opts remote records (fst acc)) acc)
    as (Hadv & _ & _ & Hsettled);
    [intros g ms r Hg Hr; by destruct (nextGroups_selected _ g ms r Hg Hr) as (? & _ & ?)
    | done | apply advances_refl | done | done |].
  set (st' := fst (fold_left _ _ acc)) in *.
  pose proof (propagate_advances (length records) st') as Hprop.
  assert (Hall : advances (fst acc)
                   (Orchestrator.propagate opts remote records (length records) st'))
    by (by eapply advances_trans).
  destruct (Orchestrator.nextGroups opts remote records (fst acc)) as [| [g ms] groups]
    eqn:Hgroups; [done |].
  assert (Hms : ms <> []).
  { unfold Orchestrator.nextGroups in Hgroups.
    eapply (proj2 (groupBy_nonempty Orchestrator.sobjectType _) g ms).
    rewrite Hgroups. by left. }
  destruct ms as [| r ms]; [done |].
  destruct (nextGroups_selected (fst acc) g (r :: ms) r) as (Hr & Hp & _);
    [rewrite Hgroups; by left | by left |].
  unfold pendingCount. apply (filter_length_lt _ _ _ r); [| done | by apply isPending_spec |].
  - intros a _ Ha. apply isPending_spec in Ha. apply isPending_spec.
    destruct (decide (Orchestrator.statusOf (fst acc) (Orchestrator.sourceKey a) = Pending))
      as [? | Hsettled0]; [done |].
    rewrite (advances_status _ _ _ Hall Hsettled0) in Ha. done.
  - apply not_true_is_false. intros Hc. apply isPending_spec in Hc.
    assert (Hs : Orchestrator.statusOf st' (Orchestrator.sourceKey r) <> Pending)
      by (apply (Hsettled g (r :: ms) r); by left).
    rewrite (advances_status _ _ _ Hprop Hs) in Hc. done.
Qed.

(** The loop keeps its invariants, ends in a state in which no record is
    left to be skipped, and, with enough fuel for the pending records and
    without cancellation, ends because no pending record can be scheduled. *)
Lemma deployLoop_spec cancelled fuel : forall wave acc,
  advances (Orchestrator.build records) (fst acc) ->
  submissionsInOrder opts remote records (fst acc) (snd acc) ->
  submissionsAccounted hooks records (fst acc) (snd acc) ->
  (forall r, In r records -> toBeSkipped opts remote records (fst acc) r = false) ->
  let outcome := Orchestrator.deployLoop opts remote hooks records fuel wave cancelled acc in
  advances (Orchestrator.build records) (fst outcome)
  /\ submissionsInOrder opts remote records (fst outcome) (snd outcome)
  /\ submissionsAccounted hooks records (fst outcome) (snd outcome)
  /\ (forall r, In r records -> toBeSkipped opts remote records (fst outcome) r = false)
  /\ ((forall n, cancelled n = false) -> pendingCount records (fst acc) < fuel ->
      Orchestrator.nextGroups opts remote records (fst outcome) = []).
Proof.
  induction fuel as [| fuel IH]; intros wave acc Hbuilt Hinv Hacc Hsettled; cbn zeta.
  { cbn. repeat (split; [done |]). intros _ Hcount. lia. }
  cbn [Orchestrator.deployLoop].
  destruct (cancelled wave) eqn:Hcancelled.
  { repeat (split; [done |]). intros Hnever. by rewrite Hnever in Hcancelled. }
  destruct (isEmpty (Orchestrator.nextGroups opts remote records (fst acc))) eqn:He.
  { repeat (split; [done |]). intros _ _. by apply isEmpty_true. }
  apply isEmpty_false in He.
  pose proof (wave_progress wave acc He Hbuilt Hinv Hacc) as Hprogress.
  destruct (deployGroups_spec wave (fst acc)
              (Orchestrator.nextGroups opts remote records (fst acc)) acc)
    as (Hadv & Hinv1 & Hacc1 & _);
    [intros g ms r Hg Hr; by destruct (nextGroups_selected _ g ms r Hg Hr) as (? & _ & ?)
    | done | apply advances_refl | done | done |].
  destruct (fold_left _ _ acc) as [st trace]. cbn [fst snd] in *.
  destruct (IH (S wave)
              (Orchestrator.propagate opts remote records (length records) st, trace))
    as (Hb & Hi & Ha & Hs & Hc); cbn [fst snd].
  - eapply advances_trans; [exact Hbuilt |].
    eapply advances_trans; [exact Hadv | apply propagate_advances].
  - eapply submissionsInOrder_advances; [exact Hinv1 | apply propagate_advances].
  - by apply accounted_propagate.
  - apply propagate_settles, pendingCount_bound.
  - repeat (split; [done |]). intros Hnever Hcount. apply Hc; [done | cbn [fst]; lia].
Qed.

(** [start] gives the loop what it needs. *)
Lemma start_spec cancelled :
  let outcome := Orchestrator.start opts remote hooks records cancelled in
  advances (Orchestrator.build records) (fst outcome)
  /\ submissionsInOrder opts remote records (fst outcome) (snd outcome)
  /\ submissionsAccounted hooks records (fst outcome) (snd outcome)
  /\ (forall r, In r records -> toBeSkipped opts remote records (fst outcome) r = false)
  /\ ((forall n, cancelled n = false) ->
      Orchestrator.nextGroups opts remote records (fst outcome) = []).
Proof.
  cbn zeta. unfold Orchestrator.start.
  destruct (deployLoop_spec cancelled (S (length records)) 0
              (Orchestrator.propagate opts remote records (length records)
                 (Orchestrator.build records), []))
    as (Hb & Hi & Ha & Hs & Hc); cbn [fst snd].
  - apply propagate_advances.
  - intros sub [].
  - apply accounted_propagate. split; [| split].
    + intros k Hk. destruct (build_status k) as [Hp | [Hf _]]; congruence.
    + intros k Hk. destruct (build_status k) as [Hp | [_ (r & Hr & Hkey & Hcycle)]];
        [congruence |].
      right. exists r. split; [done |]. split; [done |]. by left.
    + intros k. destruct (build_status k) as [-> | [-> _]]; done.
  - apply propagate_settles, pendingCount_bound.
  - repeat (split; [done |]). intros Hnever. apply Hc; [done |].
    cbn [fst]. pose proof (pendingCount_bound
      (Orchestrator.propagate opts remote records (length records)
         (Orchestrator.build records))). lia.
Qed.

(** C4, as the spec has it: a record R with a matching-key dependency on a
    record S of the deployment is handed to the remote API only at a moment
    when S lets it through: S is Deployed, or S is Failed and
    [lookupFailedDependencies] found its key in the org, or
    [allowUnresolvedDependencies] is set and S is Failed or Skipped; and the
    status S has at that moment is its final status.  Every record handed
    over was Pending and every entry of its dependency set let it through.
    A record that ends Skipped and a member of a cycle, which ends Failed,
    are never handed over.  In the default configuration R is handed over
    only with S Deployed, every record handed over had the records of its
    dependency set Deployed and its lookups resolved, and when S ends Failed
    or Skipped, R is never handed over and ends Skipped, or Failed as a
    member of a cycle or at the hands of a hook (the source keys being
    unique).  A run that is not cancelled goes on until no Pending record can
    be scheduled: a record that is still Pending has an entry that does not
    let it through or, in strict order, depends on a Pending record. *)
Theorem dependents_deploy_after_dependencies
    (cancelled : nat -> bool) (R S : Orchestrator.DeploymentRecord) (type : string) :
  In R records -> In S records ->
  In (MatchingKeyDependency type (Orchestrator.sourceKey S)) (Orchestrator.dependencies R) ->
  let final := fst (Orchestrator.start opts remote hooks records cancelled) in
  let trace := snd (Orchestrator.start opts remote hooks records cancelled) in
  (forall sub, In sub trace -> Orchestrator.submitted sub = R ->
     (Orchestrator.statusOf (Orchestrator.snapshot sub) (Orchestrator.sourceKey S) = Deployed
      \/ (Orchestrator.lookupFailedDependencies opts = true
          /\ Orchestrator.statusOf (Orchestrator.snapshot sub) (Orchestrator.sourceKey S)
             = Failed
          /\ is_Some (Orchestrator.lookupKey remote (Orchestrator.sourceKey S)))
      \/ (Orchestrator.allowUnresolvedDependencies opts = true
          /\ (Orchestrator.statusOf (Orchestrator.snapshot sub) (Orchestrator.sourceKey S)
                = Failed
              \/ Orchestrator.statusOf (Orchestrator.snapshot sub)
                   (Orchestrator.sourceKey S) = Skipped)))
     /\ Orchestrator.statusOf final (Orchestrator.sourceKey S)
        = Orchestrator.statusOf (Orchestrator.snapshot sub) (Orchestrator.sourceKey S))
  /\ (forall sub, In sub trace ->
        In (Orchestrator.submitted sub) records
        /\ Orchestrator.statusOf (Orchestrator.snapshot sub)
             (Orchestrator.sourceKey (Orchestrator.submitted sub)) = Pending
        /\ (forall e, In e (Orchestrator.dependencySet records (Orchestrator.submitted sub)) ->
              letsThrough opts remote (Orchestrator.snapshot sub) e)
        /\ (Orchestrator.statusOf final (Orchestrator.sourceKey (Orchestrator.submitted sub))
              = Deployed
            \/ Orchestrator.statusOf final
                 (Orchestrator.sourceKey (Orchestrator.submitted sub)) = Failed))
  /\ (Orchestrator.statusOf final (Orchestrator.sourceKey R) = Skipped
      \/ Orchestrator.onCycle records R = true ->
      forall sub, In sub trace ->
        Orchestrator.sourceKey (Orchestrator.submitted sub) <> Orchestrator.sourceKey R)
  /\ (Orchestrator.onCycle records R = true ->
      Orchestrator.statusOf final (Orchestrator.sourceKey R) = Failed)
  /\ (Orchestrator.lookupFailedDependencies opts = false ->
      Orchestrator.allowUnresolvedDependencies opts = false ->
      (forall sub, In sub trace -> Orchestrator.submitted sub = R ->
         Orchestrator.statusOf (Orchestrator.snapshot sub) (Orchestrator.sourceKey S)
           = Deployed
         /\ Orchestrator.statusOf final (Orchestrator.sourceKey S) = Deployed)
      /\ (forall sub e, In sub trace ->
            In e (Orchestrator.dependencySet records (Orchestrator.submitted sub)) ->
            match e with
            | Orchestrator.InDeployment k =>
                Orchestrator.statusOf (Orchestrator.snapshot sub) k = Deployed
            | Orchestrator.External k => is_Some (Orchestrator.lookupKey remote k)
            end)
      /\ (List.NoDup (List.map Orchestrator.sourceKey records) ->
          Orchestrator.statusOf final (Orchestrator.sourceKey S) = Failed
          \/ Orchestrator.statusOf final (Orchestrator.sourceKey S) = Skipped ->
          (Orchestrator.statusOf final (Orchestrator.sourceKey R) = Skipped
           \/ (Orchestrator.statusOf final (Orchestrator.sourceKey R) = Failed
               /\ (Orchestrator.onCycle records R = true
                   \/ exists wave, hooks wave R = Some Orchestrator.markFailed)))
          /\ forall sub, In sub trace -> Orchestrator.submitted sub <> R))
  /\ ((forall n, cancelled n = false) ->
      forall r, In r records ->
        Orchestrator.statusOf final (Orchestrator.sourceKey r) = Pending ->
        (exists e, In e (Orchestrator.dependencySet records r)
                   /\ ~ letsThrough opts remote final e)
        \/ (Orchestrator.strictOrder opts = true
            /\ exists k, In k (Orchestrator.transitiveDependencies records r)
                         /\ Orchestrator.statusOf final k = Pending)).
Proof.
  intros HR HS Hdep final trace.
  destruct (start_spec cancelled) as (Hbuilt & Hinv & (Hdeployed & Hfailed & Hstat)
                                      & Hsettled & Hcomplete).
  fold final in Hbuilt, Hinv, Hdeployed, Hfailed, Hstat, Hsettled, Hcomplete.
  fold trace in Hinv, Hdeployed, Hfailed.
  assert (Hentry : In (Orchestrator.InDeployment (Orchestrator.sourceKey S))
                      (Orchestrator.dependencySet records R)).
  { unfold Orchestrator.dependencySet. apply in_map_iff.
    exists (MatchingKeyDependency type (Orchestrator.sourceKey S)). split; [| done].
    cbn. assert (Hin : Orchestrator.inDeployment records (Orchestrator.sourceKey S) = true).
    { unfold Orchestrator.inDeployment. apply existsb_exists. exists S.
      split; [done | apply String.eqb_refl]. }
    by rewrite Hin. }
  assert (Horder : forall sub, In sub trace -> Orchestrator.submitted sub = R ->
    letsThrough opts remote (Orchestrator.snapshot sub)
      (Orchestrator.InDeployment (Orchestrator.sourceKey S))
    /\ Orchestrator.statusOf final (Orchestrator.sourceKey S)
       = Orchestrator.statusOf (Orchestrator.snapshot sub) (Orchestrator.sourceKey S)).
  { intros sub Hsub Heq.
    destruct (Hinv sub Hsub) as (_ & _ & Hready & _ & Hadv & _).
    rewrite Heq in Hready.
    pose proof (proj1 (ready_spec _ _) Hready _ Hentry) as Hlet.
    split; [exact Hlet |]. apply (advances_status _ _ _ Hadv).
    cbn in Hlet. destruct Hlet as [Hd | [(_ & Hf & _) | (_ & [Hf | Hs])]]; congruence. }
  assert (Hcycle : Orchestrator.onCycle records R = true ->
            Orchestrator.statusOf final (Orchestrator.sourceKey R) = Failed).
  { intros Hc. rewrite (advances_status _ _ _ Hbuilt); rewrite (build_cycle R HR Hc); done. }
  split; [exact Horder |].
  split.
  { intros sub Hsub. destruct (Hinv sub Hsub) as (Hin & Hp & Hready & _ & _ & Hdone).
    split; [done |]. split; [done |]. split; [by apply ready_spec | done]. }
  split.
  { intros Hnever sub Hsub Hkey.
    destruct (Hinv sub Hsub) as (_ & Hp & _ & Hsnap & _ & Hdone). rewrite Hkey in Hp, Hdone.
    destruct Hnever as [Hskipped | Hc].
    - destruct Hdone; congruence.
    - rewrite (advances_status _ _ _ Hsnap) in Hp;
        rewrite (build_cycle R HR Hc) in *; done. }
  split; [exact Hcycle |].
  split.
  { intros Hlookup Hallow.
    assert (Hdefault : forall sub, In sub trace -> Orchestrator.submitted sub = R ->
      Orchestrator.statusOf (Orchestrator.snapshot sub) (Orchestrator.sourceKey S)
        = Deployed
      /\ Orchestrator.statusOf final (Orchestrator.sourceKey S) = Deployed).
    { intros sub Hsub Heq. destruct (Horder sub Hsub Heq) as [Hlet Hsame]. cbn in Hlet.
      destruct Hlet as [Hd | [(Hl & _) | (Ha & _)]]; [| congruence | congruence].
      split; [done | congruence]. }
    split; [exact Hdefault |]. split.
    - intros sub e Hsub He. destruct (Hinv sub Hsub) as (_ & _ & Hready & _).
      pose proof (proj1 (ready_spec _ _) Hready _ He) as Hlet.
      destruct e as [k | k]; cbn in Hlet.
      + destruct Hlet as [Hd | [(Hl & _) | (Ha & _)]]; [done | congruence | congruence].
      + destruct Hlet as [Hfound | Ha]; [done | congruence].
    - intros Hnodup HfailedS.
      assert (Hnever : forall sub, In sub trace -> Orchestrator.submitted sub <> R).
      { intros sub Hsub Heq. destruct (Hdefault sub Hsub Heq) as [_ Hd].
        destruct HfailedS; congruence. }
      split; [| exact Hnever].
      destruct (Orchestrator.statusOf final (Orchestrator.sourceKey R)) eqn:HstatusR.
      + exfalso. specialize (Hsettled R HR). unfold toBeSkipped in Hsettled.
        assert (Hp : Orchestrator.isPending final R = true) by (by apply isPending_spec).
        rewrite Hp, Hallow in Hsettled. cbn in Hsettled.
        assert (Hex : existsb (Orchestrator.unresolvable opts remote final)
                        (Orchestrator.dependencySet records R) = true); [| congruence].
        apply existsb_exists. exists (Orchestrator.InDeployment (Orchestrator.sourceKey S)).
        split; [done |]. unfold Orchestrator.unresolvable, Orchestrator.resolve.
        destruct HfailedS as [Hf | Hf]; rewrite Hf, ?Hlookup; reflexivity.
      + exfalso. by destruct (Hstat (Orchestrator.sourceKey R)).
      + exfalso. by destruct (Hstat (Orchestrator.sourceKey R)).
      + exfalso. destruct (Hdeployed (Orchestrator.sourceKey R)) as (sub & Hsub & Hkey);
          [done |].
        apply (Hnever sub Hsub). apply NoDup_keys_eq; [done | | done | done].
        by destruct (Hinv sub Hsub).
      + right. split; [done |].
        destruct (Hfailed (Orchestrator.sourceKey R))
          as [(sub & Hsub & Hkey) | (r & Hr & Hkey & Hwhy)]; [done | |].
        * exfalso. apply (Hnever sub Hsub). apply NoDup_keys_eq; [done | | done | done].
          by destruct (Hinv sub Hsub).
        * by rewrite <- (NoDup_keys_eq r R Hnodup Hr HR Hkey).
      + by left. }
  intros Hnever r Hr Hpending.
  specialize (Hcomplete Hnever). unfold Orchestrator.nextGroups in Hcomplete.
  assert (Hnone : Orchestrator.schedulable opts remote records final r = false).
  { destruct (Orchestrator.schedulable opts remote records final r) eqn:Hs; [| done].
    exfalso.
    assert (Hin : In r (List.filter (Orchestrator.schedulable opts remote records final)
                          records)) by (by apply filter_In).
    destruct (List.filter _ records) as [| a l] eqn:Hfilter; [done |].
    by apply (proj1 (groupBy_nonempty Orchestrator.sobjectType (a :: l))). }
  unfold Orchestrator.schedulable in Hnone.
  rewrite (proj2 (isPending_spec final r) Hpending) in Hnone. cbn [andb] in Hnone.
  destruct (Orchestrator.ready opts remote records final r) eqn:Hready.
  - right. cbn [andb] in Hnone. apply orb_false_iff in Hnone as [Hstrict Htransitive].
    apply negb_false_iff in Hstrict. split; [done |].
    apply forallb_false in Htransitive as (k & Hk & Hkp).
    exists k. split; [done |]. by apply negb_false_iff, bool_decide_eq_true in Hkp.
  - left. unfold Orchestrator.ready in Hready.
    apply forallb_false in Hready as (e & He & Hfalse).
    exists e. split; [done |]. intros Hlet. apply entry_letsThrough in Hlet. congruence.
Qed.
End Waves.
End DeploymentOrder.

(** The first scenario of the spec: the contact that depends on the
    account is handed to the remote API after it, when the account is
    Deployed, and both end Deployed. *)
Lemma dependents_deploy_after_dependencies_witness :
  let outcome := Orchestrator.start Orchestrator.defaultOptions acceptingOrg noHooks
                   [contactRecord; accountRecord] (fun _ => false) in
  List.map Orchestrator.submitted (snd outcome) = [accountRecord; contactRecord]
  /\ Orchestrator.statusOf (fst outcome) "a1" = Deployed
  /\ Orchestrator.statusOf (fst outcome) "c1" = Deployed
  /\ forall sub, In sub (snd outcome) -> Orchestrator.submitted sub = contactRecord ->
       Orchestrator.statusOf (Orchestrator.snapshot sub) "a1" = Deployed.
Proof.
  split; [reflexivity |]. split; [reflexivity |]. split; [reflexivity |].
  intros sub Hsub Hsubmitted.
  destruct (dependents_deploy_after_dependencies Orchestrator.defaultOptions acceptingOrg
              noHooks [contactRecord; accountRecord] ltac:(cbn; lia) ltac:(cbn; lia)
              (fun _ => false) contactRecord accountRecord "Account"
              (or_introl eq_refl) (or_intror (or_introl eq_refl)) (or_introl eq_refl))
    as (_ & _ & _ & _ & Hdefault & _).
  destruct (Hdefault eq_refl eq_refl) as (Horder & _).
  by destruct (Horder sub Hsub Hsubmitted).
Defined.

(** C4 does not hold as stated: with [lookupFailedDependencies] the
    dependency on the failed account is looked up in the org, and the contact
    is handed to the remote API and deployed although the account Failed, and
    is not Skipped. *)
Lemma dependent_deployed_although_dependency_failed :
  let outcome :=
    Orchestrator.start
      {| Orchestrator.batchOptions := RecordBatch.defaultOptions;
         Orchestrator.lookupFailedDependencies := true;
         Orchestrator.allowUnresolvedDependencies := false;
         Orchestrator.strictOrder := false |}
      rejectingOrg noHooks [contactRecord; accountRecord] (fun _ => false) in
  In (MatchingKeyDependency "Account" (Orchestrator.sourceKey accountRecord))
     (Orchestrator.dependencies contactRecord)
  /\ Orchestrator.statusOf (fst outcome) "a1" = Failed
  /\ Orchestrator.statusOf (fst outcome) "c1" = Deployed
  /\ List.map (fun sub => (Orchestrator.sourceKey (Orchestrator.submitted sub),
                           Orchestrator.statusOf (Orchestrator.snapshot sub) "a1"))
       (snd outcome)
     = [("a1", Pending); ("a1", Pending); ("c1", Failed)].
Proof. repeat split; by left. Qed.

(** The second scenario of the spec: the insert of the account fails, also
    when it is retried, and the contact that depends on it ends Skipped,
    without being handed to the remote API. *)
Example failed_dependency_skips_dependent :
  let outcome := Orchestrator.start Orchestrator.defaultOptions rejectingOrg noHooks
                   [contactRecord; accountRecord] (fun _ => false) in
  Orchestrator.statusOf (fst outcome) "a1" = Failed
  /\ Orchestrator.statusOf (fst outcome) "c1" = Skipped
  /\ List.map Orchestrator.submitted (snd outcome) = [accountRecord; accountRecord].
Proof. repeat split. Qed.

(** The cycle of the spec: two records that require each other end Failed
    and are never handed to the remote API; a record that requires neither
    is deployed. *)
Example cycle_members_fail_alone :
  let outcome := Orchestrator.start Orchestrator.defaultOptions acceptingOrg noHooks
                   [cycleA; cycleB; unrelatedC] (fun _ => false) in
  Orchestrator.onCycle [cycleA; cycleB; unrelatedC] cycleA = true
  /\ Orchestrator.onCycle [cycleA; cycleB; unrelatedC] cycleB = true
  /\ Orchestrator.onCycle [cycleA; cycleB; unrelatedC] unrelatedC = false
  /\ Orchestrator.statusOf (fst outcome) "A" = Failed
  /\ Orchestrator.statusOf (fst outcome) "B" = Failed
  /\ Orchestrator.statusOf (fst outcome) "C" = Deployed
  /\ List.map Orchestrator.submitted (snd outcome) = [unrelatedC].
Proof. repeat split. Qed.

(** * Further properties of the deployer *)

(** ** The dispatcher *)

Section DispatchOrder.
Context `{Collaborators}.

Lemma runSpecsFrom_positions specs : forall i eventType opts w,
  exists calls,
    invocations (fst (runSpecsFrom i specs eventType opts w)) = invocations w ++ calls
    /\ StronglySorted lt (List.map invokedSpec calls)
    /\ Forall (fun inv => i <= invokedSpec inv < i + length specs) calls.
Proof.
  induction specs as [| [spec flt] rest IH]; intros i eventType opts w.
  { exists []. cbn. rewrite app_nil_r. repeat split; constructor. }
  assert (Hskip : forall w',
    invocations w' = invocations w ->
    exists calls,
      invocations (fst (runSpecsFrom (S i) rest eventType opts w')) = invocations w ++ calls
      /\ StronglySorted lt (List.map invokedSpec calls)
      /\ Forall (fun inv => i <= invokedSpec inv < i + length ((spec, flt) :: rest)) calls).
  { intros w' Hw'. destruct (IH (S i) eventType opts w') as (calls & Heq & Hsorted & Hbound).
    exists calls. rewrite Heq, Hw'. repeat split; [done |].
    eapply Forall_impl; [exact Hbound |]. cbn. intros inv ?. lia. }
  assert (Hcall : forall w' p,
    invocations w' = invocations w ++
      [{| invokedSpec := i; invokedFunction := eventType; invokedWith := p |}] ->
    exists calls,
      invocations (fst (runSpecsFrom (S i) rest eventType opts w')) = invocations w ++ calls
      /\ StronglySorted lt (List.map invokedSpec calls)
      /\ Forall (fun inv => i <= invokedSpec inv < i + length ((spec, flt) :: rest)) calls).
  { intros w' p Hw'.
    destruct (IH (S i) eventType opts w') as (calls & Heq & Hsorted & Hbound).
    exists ({| invokedSpec := i; invokedFunction := eventType; invokedWith := p |} :: calls).
    rewrite Heq, Hw', <- app_assoc. repeat split; [| constructor].
    - cbn. constructor; [done |]. apply Forall_map.
      eapply Forall_impl; [exact Hbound |]. cbn. intros inv ?. lia.
    - cbn. lia.
    - eapply Forall_impl; [exact Hbound |]. cbn. intros inv ?. lia. }
  spec_step spec eventType flt opts fn w.
  - refine (Hcall _ _ _); reflexivity.
  - exists [{| invokedSpec := i; invokedFunction := eventType; invokedWith := specParams |}].
    repeat split; [| repeat constructor; cbn; lia].
    cbn. repeat constructor.
  - refine (Hcall _ _ _); reflexivity.
  - by apply Hskip.
  - exists []. cbn. rewrite app_nil_r. repeat split; constructor.
  - by apply Hskip.
Qed.

(** X1: [runSpecFunction] walks the registry once, from the first spec to the
    last: the calls it adds to the trace are in strictly increasing order of
    the position of the spec in the registry, so no spec function is called
    twice for one event and a spec registered earlier is served first. *)
Theorem spec_functions_called_in_registry_order
    (specs : list (DatapackDeploymentSpec * DatapackFilter)) (eventType : EventType)
    (opts : DeploymentSpecExecuteOptions) (w : World) :
  exists calls,
    invocations (fst (runSpecFunction specs eventType opts w)) = invocations w ++ calls
    /\ StronglySorted lt (List.map invokedSpec calls)
    /\ List.NoDup (List.map invokedSpec calls)
    /\ forall inv, In inv calls ->
         invokedFunction inv = eventType /\ invokedSpec inv < length specs.
Proof.
  unfold runSpecFunction.
  destruct (runSpecsFrom_positions specs 0 eventType opts w) as (calls & Heq & Hsorted & Hbound).
  destruct (runSpecsFrom_invocations_sound specs 0 eventType opts w)
    as (calls' & Heq' & Hcalls').
  assert (calls' = calls) as -> by (rewrite Heq' in Heq; by apply app_inv_head in Heq).
  exists calls. split; [done |]. split; [done |]. split.
  - clear -Hsorted. induction Hsorted as [| p l Hs IH Hall]; [constructor |].
    constructor; [| done]. intros Hin. rewrite List.Forall_forall in Hall.
    specialize (Hall p Hin). lia.
  - intros inv Hin. split; [by apply Hcalls' |].
    rewrite List.Forall_forall in Hbound. specialize (Hbound inv Hin). lia.
Qed.
End DispatchOrder.

(** ** Datapacks handed to spec functions *)

Section DatapackPayload.
Context `{Collaborators}.

Lemma evalFilterDatapack_spec (flt : DatapackFilter) (d : VlocityDatapack) :
  evalFilterDatapack flt d = true <-> datapackMatches flt d.
Proof.
  unfold evalFilterDatapack, datapackMatches.
  rewrite orb_true_iff, !matches_spec. tauto.
Qed.

Lemma narrow_datapack (flt : DatapackFilter) (d : VlocityDatapack) (rest : list Param) :
  (narrow flt (PDatapack d :: rest) = SkipSpec /\ ~ datapackMatches flt d)
  \/ (narrow flt (PDatapack d :: rest) = Invoke (PDatapack d :: rest)
      /\ datapackMatches flt d).
Proof.
  cbn. destruct (evalFilterDatapack flt d) eqn:Hf.
  - right. split; [done |]. by apply evalFilterDatapack_spec.
  - left. split; [done |]. rewrite <- evalFilterDatapack_spec. congruence.
Qed.

(** X2: a spec function that takes a datapack, as [preprocess] does, is
    called for the datapacks that concern its spec and for no other: the
    datapack type has to meet the datapack filter or the sobject type,
    without its namespace prefix, the record filter.  The datapack is handed
    over as it is; when the dispatch is not aborted by a throwing function,
    every registered function that the datapack concerns has been called. *)
Theorem datapack_functions_called_on_matching_datapacks
    (specs : list (DatapackDeploymentSpec * DatapackFilter)) (eventType : EventType)
    (opts : DeploymentSpecExecuteOptions) (datapack : VlocityDatapack) (rest : list Param)
    (w : World) :
  args opts = PDatapack datapack :: rest ->
  let outcome := runSpecFunction specs eventType opts w in
  (exists calls,
     invocations (fst outcome) = invocations w ++ calls
     /\ forall inv, In inv calls ->
          invokedWith inv = PDatapack datapack :: rest
          /\ exists spec flt fn,
               specs !! invokedSpec inv = Some (spec, flt)
               /\ specFunction spec eventType = Some fn
               /\ datapackMatches flt datapack)
  /\ (snd outcome = Ok tt ->
      forall j spec flt fn,
        specs !! j = Some (spec, flt) ->
        specFunction spec eventType = Some fn ->
        datapackMatches flt datapack ->
        In {| invokedSpec := j; invokedFunction := eventType;
              invokedWith := PDatapack datapack :: rest |}
           (invocations (fst outcome))).
Proof.
  intros Hargs outcome. subst outcome. unfold runSpecFunction. split.
  - destruct (runSpecsFrom_invocations_sound specs 0 eventType opts w)
      as (calls & Heq & Hcalls).
    exists calls. split; [done |]. intros inv Hin.
    destruct (Hcalls inv Hin) as (_ & j & spec & flt & fn & Hj & Hspec & Hfn & Hnarrow).
    rewrite Hargs in Hnarrow.
    destruct (narrow_datapack flt datapack rest) as [[Hn _] | [Hn Hm]];
      rewrite Hn in Hnarrow; [discriminate |].
    injection Hnarrow as Hwith. split; [done |].
    exists spec, flt, fn. cbn in Hj. rewrite Hj. done.
  - intros Hok j spec flt fn Hj Hfn Hm.
    destruct (runSpecsFrom 0 specs eventType opts w) as [w' r] eqn:Hrun.
    cbn in Hok. subst r. cbn.
    apply (runSpecsFrom_invocations_complete specs 0 eventType opts w w' Hrun j spec flt fn);
      try done.
    rewrite Hargs.
    destruct (narrow_datapack flt datapack rest) as [[_ Hn] | [Hn _]]; [done | done].
Qed.
End DatapackPayload.

(** The [preprocess] function of a spec filtered on the datapack type
    'Account' is called for an account datapack. *)
Lemma datapack_functions_called_on_matching_datapacks_witness :
  In {| invokedSpec := 0; invokedFunction := fn_preprocess;
        invokedWith := [PDatapack accountDatapack] |}
     (invocations (fst (runSpecFunction (H := sampleCollaborators) [(quietSpec, accountFilter)]
        fn_preprocess
        {| args := [PDatapack accountDatapack]; ignoreErrors := false; errorSeverity := None |}
        emptyWorld))).
Proof.
  refine (proj2 (datapack_functions_called_on_matching_datapacks
    (H := sampleCollaborators) [(quietSpec, accountFilter)] fn_preprocess
    {| args := [PDatapack accountDatapack]; ignoreErrors := false; errorSeverity := None |}
    accountDatapack [] emptyWorld eq_refl) eq_refl 0 quietSpec accountFilter
    (fun _ st => (st, None)) eq_refl eq_refl _).
  left. cbn. split; [discriminate | reflexivity].
Defined.

(** ** What the event handlers do to a run *)

Lemma flat_map_nil {A B} (f : A -> list B) (l : list A) :
  (forall a, In a l -> f a = []) -> flat_map f l = [].
Proof.
  induction l as [| a l IH]; intros Hall; cbn; [done |].
  rewrite (Hall a (or_introl eq_refl)), IH; [done |]. intros b Hb. apply Hall. by right.
Qed.

(** A field that was described was asked for by name. *)
Lemma describedFields_In org type fieldNames fields field :
  describedFields org type fieldNames fields -> In field fields ->
  exists name, In name fieldNames /\ describeSObjectField org type name = Ok (Some field).
Proof.
  intros (described & Hall & ->). induction Hall as [| name d names ds Hd Hrest IH]; cbn.
  - intros [].
  - destruct d as [f |]; cbn.
    + intros [<- | Hin]; [exists name; split; [by left | done] |].
      destruct (IH Hin) as (name' & ? & ?). exists name'. split; [by right | done].
    + intros Hin. destruct (IH Hin) as (name' & ? & ?). exists name'. split; [by right | done].
Qed.

Lemma updatesForTypes_nil org st fieldNames groups :
  (forall type members, In (type, members) groups ->
     Deployer.updatesForType org st fieldNames type members = Ok []) ->
  Deployer.updatesForTypes org st fieldNames groups = Ok [].
Proof.
  induction groups as [| [type members] rest IH]; intros Hall; cbn; [done |].
  rewrite (Hall type members (or_introl eq_refl)), IH; [done |].
  intros type' members' Hin. apply Hall. by right.
Qed.

Section VerificationEdges.

(** X3: the post-deploy verification does nothing that the model records,
    neither an info or error line in the log (the verbose line of line 240
    is not modelled) nor a change of the trigger state nor a call of the
    batch, when for every type with a Deployed record the org has none of the
    fields, or every value found in the org is the value deployed; which
    includes the case that no record is Deployed. *)
Theorem verification_without_mismatch_changes_nothing
    (org : Org) (records : list DatapackDeploymentRecord) (fieldNames : list string)
    (w : World) :
  let st := store w in
  let deployed := List.filter (fun r => isDeployed (stateOf st r)) records in
  (forall type members,
     In (type, members) (groupBy sobjectType deployed) ->
     exists fields,
       describedFields org type fieldNames fields
       /\ (fields = []
           \/ forall ids,
                deployedIds st members ids ->
                exists orgData,
                  lookupById org ids (List.map fieldName fields) = Ok orgData
                  /\ forall result field v,
                       In result orgData -> In field fields ->
                       deployedValueIs st members (Id result) (fieldName field) v ->
                       fieldValue (fieldName field) (orgValues result) = v)) ->
  Deployer.verifyDeployedFieldData org records fieldNames w = (w, Ok tt).
Proof.
  intros st deployed Hwork.
  assert (Hbatch : Deployer.verificationBatch org st records fieldNames = Ok []).
  { unfold Deployer.verificationBatch. fold deployed. apply updatesForTypes_nil.
    intros type members Hgroup. unfold Deployer.updatesForType.
    destruct (Hwork type members Hgroup) as (fields & Hdescribed & Hsame).
    apply describeFields_spec in Hdescribed. rewrite Hdescribed.
    destruct Hsame as [-> | Hsame]; [done |].
    destruct (isEmpty fields); [done |].
    destruct (Hsame _ (mapKeys_deployedIds st members)) as (orgData & -> & Hvalues).
    f_equal. apply flat_map_nil. intros result Hresult. unfold Deployer.updateFor.
    replace (Deployer.mismatchedFieldData st members fields result) with
      (@nil (string * JsValue)); [done |].
    symmetry. unfold Deployer.mismatchedFieldData. apply filter_nil_iff.
    intros [n v] Hin. apply in_map_iff in Hin as (field & Heq & Hfield).
    injection Heq as <- <-. cbn. unfold strictNotEqual.
    rewrite (Hvalues result field _ Hresult Hfield
               (proj2 (deployedValueIs_spec _ _ _ _ _) eq_refl)).
    by rewrite bool_decide_eq_true_2. }
  unfold Deployer.verifyDeployedFieldData. fold st. by rewrite Hbatch.
Qed.

(** X4: an update of the corrective batch names a record type with a Deployed
    record, and it is never empty: it sets at least one field, and every
    field it sets is one of the fields asked for, under the name the org
    gives it on that type. *)
Theorem corrective_updates_are_not_empty
    (org : Org) (st : Store) (records : list DatapackDeploymentRecord)
    (fieldNames : list string) (recordBatch : list (string * RecordUpdate))
    (type : string) (update : RecordUpdate) :
  Deployer.verificationBatch org st records fieldNames = Ok recordBatch ->
  In (type, update) recordBatch ->
  updateFields update <> []
  /\ (exists r, In r records /\ isDeployed (stateOf st r) = true /\ sobjectType r = type)
  /\ forall n v, In (n, v) (updateFields update) ->
       exists name field,
         In name fieldNames
         /\ describeSObjectField org type name = Ok (Some field)
         /\ fieldName field = n.
Proof.
  unfold Deployer.verificationBatch. intros Hbatch Hin.
  destruct (updatesForTypes_spec _ _ _ _ _ Hbatch) as [_ Hsound].
  destruct (Hsound _ Hin) as (type' & members & updates & Hgroup & Hupdates & Hx).
  destruct (updatesForType_spec _ _ _ _ _ _ Hupdates) as (fields & Hdescribed & Hnone & Hwork).
  destruct fields as [| field0 fields'] eqn:Hfields.
  { rewrite (Hnone eq_refl) in Hx. destruct Hx. }
  destruct (Hwork ltac:(discriminate)) as (orgData & _ & Hiff).
  apply Hiff in Hx as (result & -> & _ & Hne & ->). cbn [updateFields].
  split; [done |]. split.
  - destruct members as [| r members'] eqn:Hm.
    { by destruct (proj2 (groupBy_nonempty sobjectType _) _ _ Hgroup). }
    assert (Hr : In r (r :: members')) by (by left).
    pose proof (groupBy_members sobjectType _ _ _ r Hgroup Hr) as Hrec.
    apply filter_In in Hrec as [Hrec Hdep].
    exists r. split; [done |]. split; [done |].
    by apply (groupBy_keys sobjectType _ _ _ r Hgroup Hr).
  - intros n v Hnv. apply mismatchedFieldData_spec in Hnv as ((field & Hfield & <-) & _).
    destruct (describedFields_In _ _ _ _ field Hdescribed Hfield) as (name & Hname & Hd).
    by exists name, field.
Qed.
End VerificationEdges.

(** The contact is Deployed and the org has the global key that was
    deployed: the verification describes the field, looks the contact up and
    leaves the world as it is. *)
Lemma verification_without_mismatch_changes_nothing_witness :
  Deployer.verifyDeployedFieldData syncedOrg [contact1] Deployer.criticalFields
    deployedContactWorld
  = (deployedContactWorld, Ok tt).
Proof.
  apply verification_without_mismatch_changes_nothing.
  intros type members Hgroup.
  assert (type = "Contact" /\ members = [contact1]) as [-> ->].
  { destruct Hgroup as [Heq | []]. by injection Heq as <- <-. }
  exists [textField "GlobalKey__c"]. split.
  - exists [Some (textField "GlobalKey__c"); None; None].
    split; [repeat constructor | reflexivity].
  - right. intros ids [_ Hids].
    assert (Hid : In (Some "003000000000001") ids).
    { apply Hids. exists contact1. split; [by left | reflexivity]. }
    eexists. split.
    + cbn. unfold lookupContact.
      rewrite bool_decide_eq_true_2 by (by apply list_elem_of_In). reflexivity.
    + intros result field v [<- | []] [<- | []] Hv.
      apply deployedValueIs_spec in Hv. subst v. reflexivity.
Defined.

(** The update of the drifted contact is made for a Deployed contact. *)
Lemma corrective_updates_are_not_empty_witness :
  exists r,
    In r [contact1] /\ isDeployed (stateOf (store deployedContactWorld) r) = true
    /\ sobjectType r = "Contact".
Proof.
  refine (proj1 (proj2 (corrective_updates_are_not_empty driftedOrg
    (store deployedContactWorld) [contact1] Deployer.criticalFields
    [("Contact", {| updateId := "003000000000001";
                    updateFields := [("GlobalKey__c", JString "key-1")] |})]
    "Contact"
    {| updateId := "003000000000001"; updateFields := [("GlobalKey__c", JString "key-1")] |}
    eq_refl _))).
  by left.
Defined.

Section HandlerOutcomes.
Context `{Collaborators}.
Variable specs : list (DatapackDeploymentSpec * DatapackFilter).

(** X5: no spec function can make a run fail: the four handlers contain every
    error of a spec function.  When the handlers reject the events of a run,
    the error is one with which the org rejected a remote call of the handler
    of a record event: the call that disables the triggers in the handler of
    [beforeDeployRecord], or a call of the handler of [afterDeployRecord],
    which enables the triggers, describes the fields, looks up the org data
    and sends the corrective batch. *)
Theorem handlers_reject_only_errors_of_the_org
    (d : DatapackDeployment) (emissions : list Deployer.Emission) (w w' : World)
    (err : Error) :
  Deployer.emitAll specs d emissions w = (w', Throw err) ->
  exists e,
    In e emissions
    /\ match Deployer.event e with
       | Deployer.emit_beforeDeployRecord _ =>
           disableTriggers (options d) = true
           /\ (triggerSetupRead (Deployer.org e) inBeforeDeployRecord = Some err
               \/ triggerSetupWrite (Deployer.org e) inBeforeDeployRecord = Some err)
       | Deployer.emit_afterDeployRecord _ => orgRaises (Deployer.org e) err
       | _ => False
       end.
Proof.
  revert w. induction emissions as [| e rest IH]; intros w; cbn; [discriminate |].
  destruct (Deployer.handle specs d e w) as [w1 [[] | e1]] eqn:Hhandle.
  - intros Hrest. destruct (IH _ Hrest) as (e' & Hin & ?).
    exists e'. split; [by right | done].
  - intros [= -> ->]. exists e. split; [by left |].
    assert (Hsnd : snd (Deployer.handle specs d e w) = Throw err) by (by rewrite Hhandle).
    destruct (Deployer.event e) as [groups | records | records | groups] eqn:Hevent.
    + destruct (handle_groupEvent specs d e w) as [Hok _]; [eexists; by left |]. congruence.
    + unfold Deployer.handle in Hsnd. rewrite Hevent in Hsnd.
      match type of Hsnd with
      | snd (Deployer.beforeDeployRecord _ ?org ?dep ?rs ?w0) = _ =>
          destruct (beforeDeployRecord_outcome specs org dep rs w0) as (_ & _ & _ & _ & Hthrow)
      end.
      destruct (Hthrow err Hsnd) as (Hon & _ & Hcall). done.
    + unfold Deployer.handle in Hsnd. rewrite Hevent in Hsnd.
      by eapply afterDeployRecord_raises.
    + destruct (handle_groupEvent specs d e w) as [Hok _]; [eexists; by right |]. congruence.
Qed.

(** X6: when the option [disableTriggers] is off, the handlers leave the
    trigger state of the org as they find it, with one exception: a
    corrective update, which ends with the triggers enabled whatever their
    state was before, when the org lets the two calls that switch the
    triggers through. *)
Theorem triggers_untouched_unless_corrected
    (d : DatapackDeployment) (e : Deployer.Emission) (w : World) :
  disableTriggers (options d) = false ->
  match Deployer.event e with
  | Deployer.emit_afterDeployRecord datapackRecords =>
      let recordBatch :=
        Deployer.verificationBatch (Deployer.org e) (Deployer.progress e (store w))
          datapackRecords Deployer.criticalFields in
      (Deployer.cancelled e = true \/ recordBatch = Ok []
       \/ (exists err, recordBatch = Throw err) ->
       triggerSetup (fst (Deployer.handle specs d e w)) = triggerSetup w)
      /\ (forall update updates,
            Deployer.cancelled e = false ->
            recordBatch = Ok (update :: updates) ->
            accepts (Deployer.org e) beforeCorrection ->
            accepts (Deployer.org e) afterCorrection ->
            triggerSetup (fst (Deployer.handle specs d e w)) = Some true)
  | _ => triggerSetup (fst (Deployer.handle specs d e w)) = triggerSetup w
  end.
Proof.
  intros Hoff.
  destruct (Deployer.event e) as [groups | records | records | groups] eqn:Hevent.
  - destruct (handle_groupEvent specs d e w) as [_ Ht]; [eexists; by left | done].
  - unfold Deployer.handle. rewrite Hevent.
    match goal with
    | |- triggerSetup (fst (Deployer.beforeDeployRecord _ ?org ?dep ?rs ?w0)) = _ =>
        destruct (beforeDeployRecord_outcome specs org dep rs w0) as (_ & _ & _ & Ht & _)
    end.
    by rewrite Ht.
  - cbn zeta. unfold Deployer.handle. rewrite Hevent.
    unfold Deployer.afterDeployRecord. cbn [options isCancelled]. rewrite Hoff.
    set (w1 := withStore (Deployer.progress e (store w)) w).
    split.
    + intros Hnothing. destruct (Deployer.cancelled e); [done |].
      assert (Hv : Deployer.verifyDeployedFieldData (Deployer.org e) records
                     Deployer.criticalFields w1
                   = (w1, match Deployer.verificationBatch (Deployer.org e) (store w1) records
                                  Deployer.criticalFields with
                          | Ok _ => Ok tt
                          | Throw err => Throw err
                          end)).
      { unfold Deployer.verifyDeployedFieldData.
        destruct Hnothing as [? | [Hb | [err Hb]]]; [done | |]; cbn [store w1 withStore];
          by rewrite Hb. }
      rewrite Hv.
      destruct (Deployer.verificationBatch _ _ _ _); [| done].
      unfold runSpecFunction. by rewrite runSpecsFrom_triggerSetup.
    + intros update updates -> Hb Hbefore Hafter.
      pose proof (verifyDeployedFieldData_finally (Deployer.org e) records
                    Deployer.criticalFields w1 update updates Hb Hbefore Hafter) as Hv.
      destruct (Deployer.verifyDeployedFieldData _ _ _ _) as [w2 [[] | err]]; cbn in Hv.
      * unfold runSpecFunction. by rewrite runSpecsFrom_triggerSetup.
      * done.
  - destruct (handle_groupEvent specs d e w) as [_ Ht]; [eexists; by right | done].
Qed.
End HandlerOutcomes.

(** A run whose corrective update cannot be sent is rejected with the error
    of the connection. *)
Lemma handlers_reject_only_errors_of_the_org_witness :
  exists e,
    In e [afterContactDeployed unreachableOrg]
    /\ match Deployer.event e with
       | Deployer.emit_beforeDeployRecord _ =>
           disableTriggers (options plainDeployment) = true
           /\ (triggerSetupRead (Deployer.org e) inBeforeDeployRecord
                 = Some (ErrorMsg "socket hang up")
               \/ triggerSetupWrite (Deployer.org e) inBeforeDeployRecord
                  = Some (ErrorMsg "socket hang up"))
       | Deployer.emit_afterDeployRecord _ =>
           orgRaises (Deployer.org e) (ErrorMsg "socket hang up")
       | _ => False
       end.
Proof.
  eapply (handlers_reject_only_errors_of_the_org (H := sampleCollaborators) []
    plainDeployment [afterContactDeployed unreachableOrg] deployedContactWorld).
  reflexivity.
Defined.

(** The triggers were disabled by hand before the deployment; the
    correction of the drifted contact leaves them enabled. *)
Lemma triggers_untouched_unless_corrected_witness :
  triggerSetup (fst (Deployer.handle (H := sampleCollaborators) [] plainDeployment
    (afterContactDeployed driftedOrg) (withTriggerSetup (Some false) deployedContactWorld)))
  = Some true.
Proof.
  destruct (triggers_untouched_unless_corrected (H := sampleCollaborators) [] plainDeployment
    (afterContactDeployed driftedOrg) (withTriggerSetup (Some false) deployedContactWorld)
    eq_refl) as [_ Hcorrected].
  eapply Hcorrected; [reflexivity | reflexivity | by split | by split].
Defined.

(** ** Creating a deployment *)

Section CreationFacts.
Context `{Collaborators}.
Variable specs : list (DatapackDeploymentSpec * DatapackFilter).
Variable createRecords :
  VlocityDatapack -> Store -> Store * result (list DatapackDeploymentRecord).
Variable isCancellationRequested : VlocityDatapack -> bool.

(** X7: in the loop of lines 163-179 a datapack for which cancellation is
    requested when its turn comes is passed over without a trace: no spec
    function is called for it, it is not converted, nothing is logged and the
    deployment is as it was.  The loop gives what it gives for the other
    datapacks alone.  (The log line of line 180, which follows the loop and
    counts all the datapacks, is not part of it.) *)
Theorem cancelled_datapacks_are_passed_over
    (datapacks : list VlocityDatapack) (opts : DatapackDeploymentOptions)
    (d : DatapackDeployment) (w : World) :
  (forall datapack,
     isCancellationRequested datapack = true ->
     Deployer.loadDatapack specs createRecords isCancellationRequested opts datapack d w
     = (w, Ok d))
  /\ Deployer.loadDatapacks specs createRecords isCancellationRequested opts datapacks d w
     = Deployer.loadDatapacks specs createRecords isCancellationRequested opts
         (List.filter (fun datapack => negb (isCancellationRequested datapack)) datapacks)
         d w.
Proof.
  split.
  { intros datapack Hc. unfold Deployer.loadDatapack. by rewrite Hc. }
  revert d w.
  induction datapacks as [| datapack rest IH]; intros d w; [done |].
  cbn [List.filter]. destruct (isCancellationRequested datapack) eqn:Hc; cbn [negb].
  - cbn [Deployer.loadDatapacks]. unfold Deployer.loadDatapack at 1. rewrite Hc. apply IH.
  - cbn [Deployer.loadDatapacks].
    destruct (Deployer.loadDatapack _ _ _ _ _ _ _) as [w1 [d1 | err]]; [apply IH | done].
Qed.

(** X9: with [continueOnError] set, a spec function of [afterRecordConversion]
    that throws does not keep the records of the datapack out of the
    deployment: the error is contained by the dispatcher and the records are
    added. *)
Theorem failing_conversion_hook_keeps_the_records
    (opts : DatapackDeploymentOptions) (datapack : VlocityDatapack) (d : DatapackDeployment)
    (w w1 : World) (st : Store) (records : list DatapackDeploymentRecord) :
  continueOnError opts = true ->
  isCancellationRequested datapack = false ->
  runSpecFunction specs fn_preprocess
    {| args := [PDatapack datapack]; ignoreErrors := false; errorSeverity := None |} w
    = (w1, Ok tt) ->
  createRecords datapack (store w1) = (st, Ok records) ->
  snd (Deployer.loadDatapack specs createRecords isCancellationRequested opts datapack d w)
  = Ok (Deployer.add records d).
Proof.
  intros Hcontinue Hc Hpre Hcreate.
  unfold Deployer.loadDatapack, Deployer.convertDatapack.
  rewrite Hc, Hpre, Hcreate, Hcontinue.
  pose proof (runSpecsFrom_ignoreErrors specs 0 fn_afterRecordConversion
    {| args := [PRecords records]; ignoreErrors := true; errorSeverity := Some error |}
    (withStore st w1) eq_refl) as Hok.
  unfold runSpecFunction.
  destruct (runSpecsFrom 0 specs fn_afterRecordConversion _ _) as [w2 r].
  cbn in Hok. rewrite Hok; [done |]. intros. apply narrow_records_no_raise.
Qed.
End CreationFacts.

(** The record of the account datapack is added although the function of
    [afterRecordConversion] throws. *)
Lemma failing_conversion_hook_keeps_the_records_witness :
  snd (Deployer.loadDatapack (H := sampleCollaborators) [(failingConversionSpec, anyFilter)]
         sampleFactory neverCancelled continueOptions accountDatapack plainDeployment
         emptyWorld)
  = Ok (Deployer.add [account1] plainDeployment).
Proof.
  apply (failing_conversion_hook_keeps_the_records (H := sampleCollaborators)
    [(failingConversionSpec, anyFilter)] sampleFactory neverCancelled continueOptions
    accountDatapack plainDeployment emptyWorld emptyWorld ∅ [account1]
    eq_refl eq_refl eq_refl eq_refl).
Defined.

(** * Further properties of the lookup service *)

(** ** The fields selected *)

Lemma fieldSet_from (fields : list string) : forall acc,
  List.NoDup acc ->
  let result :=
    fold_left (fun acc f => if existsb (String.eqb f) acc then acc else acc ++ [f]) fields acc in
  (exists rest, result = acc ++ rest)
  /\ List.NoDup result
  /\ forall f, In f result <-> In f acc \/ In f fields.
Proof.
  induction fields as [| field fields IH]; intros acc Hnd; cbn.
  { split; [exists []; by rewrite app_nil_r |]. split; [done | tauto]. }
  destruct (existsb (String.eqb field) acc) eqn:Hex.
  - destruct (IH acc Hnd) as (Hrest & Hnd' & Hin). split; [done |]. split; [done |].
    intros f. rewrite Hin. apply existsb_exists in Hex as (x & Hx & Heq).
    apply String.eqb_eq in Heq. subst x. intuition (subst; auto).
  - assert (Hnd1 : List.NoDup (acc ++ [field])).
    { apply NoDup_ListNoDup, NoDup_app. split; [by apply NoDup_ListNoDup |].
      split; [| apply NoDup_singleton].
      intros x Hx Hx'. apply list_elem_of_In in Hx. apply list_elem_of_singleton in Hx'. subst x.
      assert (existsb (String.eqb field) acc = true); [| congruence].
      apply existsb_exists. exists field. split; [done | apply String.eqb_refl]. }
    destruct (IH (acc ++ [field]) Hnd1) as ((rest & Hrest) & Hnd' & Hin).
    split; [exists (field :: rest); by rewrite Hrest, <- app_assoc |]. split; [done |].
    intros f. rewrite Hin, in_app_iff. cbn. tauto.
Qed.

(** X10: the field Id is always selected, first and once, whether or not it is
    asked for; after it come the fields asked for, none of them twice. *)
Theorem lookup_selects_id_first_and_once (fields : list string) :
  (exists rest, Lookup.fieldSet fields = "Id" :: rest)
  /\ List.NoDup (Lookup.fieldSet fields)
  /\ forall f, In f (Lookup.fieldSet fields) <-> f = "Id" \/ In f fields.
Proof.
  unfold Lookup.fieldSet.
  destruct (fieldSet_from fields ["Id"]) as ((rest & Hrest) & Hnd & Hin).
  { repeat constructor. intros []. }
  split; [by exists rest |]. split; [done |].
  intros f. rewrite Hin. cbn. intuition.
Qed.

Section LookupQueries.
Context `{Lookup.Services}.

Lemma lookupWhere_query type where_ lookupFields limit fields :
  selectedFields type lookupFields = Ok fields ->
  Lookup.lookupWhere type where_ lookupFields limit
  = Ok (Lookup.query (selectQuery type where_ fields limit)).
Proof.
  unfold Lookup.lookupWhere, selectedFields, selectQuery. intros Hfields.
  destruct lookupFields as [| names]; [injection Hfields as <- | rewrite Hfields];
    reflexivity.
Qed.

Lemma resolveFields_unresolved type before field after :
  (forall f, In f before -> Lookup.toSalesforceField type f <> None) ->
  Lookup.toSalesforceField type field = None ->
  Lookup.resolveFields type (before ++ field :: after)
  = Throw (ErrorMsg ("Unable to resolve lookup field " +:+ field +:+ " on type " +:+ type)).
Proof.
  intros Hbefore Hfield. induction before as [| f before IH]; cbn.
  - by rewrite Hfield.
  - destruct (Lookup.toSalesforceField type f) eqn:Hf.
    + rewrite IH; [done |]. intros g Hg. apply Hbefore. by right.
    + destruct (Hbefore f (or_introl eq_refl) Hf).
Qed.

(** X11: a field asked for that the schema cannot resolve makes the lookup throw
    before anything is queried; the error names the first such field. *)
Theorem unresolved_lookup_field_is_reported
    (type : string) (filter : list Lookup.LookupFilter) (before after : list string)
    (field : string) (limit : option nat) (cancelled : nat -> bool) (filters : list string) :
  Lookup.whereClauses type filter = Ok filters ->
  cancelled 0 = false ->
  (forall f, In f before -> Lookup.toSalesforceField type f <> None) ->
  Lookup.toSalesforceField type field = None ->
  Lookup.lookup type filter (Lookup.Fields (before ++ field :: after)) limit cancelled
  = Throw (ErrorMsg ("Unable to resolve lookup field " +:+ field +:+ " on type " +:+ type)).
Proof.
  intros Hfilters Hc Hbefore Hfield. unfold Lookup.lookup. rewrite Hfilters.
  assert (Hwhere : forall where_,
    Lookup.lookupWhere type where_ (Lookup.Fields (before ++ field :: after)) limit
    = Throw (ErrorMsg ("Unable to resolve lookup field " +:+ field +:+ " on type " +:+ type))).
  { intros where_. unfold Lookup.lookupWhere.
    by rewrite resolveFields_unresolved. }
  destruct (Lookup.joinLimit _ _ _) as [| chunk rest].
  - cbn. by rewrite Hc, Hwhere.
  - destruct rest; cbn; by rewrite Hc, Hwhere.
Qed.

(** X12: a lookup that is cancelled when it reaches its loop returns no record;
    the where conditions are built before the token is read, so an error in
    a filter object is thrown all the same.  [lookupSingle] then gives
    [undefined]. *)
Theorem cancelled_lookup_returns_nothing
    (type : string) (filter : list Lookup.LookupFilter) (lookupFields : Lookup.LookupFields)
    (limit : option nat) (cancelled : nat -> bool) :
  cancelled 0 = true ->
  Lookup.lookup type filter lookupFields limit cancelled
  = match Lookup.whereClauses type filter with
    | Throw err => Throw err
    | Ok _ => Ok []
    end
  /\ Lookup.lookupSingle type filter lookupFields cancelled
     = match Lookup.whereClauses type filter with
       | Throw err => Throw err
       | Ok _ => Ok None
       end.
Proof.
  intros Hc.
  assert (Hlookup : forall limit,
    Lookup.lookup type filter lookupFields limit cancelled
    = match Lookup.whereClauses type filter with
      | Throw err => Throw err
      | Ok _ => Ok []
      end).
  { intros l. unfold Lookup.lookup.
    destruct (Lookup.whereClauses type filter) as [filters | err]; [| done].
    destruct (Lookup.joinLimit _ _ _) as [| chunk rest].
    - cbn. by rewrite Hc.
    - destruct rest; cbn; by rewrite Hc. }
  split; [apply Hlookup |]. unfold Lookup.lookupSingle. rewrite Hlookup.
  by destruct (Lookup.whereClauses type filter).
Qed.

Lemma lookupChunks_all type lookupFields limit cancelled fields :
  selectedFields type lookupFields = Ok fields ->
  (forall n, cancelled n = false) ->
  forall filterChunks first n,
    Lookup.lookupChunks type first filterChunks lookupFields limit cancelled n
    = Ok (flat_map (fun where_ => Lookup.query (selectQuery type where_ fields limit))
            (first :: List.map Some filterChunks)).
Proof.
  intros Hfields Hc. induction filterChunks as [| next rest IH]; intros first n.
  - cbn. rewrite Hc, (lookupWhere_query _ _ _ _ fields Hfields). by rewrite app_nil_r.
  - cbn [Lookup.lookupChunks]. rewrite Hc, (lookupWhere_query _ _ _ _ fields Hfields), IH.
    reflexivity.
Qed.

(** X13: a lookup that is not cancelled runs one query for each chunk of where
    conditions, in the order of the chunks, and returns the records found
    by the first query followed by those of the second, and so on; when
    there is no chunk it runs a single query that has no where clause. *)
Theorem lookup_concatenates_the_chunks
    (type : string) (filter : list Lookup.LookupFilter) (lookupFields : Lookup.LookupFields)
    (limit : option nat) (cancelled : nat -> bool) (filters fields : list string) :
  Lookup.whereClauses type filter = Ok filters ->
  selectedFields type lookupFields = Ok fields ->
  (forall n, cancelled n = false) ->
  Lookup.lookup type filter lookupFields limit cancelled
  = Ok (flat_map (fun where_ => Lookup.query (selectQuery type where_ fields limit))
          match filterChunksOf filters lookupFields with
          | [] => [None]
          | filterChunks => List.map Some filterChunks
          end).
Proof.
  intros Hfilters Hfields Hc. unfold Lookup.lookup, filterChunksOf. rewrite Hfilters.
  destruct (Lookup.joinLimit _ _ _) as [| chunk rest];
    by rewrite (lookupChunks_all _ _ _ _ fields Hfields Hc).
Qed.
End LookupQueries.

(** The field Phone is unknown to the schema of the example. *)
Lemma unresolved_lookup_field_is_reported_witness :
  Lookup.lookup (H := strictServices) "Account" [] (Lookup.Fields (["Name"] ++ "Phone" :: []))
    None (fun _ => false)
  = Throw (ErrorMsg "Unable to resolve lookup field Phone on type Account").
Proof.
  apply (unresolved_lookup_field_is_reported (H := strictServices) "Account" [] ["Name"] []
    "Phone" None (fun _ => false) [] eq_refl eq_refl); [| reflexivity].
  intros f [<- | []]. discriminate.
Defined.

Lemma cancelled_lookup_returns_nothing_witness :
  Lookup.lookupSingle (H := contactServices) "Contact" [] Lookup.AllFields (fun _ => true)
  = Ok None.
Proof.
  apply (proj2 (cancelled_lookup_returns_nothing (H := contactServices) "Contact" []
    Lookup.AllFields (Some 1) (fun _ => true) eq_refl)).
Defined.

(** Two filters that fit in one chunk: one query with both conditions. *)
Lemma lookup_concatenates_the_chunks_witness :
  Lookup.lookup (H := contactServices) "Contact"
    [Lookup.WhereString "Name = 'Peter'"; Lookup.WhereString "Name = 'ACME'"]
    (Lookup.Fields ["Name"]) None (fun _ => false)
  = Ok (Lookup.query (Services := contactServices)
          "select Id,Name from Contact where (Name = 'Peter') or (Name = 'ACME')").
Proof.
  rewrite (lookup_concatenates_the_chunks (H := contactServices) "Contact"
    [Lookup.WhereString "Name = 'Peter'"; Lookup.WhereString "Name = 'ACME'"]
    (Lookup.Fields ["Name"]) None (fun _ => false)
    ["Name = 'Peter'"; "Name = 'ACME'"] ["Name"] eq_refl eq_refl (fun _ => eq_refl)).
  reflexivity.
Defined.

(** ** Lookup by id *)

Section LookupByIdFacts.
Context `{Lookup.Services}.
Variable describeSObjectById : string -> result string.

Lemma mapSet_entries k v m x r :
  In (x, r) (LookupService.mapSet k v m) -> In (x, r) m \/ (x = k /\ r = v).
Proof.
  induction m as [| [k' v'] rest IH]; cbn.
  - intros [[= <- <-] | []]. by right.
  - destruct (String.eqb k' k) eqn:Hk.
    + apply String.eqb_eq in Hk. intros [[= <- <-] | Hin]; [by right | left; by right].
    + intros [Heq | Hin]; [left; by left |]. destruct (IH Hin); [left; by right | by right].
Qed.

Lemma mapSet_keys k v m x :
  In x (List.map fst (LookupService.mapSet k v m)) -> In x (List.map fst m) \/ x = k.
Proof.
  intros Hin. apply in_map_iff in Hin as ([x' r] & <- & Hin).
  apply mapSet_entries in Hin as [Hin | [-> _]]; [left | by right].
  apply in_map_iff. by exists (x', r).
Qed.

Lemma mapSet_NoDup k v m :
  List.NoDup (List.map fst m) -> List.NoDup (List.map fst (LookupService.mapSet k v m)).
Proof.
  induction m as [| [k' v'] rest IH]; cbn; intros Hnd.
  - repeat constructor. intros [].
  - inversion Hnd as [| ? ? Hnotin Hnd']; subst.
    destruct (String.eqb k' k) eqn:Hk; cbn; [by constructor |].
    constructor; [| by apply IH].
    intros Hin. apply mapSet_keys in Hin as [Hin | ->]; [done |].
    by rewrite String.eqb_refl in Hk.
Qed.

Lemma lookupTypes_keyed lookupFields cancelledAt cancelledIn entries :
  forall i resultsById found,
    LookupService.lookupTypes entries lookupFields cancelledAt cancelledIn i resultsById
      = Ok found ->
    List.NoDup (List.map fst resultsById) ->
    (forall k r, In (k, r) resultsById -> Id r = k) ->
    List.NoDup (List.map fst found) /\ forall k r, In (k, r) found -> Id r = k.
Proof.
  induction entries as [| [type ids] rest IH]; intros i resultsById found; cbn.
  { intros [= <-]. done. }
  destruct (cancelledAt i); [intros [= <-]; done |].
  destruct (Lookup.lookup type _ lookupFields None (cancelledIn i)) as [results | err];
    [| discriminate].
  intros Hrest Hnd Hkeys. apply (IH _ _ _ Hrest); clear Hrest.
  - revert resultsById Hnd Hkeys. induction results as [| r results IHr]; intros m Hnd Hkeys;
      cbn; [done |].
    apply IHr; [by apply mapSet_NoDup |].
    intros k r' Hin. apply mapSet_entries in Hin as [Hin | [-> ->]]; [by apply Hkeys | done].
  - revert resultsById Hnd Hkeys. induction results as [| r results IHr]; intros m Hnd Hkeys;
      cbn; [done |].
    apply IHr; [by apply mapSet_NoDup |].
    intros k r' Hin. apply mapSet_entries in Hin as [Hin | [-> ->]]; [by apply Hkeys | done].
Qed.

(** X14: the map that [lookupById] returns is keyed by record id: an entry holds
    a record under the id of that record, and no id has two entries, however
    many of the lookups return the record. *)
Theorem lookupById_is_keyed_by_record_id
    (ids : list string) (lookupFields : Lookup.LookupFields) (cancelledAt : nat -> bool)
    (cancelledIn : nat -> nat -> bool) (resultsById : list (string * OrgRecord)) :
  LookupService.lookupById describeSObjectById ids lookupFields cancelledAt cancelledIn
    = Ok resultsById ->
  List.NoDup (List.map fst resultsById)
  /\ forall k r, In (k, r) resultsById -> Id r = k.
Proof.
  unfold LookupService.lookupById.
  destruct (LookupService.typesOf describeSObjectById ids) as [typed | err]; [| discriminate].
  intros Hfound. apply (lookupTypes_keyed _ _ _ _ _ _ _ Hfound); [constructor | intros ? ? []].
Qed.
End LookupByIdFacts.

(** Two ids of contacts, one lookup, one record: the map has the record
    once, under its id. *)
Lemma lookupById_is_keyed_by_record_id_witness :
  List.NoDup (List.map fst
    [("003000000000001",
      {| Id := "003000000000001"; orgValues := [("Name", JString "Peter")] |})]).
Proof.
  apply (lookupById_is_keyed_by_record_id (H := contactServices) (fun _ => Ok "Contact")
    ["003000000000001"; "003000000000002"] Lookup.AllFields (fun _ => false)
    (fun _ _ => false) _ eq_refl).
Defined.

(** * Chunks of an OmniScript definition *)

Section Chunks.
Local Open Scope Z_scope.
Variable s : list Z.
Variable chunkSize : Z.

Lemma atWhitespace_below (i : Z) : i < -1 -> OmniScriptActivator.atWhitespace s i = false.
Proof.
  intros Hi. unfold OmniScriptActivator.atWhitespace, OmniScriptActivator.charAt.
  destruct (Z.ltb_spec i 0); [| lia]. destruct (Z.ltb_spec (i + 1) 0); [| lia].
  cbn. apply andb_false_r.
Qed.

Lemma scanBack_spec (fuel : nat) : forall i,
  let p := OmniScriptActivator.scanBack fuel s i in
  i - Z.of_nat fuel <= p <= i
  /\ (forall q, p < q <= i -> OmniScriptActivator.atWhitespace s q = true)
  /\ (i - Z.of_nat fuel < p -> OmniScriptActivator.atWhitespace s p = false).
Proof.
  induction fuel as [| fuel IH]; intros i; cbn [OmniScriptActivator.scanBack].
  - cbn. repeat split; lia.
  - destruct (OmniScriptActivator.atWhitespace s i) eqn:Hi.
    + destruct (IH (i - 1)) as (Hrange & Hall & Hstop). cbn zeta in *.
      split; [lia |]. split.
      * intros q Hq. destruct (Z.eq_dec q i) as [-> | Hne]; [done |]. apply Hall. lia.
      * intros Hp. apply Hstop. lia.
    + cbn zeta. split; [lia |]. split; [intros q Hq; lia | done].
Qed.

(** The inner loop stops at the first index, going down from where it
    starts, at which its condition is false. *)
Lemma splitPoint_spec (i : Z) :
  let p := OmniScriptActivator.splitPoint s i in
  p <= i
  /\ OmniScriptActivator.atWhitespace s p = false
  /\ forall q, p < q <= i -> OmniScriptActivator.atWhitespace s q = true.
Proof.
  unfold OmniScriptActivator.splitPoint.
  destruct (scanBack_spec (Z.to_nat (i + 2)) i) as (Hrange & Hall & Hstop). cbn zeta in *.
  split; [lia |]. split; [| done].
  destruct (Z_lt_le_dec (i - Z.of_nat (Z.to_nat (i + 2)))
              (OmniScriptActivator.scanBack (Z.to_nat (i + 2)) s i)) as [Hlt | Hle].
  - by apply Hstop.
  - apply atWhitespace_below. lia.
Qed.

Lemma splitPoint_unique (j p : Z) :
  p <= j ->
  OmniScriptActivator.atWhitespace s p = false ->
  (forall q, p < q <= j -> OmniScriptActivator.atWhitespace s q = true) ->
  OmniScriptActivator.splitPoint s j = p.
Proof.
  intros Hle Hp Hall. destruct (splitPoint_spec j) as (Hle' & Hp' & Hall'). cbn zeta in *.
  destruct (Z.lt_trichotomy (OmniScriptActivator.splitPoint s j) p) as [Hlt | [Heq | Hgt]];
    [| done |].
  - rewrite Hall' in Hp; [done | lia].
  - rewrite Hall in Hp'; [done | lia].
Qed.

(** Once a turn of the outer loop does not move the offset forward, no
    later turn does. *)
Lemma splitPoint_stuck (offset : Z) :
  OmniScriptActivator.splitPoint s (offset + chunkSize) <= offset ->
  forall offset', offset' <= offset ->
    OmniScriptActivator.splitPoint s (offset' + chunkSize) <= offset.
Proof.
  intros Hstuck offset' Hle.
  destruct (splitPoint_spec (offset + chunkSize)) as (Hle1 & Hp & Hall). cbn zeta in *.
  destruct (Z_le_gt_dec (offset' + chunkSize) offset) as [Hsmall | Hlarge].
  - destruct (splitPoint_spec (offset' + chunkSize)) as (Hle2 & _). cbn zeta in *. lia.
  - rewrite (splitPoint_unique (offset' + chunkSize)
               (OmniScriptActivator.splitPoint s (offset + chunkSize))); [done | lia | done |].
    intros q Hq. apply Hall. lia.
Qed.

Lemma chunksFrom_stuck (offset : Z) :
  offset < Z.of_nat (length s) ->
  OmniScriptActivator.splitPoint s (offset + chunkSize) <= offset ->
  forall fuel offset', offset' <= offset ->
    OmniScriptActivator.chunksFrom fuel s chunkSize offset' = None.
Proof.
  intros Hlen Hstuck. induction fuel as [| fuel IH]; intros offset' Hle;
    cbn [OmniScriptActivator.chunksFrom]; rewrite Z.gtb_ltb;
    (destruct (Z.ltb_spec offset' (Z.of_nat (length s))); [| lia]); [done |].
  rewrite IH; [done |]. by apply splitPoint_stuck.
Qed.

Lemma substring_forward (a b : Z) :
  0 <= a < Z.of_nat (length s) -> a < b ->
  OmniScriptActivator.substring s a b ++ drop (Z.to_nat b) s = drop (Z.to_nat a) s
  /\ 0 < Z.of_nat (length (OmniScriptActivator.substring s a b)) <= b - a
  /\ forall (j : nat) u,
       OmniScriptActivator.substring s a b !! j = Some u ->
       s !! (Z.to_nat a + j)%nat = Some u.
Proof.
  intros Ha Hb. unfold OmniScriptActivator.substring.
  replace (Z.min (Z.max 0 (Z.min a (Z.of_nat (length s))))
             (Z.max 0 (Z.min b (Z.of_nat (length s))))) with a by lia.
  replace (Z.max (Z.max 0 (Z.min a (Z.of_nat (length s))))
             (Z.max 0 (Z.min b (Z.of_nat (length s)))))
    with (Z.min b (Z.of_nat (length s))) by lia.
  split; [| split].
  - destruct (Z_le_gt_dec b (Z.of_nat (length s))) as [Hin | Hout].
    + replace (Z.to_nat b) with (Z.to_nat a + Z.to_nat (Z.min b (Z.of_nat (length s)) - a))%nat
        by lia.
      rewrite <- drop_drop. apply take_drop.
    + rewrite (drop_ge s (Z.to_nat b)) by lia. rewrite app_nil_r.
      apply take_ge. rewrite length_drop. lia.
  - rewrite length_take, length_drop. lia.
  - intros j u Hj. apply lookup_take_Some in Hj as [Hj _]. by rewrite lookup_drop in Hj.
Qed.

Lemma chunksFrom_sound (fuel : nat) : forall offset contentChunks,
  0 <= offset ->
  OmniScriptActivator.chunksFrom fuel s chunkSize offset = Some contentChunks ->
  concat contentChunks = drop (Z.to_nat offset) s
  /\ Forall (fun chunk => 0 < Z.of_nat (length chunk) <= chunkSize) contentChunks.
Proof.
  induction fuel as [| fuel IH]; intros offset contentChunks Hoffset;
    cbn [OmniScriptActivator.chunksFrom]; rewrite Z.gtb_ltb;
    destruct (Z.ltb_spec offset (Z.of_nat (length s))) as [Hlt | Hge]; try discriminate;
    try (intros [= <-]; split; [cbn; symmetry; apply drop_ge; lia | constructor]).
  destruct (OmniScriptActivator.chunksFrom fuel s chunkSize
              (OmniScriptActivator.splitPoint s (offset + chunkSize))) as [rest |] eqn:Hrest;
    [| discriminate].
  intros [= <-].
  destruct (Z_le_gt_dec (OmniScriptActivator.splitPoint s (offset + chunkSize)) offset)
    as [Hstuck | Hmove].
  { rewrite (chunksFrom_stuck offset Hlt Hstuck fuel) in Hrest; [discriminate | done]. }
  assert (Hnext : 0 <= OmniScriptActivator.splitPoint s (offset + chunkSize)) by lia.
  destruct (IH _ _ Hnext Hrest) as [Hconcat Hsizes].
  destruct (substring_forward offset (OmniScriptActivator.splitPoint s (offset + chunkSize)))
    as (Happ & Hsize & _); [lia | lia |].
  destruct (splitPoint_spec (offset + chunkSize)) as (Hle & _). cbn zeta in Hle.
  split.
  - cbn. by rewrite Hconcat.
  - constructor; [lia | done].
Qed.

(** X15: whenever [serializeDefinition] returns, the chunks put one after the
    other are the serialized definition, no chunk is empty and none is
    longer than the chunk size. *)
Theorem chunks_concatenate_to_the_definition (fuel : nat) (contentChunks : list (list Z)) :
  OmniScriptActivator.serializeDefinition fuel s chunkSize = Some contentChunks ->
  concat contentChunks = s
  /\ Forall (fun chunk => 0 < Z.of_nat (length chunk) <= chunkSize) contentChunks.
Proof.
  unfold OmniScriptActivator.serializeDefinition. intros Hchunks.
  by destruct (chunksFrom_sound fuel 0 contentChunks ltac:(lia) Hchunks).
Qed.

Lemma atWhitespace_false (i : Z) :
  0 <= i -> OmniScriptActivator.atWhitespace s i = false ->
  forall (j : nat) u, (j < 2)%nat -> s !! (Z.to_nat i + j)%nat = Some u ->
    OmniScriptActivator.isWhitespace u = false.
Proof.
  intros Hi Hfalse j u Hj Hu. unfold OmniScriptActivator.atWhitespace in Hfalse.
  apply orb_false_iff in Hfalse as [Hfirst Hsecond].
  pose proof (lookup_lt_Some _ _ _ Hu) as Hlen.
  destruct j as [| [| j]]; [| | lia].
  - unfold OmniScriptActivator.charAt in Hfirst. destruct (Z.ltb_spec i 0); [lia |].
    rewrite Nat.add_0_r in Hu. by rewrite Hu in Hfirst.
  - destruct (Z.ltb_spec (i + 1) (Z.of_nat (length s))); [| lia]. cbn in Hsecond.
    unfold OmniScriptActivator.charAt in Hsecond. destruct (Z.ltb_spec (i + 1) 0); [lia |].
    replace (Z.to_nat (i + 1)) with (Z.to_nat i + 1)%nat in Hsecond by lia.
    by rewrite Hu in Hsecond.
Qed.

Lemma chunksFrom_starts (fuel : nat) : forall offset contentChunks,
  0 <= offset ->
  OmniScriptActivator.atWhitespace s offset = false ->
  OmniScriptActivator.chunksFrom fuel s chunkSize offset = Some contentChunks ->
  Forall (fun chunk => forall (j : nat) u, (j < 2)%nat -> chunk !! j = Some u ->
                         OmniScriptActivator.isWhitespace u = false) contentChunks.
Proof.
  induction fuel as [| fuel IH]; intros offset contentChunks Hoffset Hstart;
    cbn [OmniScriptActivator.chunksFrom]; rewrite Z.gtb_ltb;
    destruct (Z.ltb_spec offset (Z.of_nat (length s))) as [Hlt | Hge]; try discriminate;
    try (intros [= <-]; constructor).
  destruct (OmniScriptActivator.chunksFrom fuel s chunkSize
              (OmniScriptActivator.splitPoint s (offset + chunkSize))) as [rest |] eqn:Hrest;
    [| discriminate].
  intros [= <-].
  destruct (Z_le_gt_dec (OmniScriptActivator.splitPoint s (offset + chunkSize)) offset)
    as [Hstuck | Hmove].
  { rewrite (chunksFrom_stuck offset Hlt Hstuck fuel) in Hrest; [discriminate | done]. }
  destruct (splitPoint_spec (offset + chunkSize)) as (_ & Hp & _). cbn zeta in Hp.
  assert (Hnext : 0 <= OmniScriptActivator.splitPoint s (offset + chunkSize)) by lia.
  constructor; [| apply (IH _ _ Hnext Hp Hrest)].
  intros j u Hj Hu.
  destruct (substring_forward offset (OmniScriptActivator.splitPoint s (offset + chunkSize)))
    as (_ & _ & Hlookup); [lia | lia |].
  by apply (atWhitespace_false offset Hoffset Hstart j u Hj), Hlookup.
Qed.

(** X16: the inner loop looks at the two code units after the split, so every
    chunk but the first starts with two code units that are not white
    space (or with one, when it has no more). *)
Theorem later_chunks_start_without_whitespace
    (fuel : nat) (first : list Z) (contentChunks : list (list Z)) :
  OmniScriptActivator.serializeDefinition fuel s chunkSize = Some (first :: contentChunks) ->
  Forall (fun chunk => forall (j : nat) u, (j < 2)%nat -> chunk !! j = Some u ->
                         OmniScriptActivator.isWhitespace u = false) contentChunks.
Proof.
  unfold OmniScriptActivator.serializeDefinition.
  destruct fuel as [| fuel]; cbn [OmniScriptActivator.chunksFrom]; rewrite Z.gtb_ltb;
    destruct (Z.ltb_spec 0 (Z.of_nat (length s))) as [Hlt | Hge]; try discriminate.
  destruct (OmniScriptActivator.chunksFrom fuel s chunkSize
              (OmniScriptActivator.splitPoint s (0 + chunkSize))) as [rest |] eqn:Hrest;
    [| discriminate].
  intros [= _ <-].
  destruct (Z_le_gt_dec (OmniScriptActivator.splitPoint s (0 + chunkSize)) 0)
    as [Hstuck | Hmove].
  { rewrite (chunksFrom_stuck 0 Hlt Hstuck fuel) in Hrest; [discriminate | done]. }
  destruct (splitPoint_spec (0 + chunkSize)) as (_ & Hp & _). cbn zeta in Hp.
  assert (Hnext : 0 <= OmniScriptActivator.splitPoint s (0 + chunkSize)) by lia.
  apply (chunksFrom_starts fuel _ _ Hnext Hp Hrest).
Qed.

Lemma chunksFrom_returns (fuel : nat) :
  (forall offset, 0 <= offset < Z.of_nat (length s) ->
     exists q, offset < q <= offset + chunkSize
               /\ OmniScriptActivator.atWhitespace s q = false) ->
  forall offset, 0 <= offset -> Z.of_nat (length s) - offset <= Z.of_nat fuel ->
    exists contentChunks,
      OmniScriptActivator.chunksFrom fuel s chunkSize offset = Some contentChunks.
Proof.
  intros Hsplit. induction fuel as [| fuel IH]; intros offset Hoffset Hfuel;
    cbn [OmniScriptActivator.chunksFrom]; rewrite Z.gtb_ltb;
    destruct (Z.ltb_spec offset (Z.of_nat (length s))) as [Hlt | Hge];
    try (by exists []); [lia |].
  destruct (Hsplit offset ltac:(lia)) as (q & Hq & Hfalse).
  destruct (splitPoint_spec (offset + chunkSize)) as (Hle & _ & Hall). cbn zeta in *.
  assert (Hmove : q <= OmniScriptActivator.splitPoint s (offset + chunkSize)).
  { destruct (Z_le_gt_dec q (OmniScriptActivator.splitPoint s (offset + chunkSize)));
      [done |]. rewrite Hall in Hfalse; [done | lia]. }
  destruct (IH (OmniScriptActivator.splitPoint s (offset + chunkSize))) as [rest Hrest];
    [lia | lia |].
  rewrite Hrest. eauto.
Qed.

(** X17: [serializeDefinition] returns when, from every offset in the
    definition, one of the next [chunkSize] indices is a place to split: an
    index at which neither the code unit nor the one after it is white
    space.  The outer loop then makes at most as many turns as the
    definition has code units. *)
Theorem serializeDefinition_returns (fuel : nat) :
  (forall offset, 0 <= offset < Z.of_nat (length s) ->
     exists q, offset < q <= offset + chunkSize
               /\ OmniScriptActivator.atWhitespace s q = false) ->
  (length s <= fuel)%nat ->
  exists contentChunks,
    OmniScriptActivator.serializeDefinition fuel s chunkSize = Some contentChunks.
Proof.
  intros Hsplit Hfuel. apply chunksFrom_returns; [done | lia | lia].
Qed.

(** X18: [serializeDefinition] does not return, whatever the number of turns it
    is given, when the definition is not empty and none of the first
    [chunkSize] indices is a place to split: the first turn moves the offset
    back instead of forward, and so does every later turn.  This is the case
    of a chunk size that is not positive, and of a definition in which white
    space comes at every second place or closer throughout its first
    [chunkSize] code units. *)
Theorem serializeDefinition_loops_without_split_point (fuel : nat) :
  s <> [] ->
  (forall q, 0 < q <= chunkSize -> OmniScriptActivator.atWhitespace s q = true) ->
  OmniScriptActivator.serializeDefinition fuel s chunkSize = None.
Proof.
  intros Hs Hall. unfold OmniScriptActivator.serializeDefinition.
  apply (chunksFrom_stuck 0); [destruct s; [done | cbn; lia] | | done].
  destruct (splitPoint_spec (0 + chunkSize)) as (Hle & Hp & _). cbn zeta in *.
  destruct (Z_le_gt_dec (OmniScriptActivator.splitPoint s (0 + chunkSize)) 0); [done |].
  rewrite Hall in Hp; [done | lia].
Qed.
End Chunks.

(** The text "ab cd" in chunks of three: "ab " and "cd". *)
Lemma chunks_concatenate_to_the_definition_witness :
  concat ([[97; 98; 32]; [99; 100]]%Z) = wordsDefinition.
Proof.
  apply (proj1 (chunks_concatenate_to_the_definition wordsDefinition 3 5
                  [[97; 98; 32]; [99; 100]]%Z eq_refl)).
Defined.

Lemma later_chunks_start_without_whitespace_witness :
  Forall (fun chunk => forall (j : nat) u, (j < 2)%nat -> chunk !! j = Some u ->
                         OmniScriptActivator.isWhitespace u = false) [[99; 100]%Z].
Proof.
  apply (later_chunks_start_without_whitespace wordsDefinition 3 5 [97; 98; 32]%Z
           [[99; 100]%Z] eq_refl).
Defined.

Lemma serializeDefinition_returns_witness :
  exists contentChunks,
    OmniScriptActivator.serializeDefinition 5 wordsDefinition 3 = Some contentChunks.
Proof.
  apply (serializeDefinition_returns wordsDefinition 3 5); [| vm_compute; lia].
  intros offset Hoffset. unfold wordsDefinition in Hoffset. cbn in Hoffset.
  assert (Hcases : (offset = 0 \/ offset = 1 \/ offset = 2 \/ offset = 3 \/ offset = 4)%Z)
    by lia.
  destruct Hcases as [-> | [-> | [-> | [-> | ->]]]].
  - exists 3%Z. split; [lia | reflexivity].
  - exists 3%Z. split; [lia | reflexivity].
  - exists 3%Z. split; [lia | reflexivity].
  - exists 4%Z. split; [lia | reflexivity].
  - exists 5%Z. split; [lia | reflexivity].
Defined.

(** The text "a b c" in chunks of three: every index from 1 to 3 is on or
    before a blank, and the loop never ends. *)
Lemma serializeDefinition_loops_without_split_point_witness :
  OmniScriptActivator.serializeDefinition 1000 lettersDefinition 3 = None.
Proof.
  apply (serializeDefinition_loops_without_split_point lettersDefinition 3 1000);
    [discriminate |].
  intros q Hq.
  assert (Hcases : (q = 1 \/ q = 2 \/ q = 3)%Z) by lia.
  by destruct Hcases as [-> | [-> | ->]].
Defined.

(** The first chunk of "ab cd" ends with the blank: the inner loop tests
    the two code units after the split, not the one before it. *)
Example chunk_ending_with_whitespace :
  OmniScriptActivator.serializeDefinition 5 wordsDefinition 3
  = Some [[97; 98; 32]; [99; 100]]%Z.
Proof. reflexivity. Qed.

(** * String helpers *)

#[local] Arguments String.append !_ _ : simpl nomatch.

Lemma prefix_spec (p s : string) :
  String.prefix p s = true <-> exists rest, s = p +:+ rest.
Proof.
  revert s. induction p as [| c p IH]; intros s.
  - split; [by exists s | by destruct s].
  - destruct s as [| c' s]; cbn; [split; [done | intros (rest & Heq); discriminate] |].
    destruct (ascii_dec c c') as [<- | Hne].
    + rewrite IH. split; intros (rest & Heq); exists rest; cbn in *; congruence.
    + split; [done |]. intros (rest & Heq). cbn in Heq. congruence.
Qed.

Lemma stringEndsWith_spec (s searchString : string) :
  StringUtil.stringEndsWith s searchString = true
  <-> exists before, s = before +:+ searchString.
Proof.
  induction s as [| c s IH]; cbn [StringUtil.stringEndsWith].
  - rewrite orb_false_r, String.eqb_eq. split.
    + intros <-. by exists "".
    + intros ([| c before] & Heq); cbn in Heq; [done | discriminate].
  - rewrite orb_true_iff, String.eqb_eq, IH. split.
    + intros [<- | (before & ->)]; [by exists "" | by exists (String c before)].
    + intros ([| c' before] & Heq); cbn in Heq; [by left |].
      right. exists before. congruence.
Qed.

Lemma substring_all (s : string) : String.substring 0 (String.length s) s = s.
Proof. induction s as [| c s IH]; cbn; [done | by rewrite IH]. Qed.

Lemma substringFrom_app (before rest : string) :
  substringFrom (String.length before) (before +:+ rest) = rest.
Proof.
  unfold substringFrom. induction before as [| c before IH]; cbn.
  - rewrite Nat.sub_0_r. apply substring_all.
  - apply IH.
Qed.

Lemma app_length (a b : string) :
  String.length (a +:+ b) = String.length a + String.length b.
Proof. induction a as [| c a IH]; cbn; [done | by rewrite IH]. Qed.

Lemma string_app_assoc (a b c : string) : (a +:+ b) +:+ c = a +:+ (b +:+ c).
Proof. induction a as [| x a IH]; cbn; [done | by rewrite IH]. Qed.

(** [indexOf] gives the first place at which the delimiter occurs. *)
Lemma indexOf_spec (delimiter : string) : forall value,
  match StringUtil.indexOf value delimiter with
  | Some i =>
      exists before after,
        value = before +:+ delimiter +:+ after
        /\ String.length before = i
        /\ forall before' after',
             value = before' +:+ delimiter +:+ after' -> i <= String.length before'
  | None => forall before after, value <> before +:+ delimiter +:+ after
  end.
Proof.
  induction value as [| c value IH]; cbn [StringUtil.indexOf].
  - destruct (String.prefix delimiter "") eqn:Hp.
    + apply prefix_spec in Hp as (after & Heq). exists "", after. cbn.
      split; [done |]. split; [done | intros; lia].
    + intros [| c before] after Heq; cbn in Heq; [| discriminate].
      assert (String.prefix delimiter "" = true); [| congruence].
      apply prefix_spec. by exists after.
  - destruct (String.prefix delimiter (String c value)) eqn:Hp.
    + apply prefix_spec in Hp as (after & Heq). exists "", after. cbn.
      split; [done |]. split; [done | intros; lia].
    + assert (Hfirst : forall after, String c value <> delimiter +:+ after).
      { intros after Heq. assert (String.prefix delimiter (String c value) = true);
          [| congruence]. apply prefix_spec. by exists after. }
      destruct (StringUtil.indexOf value delimiter) as [i |].
      * destruct IH as (before & after & Heq & Hlen & Hmin).
        exists (String c before), after.
        split; [cbn; congruence |]. split; [cbn; congruence |].
        intros [| c' before'] after' Heq'; cbn in Heq'; [by destruct (Hfirst after') |].
        injection Heq' as _ Heq'. cbn.
        specialize (Hmin before' after' Heq'). lia.
      * intros [| c' before] after Heq; cbn in Heq; [by destruct (Hfirst after) |].
        injection Heq as _ Heq. by destruct (IH before after).
Qed.

Section StringHelpers.
Import StringUtil.

(** X19: [stringEquals] is an equivalence, with or without regard to case; it
    holds [undefined] equal to [undefined] and [null] to [null], but neither
    to the other nor to any string; with regard to case it is identity. *)
Theorem stringEquals_is_an_equivalence (caseInsensitive : bool) :
  (forall a, stringEquals a a caseInsensitive = true)
  /\ (forall a b, stringEquals a b caseInsensitive = stringEquals b a caseInsensitive)
  /\ (forall a b c,
        stringEquals a b caseInsensitive = true ->
        stringEquals b c caseInsensitive = true ->
        stringEquals a c caseInsensitive = true)
  /\ (forall a b,
        stringEquals a b caseInsensitive = true <->
        a = b
        \/ (caseInsensitive = true
            /\ exists a' b', a = Str a' /\ b = Str b'
                             /\ toLowerCase a' = toLowerCase b')).
Proof.
  assert (Hspec : forall a b,
    stringEquals a b caseInsensitive = true <->
    a = b
    \/ (caseInsensitive = true
        /\ exists a' b', a = Str a' /\ b = Str b' /\ toLowerCase a' = toLowerCase b')).
  { intros a b. unfold stringEquals. destruct (bool_decide (a = b)) eqn:Hab.
    - apply bool_decide_eq_true in Hab. split; [by left | done].
    - apply bool_decide_eq_false in Hab.
      destruct a as [| | a'], b as [| | b']; try (split; [done | intros [? | (_ & ? & ? & ? & ? & _)]; done]).
      destruct caseInsensitive.
      + rewrite String.eqb_eq. split.
        * intros Heq. right. split; [done |]. by exists a', b'.
        * intros [? | (_ & x & y & [= ->] & [= ->] & Heq)]; [done | by symmetry].
      + split; [done |]. intros [? | (? & _)]; done. }
  split; [| split; [| split; [| done]]].
  - intros a. apply Hspec. by left.
  - intros a b. apply eq_true_iff_eq. rewrite !Hspec. split.
    + intros [-> | (Hc & a' & b' & -> & -> & Heq)]; [by left |].
      right. split; [done |]. by exists b', a'.
    + intros [-> | (Hc & a' & b' & -> & -> & Heq)]; [by left |].
      right. split; [done |]. by exists b', a'.
  - intros a b c. rewrite !Hspec.
    intros [-> | (Hc & a' & b' & -> & -> & Heq)]; [done |].
    intros [<- | (_ & x & c' & [= <-] & -> & Heq')].
    + right. split; [done |]. by exists a', b'.
    + right. split; [done |]. exists a', c'. repeat split; congruence.
Qed.

(** X20: [endsWith(a, b)] tells whether the second argument ends with the first;
    it is false as soon as one of them is [undefined] or [null], also when
    both are. *)
Theorem endsWith_tests_the_second_argument
    (a b : OptionalString) (caseInsensitive : bool) :
  endsWith a b caseInsensitive = true
  <-> exists a' b' before,
        a = Str a' /\ b = Str b'
        /\ (if caseInsensitive then toLowerCase b' else b')
           = before +:+ (if caseInsensitive then toLowerCase a' else a').
Proof.
  unfold endsWith.
  destruct a as [| | a'], b as [| | b'];
    try (split; [done | intros (? & ? & ? & ? & ? & _); done]).
  destruct caseInsensitive; rewrite stringEndsWith_spec; split.
  - intros (before & Heq). by exists a', b', before.
  - intros (x & y & before & [= <-] & [= <-] & Heq). by exists before.
  - intros (before & Heq). by exists a', b', before.
  - intros (x & y & before & [= <-] & [= <-] & Heq). by exists before.
Qed.

(** X21: [substringAfter] with a string delimiter gives the text after the first
    occurrence of the delimiter when that occurrence is not at the start of
    the value; a value that starts with the delimiter, like one in which
    the delimiter does not occur, is returned as it is. *)
Theorem substringAfter_skips_a_leading_delimiter (value delimiter : string) :
  let result := substringAfter value (DString delimiter) in
  (startsWith value delimiter = true -> result = value)
  /\ ((forall before after, value <> before +:+ delimiter +:+ after) -> result = value)
  /\ (startsWith value delimiter = false ->
      forall before after,
        value = before +:+ delimiter +:+ after ->
        (forall before' after',
           value = before' +:+ delimiter +:+ after' ->
           String.length before <= String.length before') ->
        result = after).
Proof.
  cbn zeta. unfold substringAfter, startsWith.
  pose proof (indexOf_spec delimiter value) as Hindex.
  split; [| split].
  - intros Hp. destruct value; cbn [indexOf]; by rewrite Hp.
  - intros Hnone. destruct (indexOf value delimiter) as [i |]; [| done].
    destruct Hindex as (before & after & Heq & _). by destruct (Hnone before after).
  - intros Hp before after Heq Hfirst.
    destruct (indexOf value delimiter) as [[| i] |].
    + destruct Hindex as ([| c b0] & a0 & Heq0 & Hlen & _); [| discriminate].
      assert (String.prefix delimiter value = true); [| congruence].
      apply prefix_spec. by exists a0.
    + destruct Hindex as (b0 & a0 & Heq0 & Hlen & Hmin).
      pose proof (Hmin before after Heq) as Hle.
      pose proof (Hfirst b0 a0 Heq0) as Hge.
      assert (Hsame : String.length before = S i) by lia.
      rewrite <- Hsame, <- app_length, Heq, <- string_app_assoc.
      apply substringFrom_app.
    + by destruct (Hindex before after).
Qed.
End StringHelpers.

(** The value "/a/b" starts with the delimiter and is returned whole. *)
Lemma substringAfter_skips_a_leading_delimiter_witness :
  StringUtil.substringAfter "/a/b" (StringUtil.DString "/") = "/a/b".
Proof.
  apply (proj1 (substringAfter_skips_a_leading_delimiter "/a/b" "/")). reflexivity.
Defined.

(** * Call hooks *)

Section Hooks.
Import HookManager.

Lemma executeHooks_observing (hooks : list CallHook) (type : HookType) :
  (forall hook hookFunction options,
     In hook hooks -> hookFunctionOf hook type = Some hookFunction ->
     fst (hookFunction options) = options
     /\ (type = onPost ->
         snd (hookFunction options) = Thrown
         \/ snd (hookFunction options) = Returned JUndefined)) ->
  forall options, executeHooks true hooks type options = options.
Proof.
  unfold executeHooks. induction hooks as [| hook hooks IH]; intros Hall options; cbn; [done |].
  assert (Hone : execute type hook options = options).
  { unfold execute. destruct (hookFunctionOf hook type) as [hookFunction |] eqn:Hf; [| done].
    destruct (Hall hook hookFunction options (or_introl eq_refl) Hf) as [Hfst Hsnd].
    destruct (hookFunction options) as [options' [result |]]; cbn in Hfst, Hsnd; subst options';
      [| done].
    destruct type; [by rewrite andb_false_r |].
    destruct (Hsnd eq_refl) as [? | [= ->]]; done. }
  rewrite Hone. apply IH. intros h f o Hin. apply Hall. by right.
Qed.

(** X22: hooks that only observe do not alter the call: when the hooks are
    disabled, when none is registered, or when every hook leaves the options
    of the call as they are and its [post] function returns nothing or
    throws, the intercepted method returns or throws exactly what the
    method itself does on the same arguments.  In particular a hook that
    throws, before or after the call, is not noticed by the caller. *)
Theorem observing_hooks_do_not_alter_the_call
    (enabled : bool) (hooks : list CallHook) (target : list JsValue -> result JsValue)
    (name : string) (args : list JsValue) :
  (enabled = true ->
   forall hook type hookFunction options,
     In hook hooks -> hookFunctionOf hook type = Some hookFunction ->
     fst (hookFunction options) = options
     /\ (type = onPost ->
         snd (hookFunction options) = Thrown
         \/ snd (hookFunction options) = Returned JUndefined)) ->
  createInterceptorFunc enabled hooks target name args = target args.
Proof.
  intros Hobserve. unfold createInterceptorFunc.
  destruct enabled.
  - rewrite (executeHooks_observing hooks onPre) by (intros; by eapply Hobserve).
    cbn [HookManager.args]. destruct (target args) as [value | err]; [| done].
    rewrite (executeHooks_observing hooks onPost) by (intros; by eapply Hobserve).
    done.
  - cbn. by destruct (target args).
Qed.

(** X23: the result of the [post] function of the hook registered last, when it
    is not [undefined], is what the caller gets in place of the result of
    the method, whatever the hooks before it did. *)
Theorem last_post_hook_decides_the_result
    (before : list CallHook) (hook : CallHook) (target : list JsValue -> result JsValue)
    (name : string) (args : list JsValue) (hookFunction : HookFunction)
    (result value : JsValue) :
  post hook = Some hookFunction ->
  (forall options, snd (hookFunction options) = Returned result) ->
  result <> JUndefined ->
  target (HookManager.args
            (executeHooks true (before ++ [hook]) onPre
               {| HookManager.args := args; HookManager.name := name;
                  returnValue := JUndefined |})) = Ok value ->
  createInterceptorFunc true (before ++ [hook]) target name args = Ok result.
Proof.
  intros Hpost Hhook Hdefined Htarget. unfold createInterceptorFunc. rewrite Htarget.
  f_equal. unfold executeHooks at 1. rewrite fold_left_app. cbn [fold_left].
  set (options := fold_left _ before _).
  unfold execute. cbn [hookFunctionOf]. rewrite Hpost.
  pose proof (Hhook options) as Hsnd.
  destruct (hookFunction options) as [options' outcome]. cbn in Hsnd. subst outcome.
  rewrite andb_true_r. unfold strictNotEqual.
  by rewrite bool_decide_eq_false_2.
Qed.
End Hooks.

(** A hook that throws before and after the call of a method that returns
    its first argument. *)
Lemma observing_hooks_do_not_alter_the_call_witness :
  HookManager.createInterceptorFunc true [throwingHook] echoTarget "echo" [JString "hello"]
  = echoTarget [JString "hello"].
Proof.
  apply (observing_hooks_do_not_alter_the_call true [throwingHook] echoTarget "echo"
           [JString "hello"]).
  intros _ hook type hookFunction options [<- | []] Hf.
  destruct type; cbn in Hf; injection Hf as <-; cbn; split; auto.
Defined.

Lemma last_post_hook_decides_the_result_witness :
  HookManager.createInterceptorFunc true ([throwingHook] ++ [replacingHook]) echoTarget "echo"
    [JString "hello"]
  = Ok (JString "replaced").
Proof.
  apply (last_post_hook_decides_the_result [throwingHook] replacingHook echoTarget "echo"
           [JString "hello"] (fun options => (options, HookManager.Returned (JString "replaced")))
           (JString "replaced") (JString "hello") eq_refl (fun _ => eq_refl)); [| reflexivity].
  discriminate.
Defined.
